(** * Admin authentication and session lifecycle (src/routes/index.tsx)

    A shallow embedding of the admin-auth module of the petition site:
    [hashPassword], [getStoredPasswordHash], [storePasswordHash],
    [isPasswordSet], [resetAdminPassword], [authenticateAdmin],
    [validateSession], [logoutAdmin] and [cleanupExpiredSessions], over an
    explicit world holding the [admin_session] table, the browser's
    [localStorage], the clock, the random source and the console.

    Beside it: the SEO settings (src/lib/seo-settings.ts) and the context
    that holds them (src/contexts/SEOContext.tsx) over any ORM, and, from
    the petition page, the postcode pattern of the form and the CSV text
    of the export.

    Layout: JavaScript strings and numbers, the platform's SHA-256, the
    effect monad, the collaborators (ORM, localStorage, Date, crypto), the
    functions of the source, and then the theorems. *)

From Stdlib Require Import String Ascii.
From Stdlib Require Import List ZArith NArith Lia Bool.
From Stdlib Require Decimal DecimalPos DecimalN DecimalZ.
Import ListNotations.

(* ================================================================== *)
(** ** JavaScript strings *)
(* ================================================================== *)

Module JS.

(** A JavaScript string is a sequence of UTF-16 code units. *)
Definition char16 := N.
Definition jsstring := list char16.

(** A string literal of the source (ASCII only). *)
Definition lit (s : string) : jsstring :=
  map N_of_ascii (list_ascii_of_string s).

(** [a === b] on strings. *)
Fixpoint eqb (a b : jsstring) : bool :=
  match a, b with
  | [], [] => true
  | x :: a', y :: b' => N.eqb x y && eqb a' b'
  | _, _ => false
  end.

(** ECMAScript WhiteSpace and LineTerminator code points: what
    [String.prototype.trim] strips and what [parseInt] skips. *)
Definition is_whitespace (c : char16) : bool :=
  (N.eqb c 0x09 || N.eqb c 0x0A || N.eqb c 0x0B || N.eqb c 0x0C ||
   N.eqb c 0x0D || N.eqb c 0x20 || N.eqb c 0xA0 || N.eqb c 0x1680 ||
   (N.leb 0x2000 c && N.leb c 0x200A) ||
   N.eqb c 0x2028 || N.eqb c 0x2029 || N.eqb c 0x202F ||
   N.eqb c 0x205F || N.eqb c 0x3000 || N.eqb c 0xFEFF)%bool.

Fixpoint trimStart (s : jsstring) : jsstring :=
  match s with
  | c :: rest => if is_whitespace c then trimStart rest else s
  | [] => []
  end.

Definition trimEnd (s : jsstring) : jsstring := rev (trimStart (rev s)).

(** [s.trim()] *)
Definition trim (s : jsstring) : jsstring := trimEnd (trimStart s).

(** Truthiness of a string: every string but the empty one. *)
Definition truthy (s : jsstring) : bool :=
  match s with [] => false | _ => true end.

(* ------------------------------------------------------------------ *)
(** *** Numbers rendered and parsed in base 10 and 16 *)

Definition hexdigit (d : N) : char16 :=
  if N.ltb d 10 then (48 + d)%N else (87 + d)%N.

(** [byte.toString(16)] for a byte: one or two lowercase hex digits. *)
Definition toString16 (b : N) : jsstring :=
  if N.ltb b 16 then [hexdigit b]
  else [hexdigit (N.div b 16); hexdigit (N.modulo b 16)].

(** [s.padStart(n, "0")] *)
Definition padStart0 (n : nat) (s : jsstring) : jsstring :=
  repeat 48%N (n - length s) ++ s.

(** [bytes.map(byte => byte.toString(16).padStart(2, "0")).join("")] *)
Definition hex_of_bytes (bytes : list N) : jsstring :=
  flat_map (fun byte => padStart0 2 (toString16 byte)) bytes.

Fixpoint chars_of_uint (d : Decimal.uint) : jsstring :=
  match d with
  | Decimal.Nil => []
  | Decimal.D0 d => 48%N :: chars_of_uint d
  | Decimal.D1 d => 49%N :: chars_of_uint d
  | Decimal.D2 d => 50%N :: chars_of_uint d
  | Decimal.D3 d => 51%N :: chars_of_uint d
  | Decimal.D4 d => 52%N :: chars_of_uint d
  | Decimal.D5 d => 53%N :: chars_of_uint d
  | Decimal.D6 d => 54%N :: chars_of_uint d
  | Decimal.D7 d => 55%N :: chars_of_uint d
  | Decimal.D8 d => 56%N :: chars_of_uint d
  | Decimal.D9 d => 57%N :: chars_of_uint d
  end.

(** [n.toString()] for an integral number: its decimal digits, with a
    leading minus sign when negative. *)
Definition Number_toString (z : Z) : jsstring :=
  match Z.to_int z with
  | Decimal.Pos d => chars_of_uint d
  | Decimal.Neg d => 45%N :: chars_of_uint d
  end.

(** The longest prefix of decimal digits of [s]. *)
Fixpoint digits_prefix (s : jsstring) : Decimal.uint :=
  match s with
  | [] => Decimal.Nil
  | c :: rest =>
      if N.eqb c 48 then Decimal.D0 (digits_prefix rest)
      else if N.eqb c 49 then Decimal.D1 (digits_prefix rest)
      else if N.eqb c 50 then Decimal.D2 (digits_prefix rest)
      else if N.eqb c 51 then Decimal.D3 (digits_prefix rest)
      else if N.eqb c 52 then Decimal.D4 (digits_prefix rest)
      else if N.eqb c 53 then Decimal.D5 (digits_prefix rest)
      else if N.eqb c 54 then Decimal.D6 (digits_prefix rest)
      else if N.eqb c 55 then Decimal.D7 (digits_prefix rest)
      else if N.eqb c 56 then Decimal.D8 (digits_prefix rest)
      else if N.eqb c 57 then Decimal.D9 (digits_prefix rest)
      else Decimal.Nil
  end.

Definition magnitude (s : jsstring) : option Z :=
  match digits_prefix s with
  | Decimal.Nil => None
  | d => Some (Z.of_uint d)
  end.

(** [parseInt(s, 10)]: leading white space is skipped, an optional sign
    is read, then the longest run of decimal digits; [None] is NaN (no
    digit at all).  The result is kept as an exact integer: the source
    only compares it with [Math.floor(Date.now() / 1000)], an integer far
    below 2^53, and rounding to a double is monotone and fixes that
    integer, so the comparison is the same on the exact value. *)
Definition parseInt (s : jsstring) : option Z :=
  match trimStart s with
  | c :: rest =>
      if N.eqb c 45 then option_map Z.opp (magnitude rest)
      else if N.eqb c 43 then magnitude rest
      else magnitude (c :: rest)
  | [] => None
  end.

(** [now > expiresAt] where [expiresAt] may be NaN: any comparison with
    NaN is false. *)
Definition gt_number (now : Z) (expiresAt : option Z) : bool :=
  match expiresAt with
  | Some e => Z.ltb e now
  | None => false
  end.

(* ------------------------------------------------------------------ *)
(** *** [new TextEncoder().encode(s)]: UTF-8 of a UTF-16 string *)

Definition is_high_surrogate (c : char16) : bool :=
  (N.leb 0xD800 c && N.ltb c 0xDC00)%bool.
Definition is_low_surrogate (c : char16) : bool :=
  (N.leb 0xDC00 c && N.ltb c 0xE000)%bool.

Definition utf8_of_code_point (cp : N) : list N :=
  if N.ltb cp 0x80 then [cp]
  else if N.ltb cp 0x800 then
    [0xC0 + N.div cp 64; 0x80 + N.modulo cp 64]%N
  else if N.ltb cp 0x10000 then
    [0xE0 + N.div cp 4096; 0x80 + N.modulo (N.div cp 64) 64;
     0x80 + N.modulo cp 64]%N
  else
    [0xF0 + N.div cp 262144; 0x80 + N.modulo (N.div cp 4096) 64;
     0x80 + N.modulo (N.div cp 64) 64; 0x80 + N.modulo cp 64]%N.

(** Unpaired surrogates are encoded as U+FFFD. *)
Fixpoint utf8_encode (s : jsstring) : list N :=
  match s with
  | [] => []
  | c :: rest =>
      if is_high_surrogate c then
        match rest with
        | d :: rest' =>
            if is_low_surrogate d then
              utf8_of_code_point
                (0x10000 + (c - 0xD800) * 0x400 + (d - 0xDC00))%N
                ++ utf8_encode rest'
            else utf8_of_code_point 0xFFFD ++ utf8_encode rest
        | [] => utf8_of_code_point 0xFFFD
        end
      else if is_low_surrogate c then
        utf8_of_code_point 0xFFFD ++ utf8_encode rest
      else utf8_of_code_point c ++ utf8_encode rest
  end.

End JS.

Abbreviation jsstring := JS.jsstring.

(* ================================================================== *)
(** ** [crypto.subtle.digest("SHA-256", data)] (FIPS 180-4) *)
(* ================================================================== *)

Module SHA256.

Local Open Scope N_scope.

Definition w32 (x : N) : N := x mod 0x100000000.
Definition add32 (x y : N) : N := w32 (x + y).
Definition rotr (n x : N) : N :=
  N.lor (N.shiftr x n) (w32 (N.shiftl x (32 - n))).
Definition not32 (x : N) : N := 0xFFFFFFFF - x.

Definition Ch (x y z : N) : N := N.lxor (N.land x y) (N.land (not32 x) z).
Definition Maj (x y z : N) : N :=
  N.lxor (N.lxor (N.land x y) (N.land x z)) (N.land y z).
Definition Sigma0 (x : N) : N :=
  N.lxor (N.lxor (rotr 2 x) (rotr 13 x)) (rotr 22 x).
Definition Sigma1 (x : N) : N :=
  N.lxor (N.lxor (rotr 6 x) (rotr 11 x)) (rotr 25 x).
Definition sigma0 (x : N) : N :=
  N.lxor (N.lxor (rotr 7 x) (rotr 18 x)) (N.shiftr x 3).
Definition sigma1 (x : N) : N :=
  N.lxor (N.lxor (rotr 17 x) (rotr 19 x)) (N.shiftr x 10).

(** The constants are the first 32 bits of the fractional parts of the
    cube roots (round constants) and square roots (initial hash value) of
    the first primes; they are computed here rather than tabulated. *)
Definition is_prime (p : N) : bool :=
  (1 <? p) &&
  forallb (fun d => negb (p mod N.of_nat d =? 0))
          (seq 2 (N.to_nat p - 2)).

Definition primes_below (bound : nat) : list N :=
  filter is_prime (map N.of_nat (seq 2 (bound - 2))).

(** Integer cube root by bisection on the bits [bits - 1 .. 0]. *)
Fixpoint cube_root_bits (bits : nat) (x r : N) : N :=
  match bits with
  | O => r
  | S bits' =>
      let r' := r + 2 ^ N.of_nat bits' in
      cube_root_bits bits' x (if r' * r' * r' <=? x then r' else r)
  end.

Definition frac_cube_root (p : N) : N :=
  w32 (cube_root_bits 36 (p * 2 ^ 96) 0).

Definition frac_square_root (p : N) : N :=
  w32 (N.sqrt (p * 2 ^ 64)).

Definition K : list N :=
  Eval vm_compute in map frac_cube_root (primes_below 312).

Definition H0 : list N :=
  Eval vm_compute in map frac_square_root (primes_below 20).

(** Big-endian bytes of a number, [n] bytes wide. *)
Fixpoint be_bytes (n : nat) (x : N) : list N :=
  match n with
  | O => []
  | S n' => be_bytes n' (x / 256) ++ [x mod 256]
  end.

Fixpoint be_word (bytes : list N) (acc : N) : N :=
  match bytes with
  | [] => acc
  | b :: rest => be_word rest (acc * 256 + b mod 256)
  end.

(** The message followed by 0x80, zeros up to 56 mod 64, and its length
    in bits as a 64-bit big-endian number. *)
Definition pad (msg : list N) : list N :=
  let len := length msg in
  let zeros := ((64 - ((len + 9) mod 64)) mod 64)%nat in
  msg ++ [0x80] ++ repeat 0 zeros ++ be_bytes 8 (8 * N.of_nat len).

Fixpoint words (n : nat) (bytes : list N) : list N :=
  match n with
  | O => []
  | S n' => be_word (firstn 4 bytes) 0 :: words n' (skipn 4 bytes)
  end.

(** The message schedule, most recent word first. *)
Fixpoint schedule (n : nat) (rev_w : list N) : list N :=
  match n with
  | O => rev_w
  | S n' =>
      let w :=
        add32 (add32 (sigma1 (nth 1 rev_w 0)) (nth 6 rev_w 0))
              (add32 (sigma0 (nth 14 rev_w 0)) (nth 15 rev_w 0)) in
      schedule n' (w :: rev_w)
  end.

Record regs := Regs { ra : N; rb : N; rc : N; rd : N;
                      re : N; rf : N; rg : N; rh : N }.

Definition round (s : regs) (kw : N * N) : regs :=
  let t1 := add32 (add32 (add32 (rh s) (Sigma1 (re s)))
                         (add32 (Ch (re s) (rf s) (rg s)) (fst kw)))
                  (snd kw) in
  let t2 := add32 (Sigma0 (ra s)) (Maj (ra s) (rb s) (rc s)) in
  Regs (add32 t1 t2) (ra s) (rb s) (rc s) (add32 (rd s) t1)
       (re s) (rf s) (rg s).

Definition regs_of (h : list N) : regs :=
  Regs (nth 0 h 0) (nth 1 h 0) (nth 2 h 0) (nth 3 h 0)
       (nth 4 h 0) (nth 5 h 0) (nth 6 h 0) (nth 7 h 0).

Definition compress (h : list N) (block : list N) : list N :=
  let w := rev (schedule 48 (rev (words 16 block))) in
  let s0 := regs_of h in
  let s := fold_left round (combine K w) s0 in
  [add32 (ra s0) (ra s); add32 (rb s0) (rb s);
   add32 (rc s0) (rc s); add32 (rd s0) (rd s);
   add32 (re s0) (re s); add32 (rf s0) (rf s);
   add32 (rg s0) (rg s); add32 (rh s0) (rh s)].

Fixpoint blocks (n : nat) (h : list N) (bytes : list N) : list N :=
  match n with
  | O => h
  | S n' => blocks n' (compress h (firstn 64 bytes)) (skipn 64 bytes)
  end.

(** The 32 bytes of the digest. *)
Definition digest (msg : list N) : list N :=
  let p := pad msg in
  flat_map (be_bytes 4) (blocks (length p / 64) H0 p).

End SHA256.

(* ================================================================== *)
(** ** The world the module runs in *)
(* ================================================================== *)

(** Row identifiers are opaque and assigned by the server; the client
    sends an empty [id] ([no_id]) which the server replaces. *)
Definition Id := nat.
Definition no_id : Id := 0.

(** A row of the [admin_session] table (the ORM's [AdminSessionModel]). *)
Record AdminSession := {
  id : Id;
  data_creator : jsstring;
  data_updater : jsstring;
  create_time : jsstring;
  update_time : jsstring;
  session_token : jsstring;
  expires_at : jsstring;
  user_id : jsstring
}.

Record World := {
  table : list AdminSession;      (* rows of admin_session, oldest first *)
  next_id : Id;                   (* the server's next identifier *)
  outages : list nat;             (* store failures still to come *)
  storage : list (jsstring * jsstring);  (* localStorage *)
  clock : Z;                      (* Date.now(), milliseconds *)
  entropy : list N;               (* bytes crypto.getRandomValues will give *)
  console : list string           (* console.error lines, latest first *)
}.

Definition set_table (t : list AdminSession) (w : World) : World :=
  {| table := t; next_id := next_id w; outages := outages w;
     storage := storage w; clock := clock w; entropy := entropy w;
     console := console w |}.
Definition set_next_id (n : Id) (w : World) : World :=
  {| table := table w; next_id := n; outages := outages w;
     storage := storage w; clock := clock w; entropy := entropy w;
     console := console w |}.
Definition set_outages (o : list nat) (w : World) : World :=
  {| table := table w; next_id := next_id w; outages := o;
     storage := storage w; clock := clock w; entropy := entropy w;
     console := console w |}.
Definition set_storage (s : list (jsstring * jsstring)) (w : World) : World :=
  {| table := table w; next_id := next_id w; outages := outages w;
     storage := s; clock := clock w; entropy := entropy w;
     console := console w |}.
Definition set_clock (c : Z) (w : World) : World :=
  {| table := table w; next_id := next_id w; outages := outages w;
     storage := storage w; clock := c; entropy := entropy w;
     console := console w |}.
Definition set_entropy (e : list N) (w : World) : World :=
  {| table := table w; next_id := next_id w; outages := outages w;
     storage := storage w; clock := clock w; entropy := e;
     console := console w |}.
Definition set_console (c : list string) (w : World) : World :=
  {| table := table w; next_id := next_id w; outages := outages w;
     storage := storage w; clock := clock w; entropy := entropy w;
     console := c |}.

(* ================================================================== *)
(** ** Effects: state and exceptions *)
(* ================================================================== *)

Inductive Error := StoreUnavailable.

Inductive Outcome (A : Type) :=
| Returned (a : A)
| Thrown (e : Error).
Arguments Returned {A} a.
Arguments Thrown {A} e.

(** An [async] function of the source: it runs on a world and either
    returns or throws, leaving the world it reached. *)
Definition M (A : Type) := World -> Outcome A * World.

Definition ret {A} (a : A) : M A := fun w => (Returned a, w).

Definition bind {A B} (m : M A) (k : A -> M B) : M B := fun w =>
  match m w with
  | (Returned a, w') => k a w'
  | (Thrown e, w') => (Thrown e, w')
  end.

(** [try { body } catch (error) { handler }] *)
Definition try_catch {A} (body : M A) (handler : Error -> M A) : M A :=
  fun w =>
    match body w with
    | (Returned a, w') => (Returned a, w')
    | (Thrown e, w') => handler e w'
    end.

Declare Scope js_scope.
Delimit Scope js_scope with js.
Notation "x <- m ;; k" := (bind m (fun x => k))
  (at level 61, m at next level, right associativity) : js_scope.
Notation "m ;; k" := (bind m (fun _ => k))
  (at level 61, right associativity) : js_scope.
Open Scope js_scope.

(** [a || b] where [a] is a possibly-undefined string: [a] when it is a
    non-empty string, else whatever [b] evaluates to. *)
Definition or_else (a : option jsstring) (b : M (option jsstring))
  : M (option jsstring) :=
  match a with
  | Some s => if JS.truthy s then ret (Some s) else b
  | None => b
  end.

(** [for (const x of xs) { body }] *)
Fixpoint for_of {A} (xs : list A) (body : A -> M unit) : M unit :=
  match xs with
  | [] => ret tt
  | x :: rest => body x ;; for_of rest body
  end.

(* ================================================================== *)
(** ** Collaborators *)
(* ================================================================== *)

(** *** The ORM over the remote [admin_session] table *)

(** The remote store can fail any call.  [outages] schedules its
    failures: an entry [n] means the next [n] calls are answered and the
    call after them fails; the empty schedule means it never fails
    again. *)
Definition next_fails (o : list nat) : bool :=
  match o with
  | O :: _ => true
  | _ => false
  end.

Definition after_call (o : list nat) : list nat :=
  match o with
  | [] => []
  | O :: later => later
  | S n :: later => n :: later
  end.

(** The world once the store has taken one more call. *)
Definition advance (w : World) : World :=
  set_outages (after_call (outages w)) w.

(** Modelled from the spec: the ORM class [AdminSessionORM]
    (sdk/database/orm/orm_admin_session) is not among the sources.  Its
    operations are the spec's SessionStore; "all operations may fail with
    a generic store error".  One call to it either throws, leaving the
    table as it was, or gives its answer. *)
Definition store_call {A} (answer : World -> A * World) : M A := fun w =>
  if next_fails (outages w) then (Thrown StoreUnavailable, advance w)
  else let (a, w') := answer (advance w) in (Returned a, w').

Definition has_user_id (uid : jsstring) (r : AdminSession) : bool :=
  JS.eqb (user_id r) uid.
Definition has_token (tok : jsstring) (r : AdminSession) : bool :=
  JS.eqb (session_token r) tok.
Definition has_id (i : Id) (r : AdminSession) : bool :=
  Nat.eqb (id r) i.

(** Modelled from the spec: SessionStore [getAll() -> records]. *)
Definition getAllAdminSession : M (list AdminSession) :=
  store_call (fun w => (table w, w)).

(** Modelled from the spec: SessionStore [getByUserId(id) -> records]. *)
Definition getAdminSessionByUserId (uid : jsstring) : M (list AdminSession) :=
  store_call (fun w => (filter (has_user_id uid) (table w), w)).

(** Modelled from the spec: SessionStore [getByToken(token) -> records]. *)
Definition getAdminSessionBySessionToken (tok : jsstring)
  : M (list AdminSession) :=
  store_call (fun w => (filter (has_token tok) (table w), w)).

(** Modelled from the spec: SessionStore [deleteById(id) -> void]. *)
Definition deleteAdminSessionById (i : Id) : M unit :=
  store_call (fun w =>
    (tt, set_table (filter (fun r => negb (has_id i r)) (table w)) w)).

(** Modelled from the spec: SessionStore [deleteByToken(token) -> void]. *)
Definition deleteAdminSessionBySessionToken (tok : jsstring) : M unit :=
  store_call (fun w =>
    (tt, set_table (filter (fun r => negb (has_token tok r)) (table w)) w)).

Definition with_id (i : Id) (r : AdminSession) : AdminSession :=
  {| id := i; data_creator := data_creator r;
     data_updater := data_updater r; create_time := create_time r;
     update_time := update_time r; session_token := session_token r;
     expires_at := expires_at r; user_id := user_id r |}.

(** Modelled from the spec: SessionStore [insert(record) ->
    record-with-id], ids being server-assigned: each row is stored at the
    end of the table under the next id.  The bookkeeping fields are the
    server's to fill and are never read by this module; the model keeps
    what the client sent. *)
Fixpoint insert_rows (rows : list AdminSession) (w : World)
  : list AdminSession * World :=
  match rows with
  | [] => ([], w)
  | r :: rest =>
      let stored := with_id (next_id w) r in
      let (more, w') :=
        insert_rows rest
          (set_next_id (S (next_id w)) (set_table (table w ++ [stored]) w)) in
      (stored :: more, w')
  end.

Definition insertAdminSession (rows : list AdminSession)
  : M (list AdminSession) :=
  store_call (insert_rows rows).

(** *** [localStorage] *)

Definition drop_key (key : jsstring) (s : list (jsstring * jsstring)) :=
  filter (fun kv => negb (JS.eqb (fst kv) key)) s.

Definition lookup_key (key : jsstring) (s : list (jsstring * jsstring))
  : option jsstring :=
  option_map snd (find (fun kv => JS.eqb (fst kv) key) s).

Definition localStorage_getItem (key : jsstring) : M (option jsstring) :=
  fun w => (Returned (lookup_key key (storage w)), w).

Definition localStorage_setItem (key value : jsstring) : M unit :=
  fun w => (Returned tt,
            set_storage ((key, value) :: drop_key key (storage w)) w).

Definition localStorage_removeItem (key : jsstring) : M unit :=
  fun w => (Returned tt, set_storage (drop_key key (storage w)) w).

(** *** [Date.now()], [crypto.getRandomValues], [console.error] *)

Definition Date_now : M Z := fun w => (Returned (clock w), w).

(** [Math.floor(ms / 1000)] for an integral number of milliseconds. *)
Definition floor_seconds (ms : Z) : Z := Z.div ms 1000.

(** Fills a [Uint8Array] of [n] bytes from the world's random source
    (zeros once it is exhausted). *)
Definition random_bytes (n : nat) (source : list N) : list N :=
  map (fun b => N.modulo b 256) (firstn n (source ++ repeat 0%N n)).

Definition crypto_getRandomValues (n : nat) : M (list N) := fun w =>
  (Returned (random_bytes n (entropy w)),
   set_entropy (skipn n (entropy w)) w).

Definition console_error (msg : string) : M unit := fun w =>
  (Returned tt, set_console (msg :: console w) w).

(* ================================================================== *)
(** ** The admin-auth module (src/routes/index.tsx, lines 1101-1383) *)
(* ================================================================== *)

Definition SESSION_DURATION_MS : Z := 24 * 60 * 60 * 1000.
Definition SESSION_TOKEN_KEY : jsstring := JS.lit "admin_session_token".
Definition PASSWORD_HASH_USER_ID : jsstring := JS.lit "__password_hash__".

(** Generate a cryptographically secure random token. *)
Definition generateSessionToken : M jsstring :=
  array <- crypto_getRandomValues 32 ;;
  ret (JS.hex_of_bytes array).

(** Hash a password using SHA-256. *)
Definition hashPassword (password : jsstring) : jsstring :=
  let data := JS.utf8_encode password in
  let hashBuffer := SHA256.digest data in
  JS.hex_of_bytes hashBuffer.

(** Get the stored password hash from the database. *)
Definition getStoredPasswordHash : M (option jsstring) :=
  try_catch
    (sessions <- getAdminSessionByUserId PASSWORD_HASH_USER_ID ;;
     match sessions with
     | first :: _ => ret (Some (session_token first))
     | [] => ret None
     end)
    (fun error =>
       console_error "Failed to get stored password hash:" ;;
       ret None).

(** Store the password hash in the database. *)
Definition storePasswordHash (hash : jsstring) : M bool :=
  try_catch
    (existing <- getAdminSessionByUserId PASSWORD_HASH_USER_ID ;;
     for_of existing (fun session =>
       deleteAdminSessionById (id session)) ;;
     insertAdminSession
       [ {| id := no_id;
            data_creator := [];
            data_updater := [];
            create_time := [];
            update_time := [];
            session_token := hash;
            expires_at := JS.lit "0";
            user_id := PASSWORD_HASH_USER_ID |} ] ;;
     ret true)
    (fun error =>
       console_error "Failed to store password hash:" ;;
       ret false).

(** Check if admin password has been set. *)
Definition isPasswordSet : M bool :=
  hash <- getStoredPasswordHash ;;
  ret (match hash with Some _ => true | None => false end).

(** Logout - invalidate current session. *)
Definition logoutAdmin : M unit :=
  token <- localStorage_getItem SESSION_TOKEN_KEY ;;
  match token with
  | Some token =>
      if JS.truthy token then
        try_catch
          (deleteAdminSessionBySessionToken token)
          (fun error => console_error "Failed to delete session:")
      else ret tt
  | None => ret tt
  end ;;
  localStorage_removeItem SESSION_TOKEN_KEY.

(** Reset admin password - clears the stored hash. *)
Definition resetAdminPassword : M bool :=
  try_catch
    (existing <- getAdminSessionByUserId PASSWORD_HASH_USER_ID ;;
     for_of existing (fun session =>
       deleteAdminSessionById (id session)) ;;
     logoutAdmin ;;
     ret true)
    (fun error =>
       console_error "Failed to reset admin password:" ;;
       ret false).

(** The second half of [authenticateAdmin] (lines 1246-1284), reached
    once the password is valid or has just been set: create a session. *)
Definition createAdminSession : M (option jsstring) :=
  sessionToken <- generateSessionToken ;;
  now <- Date_now ;;
  let expiresAt :=
    JS.Number_toString (floor_seconds (now + SESSION_DURATION_MS)) in
  try_catch
    (existingSessions <- getAllAdminSession ;;
     for_of existingSessions (fun session =>
       if negb (JS.eqb (user_id session) PASSWORD_HASH_USER_ID)
       then deleteAdminSessionById (id session)
       else ret tt) ;;
     insertAdminSession
       [ {| id := no_id;
            data_creator := [];
            data_updater := [];
            create_time := [];
            update_time := [];
            session_token := sessionToken;
            expires_at := expiresAt;
            user_id := JS.lit "admin" |} ] ;;
     localStorage_setItem SESSION_TOKEN_KEY sessionToken ;;
     ret (Some sessionToken))
    (fun error =>
       console_error "Failed to create admin session:" ;;
       ret None).

(** Authenticate admin with password: the session token on success,
    [None] (null) on failure. *)
Definition authenticateAdmin (password : jsstring) : M (option jsstring) :=
  if negb (JS.truthy password) || JS.eqb (JS.trim password) []
  then ret None
  else
    let passwordHash := hashPassword password in
    storedHash <- getStoredPasswordHash ;;
    match storedHash with
    | None =>
        (* First-time setup: store the password hash *)
        stored <- storePasswordHash passwordHash ;;
        if negb stored then ret None else createAdminSession
    | Some storedHash =>
        (* Validate against stored hash *)
        if negb (JS.eqb passwordHash storedHash) then ret None
        else createAdminSession
    end.

(** Validate an existing session token; [sessionToken] is the optional
    argument. *)
Definition validateSession (sessionToken : option jsstring) : M bool :=
  token <- or_else sessionToken (localStorage_getItem SESSION_TOKEN_KEY) ;;
  match token with
  | None => ret false
  | Some token =>
      if negb (JS.truthy token) then ret false
      else
        try_catch
          (sessions <- getAdminSessionBySessionToken token ;;
           match sessions with
           | [] =>
               localStorage_removeItem SESSION_TOKEN_KEY ;;
               ret false
           | session :: _ =>
               if JS.eqb (user_id session) PASSWORD_HASH_USER_ID then
                 localStorage_removeItem SESSION_TOKEN_KEY ;;
                 ret false
               else
                 ms <- Date_now ;;
                 let now := floor_seconds ms in
                 let expiresAt := JS.parseInt (expires_at session) in
                 if JS.gt_number now expiresAt then
                   deleteAdminSessionById (id session) ;;
                   localStorage_removeItem SESSION_TOKEN_KEY ;;
                   ret false
                 else ret true
           end)
          (fun error =>
             console_error "Session validation failed:" ;;
             ret false)
  end.

(** Get the current session token from localStorage. *)
Definition getSessionToken : M (option jsstring) :=
  localStorage_getItem SESSION_TOKEN_KEY.

(** Clean up expired sessions (maintenance function). *)
Definition cleanupExpiredSessions : M unit :=
  try_catch
    (allSessions <- getAllAdminSession ;;
     ms <- Date_now ;;
     let now := floor_seconds ms in
     for_of allSessions (fun session =>
       if JS.eqb (user_id session) PASSWORD_HASH_USER_ID then ret tt
       else
         let expiresAt := JS.parseInt (expires_at session) in
         if JS.gt_number now expiresAt
         then deleteAdminSessionById (id session)
         else ret tt))
    (fun error => console_error "Failed to cleanup expired sessions:").

(* ------------------------------------------------------------------ *)
(** *** Running the module on small worlds *)

Definition empty_world : World :=
  {| table := []; next_id := 1; outages := []; storage := [];
     clock := 1700000000000; entropy := []; console := [] |}.

(** The world an operation leaves. *)
Definition after {A} (m : M A) (w : World) : World := snd (m w).

(** Predicates used to state the properties. *)

Definition is_password_hash_record (r : AdminSession) : bool :=
  JS.eqb (user_id r) PASSWORD_HASH_USER_ID.

(** The primary key is unique. *)
Definition unique_ids (t : list AdminSession) : Prop := NoDup (map id t).

(** The value of the session-token slot of localStorage. *)
Definition local_slot (w : World) : option jsstring :=
  lookup_key SESSION_TOKEN_KEY (storage w).

(** The store answers its next call. *)
Definition next_call_answered (w : World) : bool :=
  negb (next_fails (outages w)).

(** What a loop of deletions leaves alone: everything on the client's
    side, and the server's next id. *)
Definition same_client (w w' : World) : Prop :=
  next_id w' = next_id w /\ storage w' = storage w /\
  clock w' = clock w /\ entropy w' = entropy w.

(** Rows left after deleting by each of the ids [ids]. *)
Definition remove_ids (ids : list Id) (t : list AdminSession)
  : list AdminSession :=
  filter (fun r => negb (existsb (Nat.eqb (id r)) ids)) t.

(** A row the sweep and the validation treat as expired at [now]
    (seconds). *)
Definition expired_at (now : Z) (r : AdminSession) : bool :=
  negb (is_password_hash_record r) &&
  JS.gt_number now (JS.parseInt (expires_at r)).

(** The hash [getStoredPasswordHash] finds in a table: the token field
    of the first password-hash row. *)
Definition stored_hash (t : list AdminSession) : option jsstring :=
  match filter (has_user_id PASSWORD_HASH_USER_ID) t with
  | first :: _ => Some (session_token first)
  | [] => None
  end.

(** The rows the module inserts, as the server stores them under id [i]. *)
Definition password_hash_row (i : Id) (hash : jsstring) : AdminSession :=
  {| id := i; data_creator := []; data_updater := []; create_time := [];
     update_time := []; session_token := hash; expires_at := JS.lit "0";
     user_id := PASSWORD_HASH_USER_ID |}.

Definition admin_session_row (i : Id) (token expires : jsstring)
  : AdminSession :=
  {| id := i; data_creator := []; data_updater := []; create_time := [];
     update_time := []; session_token := token; expires_at := expires;
     user_id := JS.lit "admin" |}.

(** The expiry [authenticateAdmin] writes at clock [ms]. *)
Definition expiry_at (ms : Z) : jsstring :=
  JS.Number_toString (floor_seconds (ms + SESSION_DURATION_MS)).

(** The password test at the head of [authenticateAdmin]:
    [!password || password.trim() === ""]. *)
Definition is_blank (password : jsstring) : bool :=
  negb (JS.truthy password) || JS.eqb (JS.trim password) [].

(** The rows that are not the password-hash record. *)
Definition real_sessions (t : list AdminSession) : list AdminSession :=
  filter (fun r => negb (is_password_hash_record r)) t.

(** The token [validateSession] checks: its argument when that is a
    non-empty string, else the session-token slot. *)
Definition effective_token (sessionToken : option jsstring) (w : World)
  : option jsstring :=
  match sessionToken with
  | Some s => if JS.truthy s then Some s else local_slot w
  | None => local_slot w
  end.

(** The token the next [generateSessionToken] will produce. *)
Definition fresh_token (w : World) : jsstring :=
  JS.hex_of_bytes (random_bytes 32 (entropy w)).

(** The world with the session-token slot removed from localStorage. *)
Definition clear_slot (w : World) : World :=
  set_storage (drop_key SESSION_TOKEN_KEY (storage w)) w.

(** A password that is empty or made of white space only. *)
Definition all_whitespace (password : jsstring) : bool :=
  forallb JS.is_whitespace password.

(** The row carries the token held in the session-token slot. *)
Definition holds_slot_token (w : World) (r : AdminSession) : bool :=
  match local_slot w with
  | Some token => JS.truthy token && has_token token r
  | None => false
  end.

(** Every id in the table was handed out by the server already. *)
Definition fresh_ids (w : World) : Prop :=
  forall r, In r (table w) -> id r < next_id w.

(** A browser logged in on a store whose admin password is "secret". *)
Definition secret_world : World :=
  after (authenticateAdmin (JS.lit "secret")) empty_world.

(** The token of that browser's session, and the stored hash. *)
Definition secret_token : jsstring := fresh_token empty_world.
Definition secret_hash : jsstring := hashPassword (JS.lit "secret").

(** The same store two days later, seen from another browser. *)
Definition two_days_later : World :=
  set_storage [] (set_clock (clock secret_world + 2 * SESSION_DURATION_MS)
                            secret_world).

(** The same store when a second login draws other random bytes. *)
Definition second_login_world : World := set_entropy [1%N] secret_world.

(** A table with a password hash, an expired session, a live one and one
    whose expiry does not parse. *)
Definition sweep_world : World :=
  {| table :=
       [ password_hash_row 1 secret_hash;
         admin_session_row 2 (JS.lit "aa") (JS.lit "1600000000");
         admin_session_row 3 (JS.lit "bb") (JS.lit "1800000000");
         admin_session_row 4 (JS.lit "cc") (JS.lit "never") ];
     next_id := 5; outages := []; storage := [];
     clock := 1700000000000; entropy := []; console := [] |}.

(** Two browsers logged in on one store: this one holds the token "aa",
    another one the token "bb". *)
Definition two_browsers : World :=
  {| table :=
       [ password_hash_row 1 (JS.lit "c0ffee");
         admin_session_row 2 (JS.lit "aa") (JS.lit "1800000000");
         admin_session_row 3 (JS.lit "bb") (JS.lit "1800000000") ];
     next_id := 4; outages := [];
     storage := [(SESSION_TOKEN_KEY, JS.lit "aa")];
     clock := 1700000000000; entropy := []; console := [] |}.

(** The table is a well-formed server table. *)
Definition store_ok (w : World) : Prop :=
  unique_ids (table w) /\ fresh_ids w.

(** [m] keeps the table well formed, whether it returns or throws. *)
Definition preserves_store {A} (m : M A) : Prop :=
  forall w, store_ok w -> store_ok (snd (m w)).

(** [m] never throws. *)
Definition never_throws {A} (m : M A) : Prop :=
  forall w, exists a w', m w = (Returned a, w').

(* ================================================================== *)
(** ** SEO settings (src/lib/seo-settings.ts) *)
(* ================================================================== *)

Module Seo.

Record SEOSettings := {
  siteTitle : jsstring;
  metaDescription : jsstring;
  ogTitle : jsstring;
  ogDescription : jsstring;
  ogImageUrl : jsstring;
  canonicalUrl : jsstring;
  twitterHandle : jsstring
}.

(** A row of the [seo_setting] table (the ORM's [SeoSettingModel], whose
    declaration is not among the sources).  The content fields are read
    through [||], which treats null and the empty string alike, so they
    are taken as nullable; the bookkeeping fields are strings. *)
Record SeoSettingModel := {
  id : jsstring;
  data_creator : jsstring;
  data_updater : jsstring;
  create_time : jsstring;
  update_time : jsstring;
  setting_key : jsstring;
  site_title : option jsstring;
  meta_description : option jsstring;
  og_title : option jsstring;
  og_description : option jsstring;
  og_image_url : option jsstring;
  canonical_url : option jsstring;
  twitter_handle : option jsstring
}.

Definition SEO_SETTINGS_KEY : jsstring := JS.lit "__seo_settings__".

Definition DEFAULT_SEO_SETTINGS : SEOSettings :=
  {| siteTitle :=
       JS.lit "Designed Not To Fail | UK Petition to Prevent Damp, Mould & Heat Loss";
     metaDescription :=
       JS.lit "Join the UK petition to prevent avoidable damp, mould, ventilation failure and heat loss. Add your signature, share evidence, and help drive safer, healthier homes.";
     ogTitle :=
       JS.lit "Designed Not To Fail | UK Petition to Prevent Damp, Mould & Heat Loss";
     ogDescription :=
       JS.lit "Join the UK petition to prevent avoidable damp, mould, ventilation failure and heat loss. Add your signature, share evidence, and help drive safer, healthier homes.";
     ogImageUrl := [];
     canonicalUrl := JS.lit "https://designednottofail.co.uk";
     twitterHandle := [] |}.

(** [a || b] for a nullable string [a] and a string [b]. *)
Definition or_default (a : option jsstring) (b : jsstring) : jsstring :=
  match a with
  | Some s => if JS.truthy s then s else b
  | None => b
  end.

(** [a || null] for a string [a]. *)
Definition or_null (a : jsstring) : option jsstring :=
  if JS.truthy a then Some a else None.

(** The remote store is whatever the ORM keeps ([Store]); the console is
    the browser's.  An operation runs on both and returns or throws. *)
Definition SM (Store A : Type) : Type :=
  Store * list string -> Outcome A * (Store * list string).

(** The three methods of [SeoSettingORM] the module calls.  The class
    is not among the sources: nothing is assumed of its methods but
    that each runs on the store and returns or throws.  What the two
    writing methods return is never used. *)
Record SeoSettingORM (Store : Type) := {
  getSeoSettingBySettingKey :
    jsstring -> Store -> Outcome (list SeoSettingModel) * Store;
  setSeoSettingBySettingKey :
    jsstring -> SeoSettingModel -> Store -> Outcome unit * Store;
  insertSeoSetting :
    list SeoSettingModel -> Store -> Outcome unit * Store
}.
Arguments getSeoSettingBySettingKey {Store} _ _ _.
Arguments setSeoSettingBySettingKey {Store} _ _ _ _.
Arguments insertSeoSetting {Store} _ _ _.

Section Effects.

Context {Store : Type}.

Definition ret {A} (a : A) : SM Store A := fun st => (Returned a, st).

Definition bind {A B} (m : SM Store A) (k : A -> SM Store B) : SM Store B :=
  fun st =>
    match m st with
    | (Returned a, st') => k a st'
    | (Thrown e, st') => (Thrown e, st')
    end.

Definition try_catch {A} (body : SM Store A) (handler : Error -> SM Store A)
  : SM Store A :=
  fun st =>
    match body st with
    | (Returned a, st') => (Returned a, st')
    | (Thrown e, st') => handler e st'
    end.

(** A call to the ORM: it runs on the store and leaves the console. *)
Definition call {A} (op : Store -> Outcome A * Store) : SM Store A :=
  fun st => let (o, store') := op (fst st) in (o, (store', snd st)).

Definition console_error (msg : string) : SM Store unit :=
  fun st => (Returned tt, (fst st, msg :: snd st)).

Definition getSEOSettings (orm : SeoSettingORM Store) : SM Store SEOSettings :=
  try_catch
    (bind (call (getSeoSettingBySettingKey orm SEO_SETTINGS_KEY))
       (fun results =>
          match results with
          | record :: _ =>
              ret {| siteTitle :=
                       or_default (site_title record)
                                  (siteTitle DEFAULT_SEO_SETTINGS);
                     metaDescription :=
                       or_default (meta_description record)
                                  (metaDescription DEFAULT_SEO_SETTINGS);
                     ogTitle :=
                       or_default (og_title record)
                                  (ogTitle DEFAULT_SEO_SETTINGS);
                     ogDescription :=
                       or_default (og_description record)
                                  (ogDescription DEFAULT_SEO_SETTINGS);
                     ogImageUrl :=
                       or_default (og_image_url record)
                                  (ogImageUrl DEFAULT_SEO_SETTINGS);
                     canonicalUrl :=
                       or_default (canonical_url record)
                                  (canonicalUrl DEFAULT_SEO_SETTINGS);
                     twitterHandle :=
                       or_default (twitter_handle record)
                                  (twitterHandle DEFAULT_SEO_SETTINGS) |}
          | [] => ret DEFAULT_SEO_SETTINGS
          end))
    (fun error =>
       bind (console_error "Failed to load SEO settings:")
            (fun _ => ret DEFAULT_SEO_SETTINGS)).

(** The record [saveSEOSettings] builds ([const data]). *)
Definition data_to_save (existing : list SeoSettingModel)
  (settings : SEOSettings) : SeoSettingModel :=
  {| id := match existing with first :: _ => id first | [] => [] end;
     data_creator :=
       match existing with first :: _ => data_creator first | [] => [] end;
     data_updater := [];
     create_time :=
       match existing with first :: _ => create_time first | [] => [] end;
     update_time := [];
     setting_key := SEO_SETTINGS_KEY;
     site_title := Some (siteTitle settings);
     meta_description := Some (metaDescription settings);
     og_title := Some (ogTitle settings);
     og_description := Some (ogDescription settings);
     og_image_url := Some (ogImageUrl settings);
     canonical_url := Some (canonicalUrl settings);
     twitter_handle := or_null (twitterHandle settings) |}.

Definition saveSEOSettings (orm : SeoSettingORM Store) (settings : SEOSettings)
  : SM Store bool :=
  try_catch
    (bind (call (getSeoSettingBySettingKey orm SEO_SETTINGS_KEY))
       (fun existing =>
          let data := data_to_save existing settings in
          bind (match existing with
                | _ :: _ =>
                    call (setSeoSettingBySettingKey orm SEO_SETTINGS_KEY data)
                | [] => call (insertSeoSetting orm [data])
                end)
               (fun _ => ret true)))
    (fun error =>
       bind (console_error "Failed to save SEO settings:")
            (fun _ => ret false)).

End Effects.

(** What [getSEOSettings] makes of settings that were saved: the fields
    that cannot be empty fall back to their defaults. *)
Definition with_defaults (s : SEOSettings) : SEOSettings :=
  {| siteTitle :=
       if JS.truthy (siteTitle s) then siteTitle s
       else siteTitle DEFAULT_SEO_SETTINGS;
     metaDescription :=
       if JS.truthy (metaDescription s) then metaDescription s
       else metaDescription DEFAULT_SEO_SETTINGS;
     ogTitle :=
       if JS.truthy (ogTitle s) then ogTitle s
       else ogTitle DEFAULT_SEO_SETTINGS;
     ogDescription :=
       if JS.truthy (ogDescription s) then ogDescription s
       else ogDescription DEFAULT_SEO_SETTINGS;
     ogImageUrl := ogImageUrl s;
     canonicalUrl :=
       if JS.truthy (canonicalUrl s) then canonicalUrl s
       else canonicalUrl DEFAULT_SEO_SETTINGS;
     twitterHandle := twitterHandle s |}.

(** The content of a row: its seven settings fields. *)
Definition content (r : SeoSettingModel) :=
  (site_title r, meta_description r, og_title r, og_description r,
   og_image_url r, canonical_url r, twitter_handle r).

(** An ORM that reads back what it wrote: once a record was set or
    inserted under its key, the lookup of that key is answered with a
    record of the same content first. *)
Definition reads_back {Store} (orm : SeoSettingORM Store) : Prop :=
  (forall key data st st',
     setting_key data = key ->
     setSeoSettingBySettingKey orm key data st = (Returned tt, st') ->
     exists r rest st'',
       getSeoSettingBySettingKey orm key st' = (Returned (r :: rest), st'') /\
       content r = content data) /\
  (forall data st st',
     insertSeoSetting orm [data] st = (Returned tt, st') ->
     exists r rest st'',
       getSeoSettingBySettingKey orm (setting_key data) st'
       = (Returned (r :: rest), st'') /\
       content r = content data).

(** The row is filed under [key]. *)
Definition has_key (key : jsstring) (r : SeoSettingModel) : bool :=
  JS.eqb (setting_key r) key.

(** A store kept as a list of rows, for trying the module out: lookups
    filter by key, a set replaces the rows of the key (and fails when
    there is none), an insert puts the new rows first. *)
Definition list_orm : SeoSettingORM (list SeoSettingModel) :=
  {| getSeoSettingBySettingKey := fun key rows =>
       (Returned (filter (has_key key) rows), rows);
     setSeoSettingBySettingKey := fun key data rows =>
       if existsb (has_key key) rows
       then (Returned tt,
             map (fun r => if has_key key r then data else r) rows)
       else (Thrown StoreUnavailable, rows);
     insertSeoSetting := fun new rows => (Returned tt, new ++ rows) |}.

(** An ORM whose every call fails. *)
Definition failing_orm : SeoSettingORM unit :=
  {| getSeoSettingBySettingKey := fun _ st => (Thrown StoreUnavailable, st);
     setSeoSettingBySettingKey := fun _ _ st => (Thrown StoreUnavailable, st);
     insertSeoSetting := fun _ st => (Thrown StoreUnavailable, st) |}.

(** Settings an administrator might save: the description is left
    empty. *)
Definition campaign_settings : SEOSettings :=
  {| siteTitle := JS.lit "Warm homes";
     metaDescription := [];
     ogTitle := JS.lit "Warm homes";
     ogDescription := JS.lit "Sign the petition";
     ogImageUrl := [];
     canonicalUrl := JS.lit "https://example.org";
     twitterHandle := JS.lit "@warmhomes" |}.

End Seo.

(* ================================================================== *)
(** ** The SEO context (src/contexts/SEOContext.tsx) *)
(* ================================================================== *)

Module SeoContext.

Import Seo.

(** The provider's two pieces of React state. *)
Record ContextState := {
  settings : SEOSettings;
  isLoading : bool
}.

Definition setSettings (s : SEOSettings) (ui : ContextState) : ContextState :=
  {| settings := s; isLoading := isLoading ui |}.

Definition setIsLoading (b : bool) (ui : ContextState) : ContextState :=
  {| settings := settings ui; isLoading := b |}.

(** The provider's first state. *)
Definition initial : ContextState :=
  {| settings := DEFAULT_SEO_SETTINGS; isLoading := true |}.

Section Callbacks.

Context {Store : Type}.

(** [refreshSettings]: the state it is called in, to the state it
    leaves. *)
Definition refreshSettings (orm : SeoSettingORM Store) (ui : ContextState)
  : SM Store ContextState :=
  let ui := setIsLoading true ui in
  bind (try_catch
          (bind (getSEOSettings orm)
                (fun loaded => ret (setSettings loaded ui)))
          (fun error =>
             bind (console_error "Failed to refresh SEO settings:")
                  (fun _ => ret ui)))
       (fun ui => ret (setIsLoading false ui)).

(** [updateSettings]: its result and the state it leaves. *)
Definition updateSettings (orm : SeoSettingORM Store)
  (newSettings : SEOSettings) (ui : ContextState)
  : SM Store (bool * ContextState) :=
  bind (saveSEOSettings orm newSettings)
       (fun success =>
          if success then ret (success, setSettings newSettings ui)
          else ret (success, ui)).

End Callbacks.

(** None of the five fields that fall back to a default is empty. *)
Definition complete (s : SEOSettings) : bool :=
  JS.truthy (siteTitle s) && JS.truthy (metaDescription s) &&
  JS.truthy (ogTitle s) && JS.truthy (ogDescription s) &&
  JS.truthy (canonicalUrl s).

End SeoContext.

(* ================================================================== *)
(** ** The petition form's postcode pattern (src/routes/index.tsx) *)
(* ================================================================== *)

Module RegExp.

(** The regular expressions the module writes: characters, classes of
    ranges, sequence, alternative, [?], [{lo,hi}] and the assertions
    [^] and [$]. *)
Inductive pattern : Type :=
| Char (c : JS.char16)
| Class (ranges : list (JS.char16 * JS.char16))
| Seq (p q : pattern)
| Alt (p q : pattern)
| Opt (p : pattern)
| Rep (lo hi : nat) (p : pattern)
| Bol
| Eol.

(** A regular expression literal: its pattern and its [i] flag (the
    module sets no other flag). *)
Record regexp := { source : pattern; ignoreCase : bool }.

Definition in_range (lo hi c : JS.char16) : bool :=
  ((lo <=? c) && (c <=? hi))%N.

Definition to_upper (c : JS.char16) : JS.char16 :=
  if in_range 97%N 122%N c then (c - 32)%N else c.

Definition to_lower (c : JS.char16) : JS.char16 :=
  if in_range 65%N 90%N c then (c + 32)%N else c.

(** Whether [c] is in the range.  Under the [i] flag a code unit is in the
    range when the range has a member with the same canonical form; for
    the ASCII ranges the module writes, the candidates are [c] and its
    two cases (without the [u] flag no code unit from 128 on has the
    canonical form of an ASCII one). *)
Definition in_one (i : bool) (lo hi c : JS.char16) : bool :=
  in_range lo hi c ||
  i && (in_range lo hi (to_upper c) || in_range lo hi (to_lower c)).

(** Whether [c] is in the class: in one of its ranges. *)
Definition in_class (i : bool) (ranges : list (JS.char16 * JS.char16))
  (c : JS.char16) : bool :=
  existsb (fun '(lo, hi) => in_one i lo hi c) ranges.

(** A continuation: what is left to match, from an index of the input
    and the input's rest there. *)
Definition cont : Type := nat -> jsstring -> bool.

Definition one (test : JS.char16 -> bool) (k : cont) : cont :=
  fun n s =>
    match s with
    | c :: s' => test c && k (S n) s'
    | [] => false
    end.

Fixpoint exactly (step : cont -> cont) (times : nat) (k : cont) : cont :=
  match times with
  | O => k
  | S times' => step (exactly step times' k)
  end.

Fixpoint at_most (step : cont -> cont) (times : nat) (k : cont) : cont :=
  match times with
  | O => k
  | S times' => fun n s => step (at_most step times' k) n s || k n s
  end.

(** The backtracking matcher: [matcher i p k n s] is whether [p]
    matches at index [n], where the input's rest is [s], in a way that
    [k] accepts what follows. *)
Fixpoint matcher (i : bool) (p : pattern) (k : cont) : cont :=
  match p with
  | Char c => one (in_class i [(c, c)]) k
  | Class ranges => one (in_class i ranges) k
  | Seq p1 p2 => matcher i p1 (matcher i p2 k)
  | Alt p1 p2 => fun n s => matcher i p1 k n s || matcher i p2 k n s
  | Opt p1 => fun n s => matcher i p1 k n s || k n s
  | Rep lo hi p1 =>
      exactly (matcher i p1) lo (at_most (matcher i p1) (hi - lo) k)
  | Bol => fun n s => Nat.eqb n 0 && k n s
  | Eol => fun n s => match s with [] => k n s | _ :: _ => false end
  end.

(** The search [test] makes: a match at the index, or further on. *)
Fixpoint search (re : regexp) (n : nat) (s : jsstring) : bool :=
  matcher (ignoreCase re) (source re) (fun _ _ => true) n s ||
  match s with
  | [] => false
  | _ :: s' => search re (S n) s'
  end.

(** [re.test(s)] for an expression without the [g] and [y] flags. *)
Definition test (re : regexp) (s : jsstring) : bool := search re 0 s.

(** *** What a pattern matches, declaratively *)

(** [power P times n s rest]: [s] is [times] pieces in a row, each in
    [P] at its index and before what follows it. *)
Fixpoint power (P : nat -> jsstring -> jsstring -> Prop) (times : nat)
  (n : nat) (s rest : jsstring) : Prop :=
  match times with
  | O => s = []
  | S times' =>
      exists s1 s2,
        s = s1 ++ s2 /\ P n s1 (s2 ++ rest) /\
        power P times' (n + length s1) s2 rest
  end.

(** [matches i p n s rest]: [p] matches the piece [s] that starts at
    index [n] and is followed by [rest]. *)
Fixpoint matches (i : bool) (p : pattern) (n : nat) (s rest : jsstring)
  : Prop :=
  match p with
  | Char c => exists x, s = [x] /\ in_class i [(c, c)] x = true
  | Class ranges => exists x, s = [x] /\ in_class i ranges x = true
  | Seq p1 p2 =>
      exists s1 s2,
        s = s1 ++ s2 /\ matches i p1 n s1 (s2 ++ rest) /\
        matches i p2 (n + length s1) s2 rest
  | Alt p1 p2 => matches i p1 n s rest \/ matches i p2 n s rest
  | Opt p1 => matches i p1 n s rest \/ s = []
  | Rep lo hi p1 =>
      exists times,
        lo <= times <= lo + (hi - lo) /\ power (matches i p1) times n s rest
  | Bol => s = [] /\ n = 0
  | Eol => s = [] /\ rest = []
  end.

(** A step of the matcher that decides [P]. *)
Definition decides (step : cont -> cont)
  (P : nat -> jsstring -> jsstring -> Prop) : Prop :=
  forall k n s,
    step k n s = true <->
    exists s1 s2, s = s1 ++ s2 /\ P n s1 s2 /\ k (n + length s1) s2 = true.

(** Two continuations that agree across a mapping of the code units. *)
Definition agree (fold : JS.char16 -> JS.char16) (k' k : cont) : Prop :=
  forall n s, k' n (map fold s) = k n s.

End RegExp.

Section PostcodePattern.

Import RegExp.

Definition A_Z : JS.char16 * JS.char16 := (65%N, 90%N).
Definition zero_nine : JS.char16 * JS.char16 := (48%N, 57%N).

(** [/^([A-Z]{1,2}[0-9][A-Z0-9]? ?[0-9][A-Z]{2}|GIR ?0AA)$/i]; the
    characters are given by their code units: 32 the space, 48 the
    digit 0, and 71, 73, 82 and 65 the letters G, I, R and A. *)
Definition UK_POSTCODE_REGEX : regexp :=
  {| source :=
       Seq Bol
      (Seq (Alt
              (Seq (Rep 1 2 (Class [A_Z]))
              (Seq (Class [zero_nine])
              (Seq (Opt (Class [A_Z; zero_nine]))
              (Seq (Opt (Char 32%N))
              (Seq (Class [zero_nine])
                   (Rep 2 2 (Class [A_Z])))))))
              (Seq (Char 71%N)
              (Seq (Char 73%N)
              (Seq (Char 82%N)
              (Seq (Opt (Char 32%N))
              (Seq (Char 48%N)
              (Seq (Char 65%N)
                   (Char 65%N))))))))
           Eol);
     ignoreCase := true |}.

End PostcodePattern.

(** The check of the [postcode] field of [petitionFormSchema],
    [z.string().regex(UK_POSTCODE_REGEX, ...)]: the string passes when
    [UK_POSTCODE_REGEX.test] accepts it. *)
Definition postcode_ok (postcode : jsstring) : bool :=
  RegExp.test UK_POSTCODE_REGEX postcode.

(** Vocabulary for the postcodes: ASCII letters and digits. *)
Definition is_letter (c : JS.char16) : bool :=
  RegExp.in_range 65%N 90%N c || RegExp.in_range 97%N 122%N c.

Definition is_digit (c : JS.char16) : bool := RegExp.in_range 48%N 57%N c.

Definition is_alnum (c : JS.char16) : bool := is_letter c || is_digit c.

(** Nothing, or one space. *)
Definition optional_space (s : jsstring) : Prop := s = [] \/ s = [32%N].

(** The two forms of an accepted postcode: one or two letters, a digit,
    perhaps one more letter or digit, perhaps a space, then a digit and
    two letters; or the letters of GIR 0AA in either case, with or
    without the space. *)
Definition postcode_form (s : jsstring) : Prop :=
  (exists area district extra space sector unit,
     s = area ++ [district] ++ extra ++ space ++ [sector] ++ unit /\
     1 <= length area <= 2 /\ forallb is_letter area = true /\
     is_digit district = true /\
     length extra <= 1 /\ forallb is_alnum extra = true /\
     optional_space space /\
     is_digit sector = true /\
     length unit = 2 /\ forallb is_letter unit = true) \/
  (exists space,
     map RegExp.to_upper s = JS.lit "GIR" ++ space ++ JS.lit "0AA" /\
     optional_space space).

(** A code unit an accepted postcode can hold: an ASCII letter or digit,
    or the space. *)
Definition is_postcode_char (c : JS.char16) : bool :=
  is_alnum c || N.eqb c 32.

(* ================================================================== *)
(** ** The CSV export of the signatures (src/routes/index.tsx) *)
(* ================================================================== *)

Module Petition.

(** The fields of a signature that the export reads. *)
Record PetitionSignatureModel := {
  id : jsstring;
  name : jsstring;
  email : jsstring;
  postcode : jsstring;
  comment : option jsstring;
  create_time : jsstring
}.

Definition quote : JS.char16 := 34%N.
Definition comma : JS.char16 := 44%N.
Definition newline : JS.char16 := 10%N.

(** The [replace] of every double quote (code unit 34) by two of
    them. *)
Fixpoint replace_quotes (s : jsstring) : jsstring :=
  match s with
  | [] => []
  | c :: s' =>
      if N.eqb c quote then quote :: quote :: replace_quotes s'
      else c :: replace_quotes s'
  end.

(** The template literal that wraps a cell in quotes. *)
Definition quoted (s : jsstring) : jsstring :=
  [quote] ++ replace_quotes s ++ [quote].

(** [parts.join(sep)] for an array of strings *)
Fixpoint join (sep : jsstring) (parts : list jsstring) : jsstring :=
  match parts with
  | [] => []
  | [part] => part
  | part :: rest => part ++ sep ++ join sep rest
  end.

(** [sig.comment], or the empty string when there is none. *)
Definition comment_or_empty (sig : PetitionSignatureModel) : jsstring :=
  match comment sig with
  | Some s => s
  | None => []
  end.

Definition headers : list jsstring :=
  [JS.lit "ID"; JS.lit "Name"; JS.lit "Email"; JS.lit "Postcode";
   JS.lit "Comment"; JS.lit "Date Signed"].

(** One line of the export.  [date_signed] stands for the platform's
    rendering of the date,
    [toLocaleDateString] of the date [parseInt(create_time) * 1000] in
    the en-GB locale, which depends on the browser's time zone. *)
Definition csv_line (date_signed : jsstring -> jsstring)
  (sig : PetitionSignatureModel) : jsstring :=
  join [comma]
    [ id sig;
      quoted (name sig);
      email sig;
      postcode sig;
      quoted (comment_or_empty sig);
      date_signed (create_time sig) ].

(** [csvContent] of [exportToCSV] (the download of the text as a file
    is the browser's). *)
Definition csvContent (date_signed : jsstring -> jsstring)
  (signatures : list PetitionSignatureModel) : jsstring :=
  join [newline]
    (join [comma] headers :: map (csv_line date_signed) signatures).

(** *** A reader of CSV text, to state what the export means *)

(** Where the reader is: at the start of a cell, inside a cell written
    bare, inside a quoted cell, or just after a quote met inside a
    quoted cell. *)
Inductive state : Type := CellStart | Bare | Quoted | QuoteSeen.

(** The reader of RFC 4180, with the line feed as the end of a record:
    [cell], [row] and [rows] hold what was read so far, last first.  A
    quote inside a bare cell, a quoted cell that does not end, and
    anything but a comma, a line feed or a second quote after a closing
    quote are errors. *)
Fixpoint read (st : state) (cell : jsstring) (row : list jsstring)
  (rows : list (list jsstring)) (s : jsstring)
  : option (list (list jsstring)) :=
  match s with
  | [] =>
      match st with
      | Quoted => None
      | _ => Some (rev (rev (rev cell :: row) :: rows))
      end
  | c :: s' =>
      match st with
      | CellStart | Bare =>
          if N.eqb c comma then read CellStart [] (rev cell :: row) rows s'
          else if N.eqb c newline
          then read CellStart [] [] (rev (rev cell :: row) :: rows) s'
          else if N.eqb c quote
          then match st with
               | CellStart => read Quoted [] row rows s'
               | _ => None
               end
          else read Bare (c :: cell) row rows s'
      | Quoted =>
          if N.eqb c quote then read QuoteSeen cell row rows s'
          else read Quoted (c :: cell) row rows s'
      | QuoteSeen =>
          if N.eqb c quote then read Quoted (quote :: cell) row rows s'
          else if N.eqb c comma
          then read CellStart [] (rev cell :: row) rows s'
          else if N.eqb c newline
          then read CellStart [] [] (rev (rev cell :: row) :: rows) s'
          else None
      end
  end.

Definition read_csv (s : jsstring) : option (list (list jsstring)) :=
  read CellStart [] [] [] s.

(** A cell that can be written bare: no comma, quote or line feed. *)
Definition bare (s : jsstring) : bool :=
  forallb (fun c => negb (N.eqb c comma || N.eqb c quote || N.eqb c newline)) s.

(** The six cells of a signature. *)
Definition cells (date_signed : jsstring -> jsstring)
  (sig : PetitionSignatureModel) : list jsstring :=
  [ id sig; name sig; email sig; postcode sig; comment_or_empty sig;
    date_signed (create_time sig) ].

(** The cells of a signature that the export writes bare are bare. *)
Definition bare_cells (date_signed : jsstring -> jsstring)
  (sig : PetitionSignatureModel) : Prop :=
  bare (id sig) = true /\ bare (email sig) = true /\
  bare (postcode sig) = true /\ bare (date_signed (create_time sig)) = true.

(** [text] is a way to write the cell [value]: bare, or quoted. *)
Definition writes (text value : jsstring) : Prop :=
  (text = value /\ bare value = true) \/ text = quoted value.

(** After a written cell, the reader treats what follows as after a
    cell: [after_cell] is what it does there. *)
Definition after_cell (cell : jsstring) (row : list jsstring)
  (rows : list (list jsstring)) (t : jsstring) :=
  match t with
  | [] => Some (rev (rev (cell :: row) :: rows))
  | c :: t' =>
      if N.eqb c comma then read CellStart [] (cell :: row) rows t'
      else if N.eqb c newline
      then read CellStart [] [] (rev (cell :: row) :: rows) t'
      else None
  end.

(** What the reader does at the end of a line of cells. *)
Definition line_end (values : list jsstring) (rows : list (list jsstring))
  (t : jsstring) :=
  match t with
  | [] => Some (rev (values :: rows))
  | c :: t' =>
      if N.eqb c newline then read CellStart [] [] (values :: rows) t'
      else None
  end.

(** [line] is a line of cells that write [values]. *)
Definition writes_line (line : jsstring) (values : list jsstring) : Prop :=
  exists texts,
    line = join [comma] texts /\ texts <> [] /\ Forall2 writes texts values.

End Petition.

(** A signature whose name holds a quote, a comma and a line feed. *)
Definition tricky_signature : Petition.PetitionSignatureModel :=
  {| Petition.id := JS.lit "7";
     Petition.name := [65; 34; 44; 10; 66]%N;
     Petition.email := JS.lit "a@b.org";
     Petition.postcode := JS.lit "M1 1AA";
     Petition.comment := None;
     Petition.create_time := JS.lit "1706745600" |}.

(* ------------------------------------------------------------------ *)
(** *** Further predicates, for the properties beyond the claims *)

(** [localStorage.setItem] can throw (storage full or blocked), and the
    source calls it inside the [try] of [authenticateAdmin], after the
    insert.  The second half of [authenticateAdmin] and the function
    itself, as above, over whatever [setItem] the browser gives. *)
Definition createAdminSession_over (setItem : jsstring -> jsstring -> M unit)
  : M (option jsstring) :=
  sessionToken <- generateSessionToken ;;
  now <- Date_now ;;
  let expiresAt :=
    JS.Number_toString (floor_seconds (now + SESSION_DURATION_MS)) in
  try_catch
    (existingSessions <- getAllAdminSession ;;
     for_of existingSessions (fun session =>
       if negb (JS.eqb (user_id session) PASSWORD_HASH_USER_ID)
       then deleteAdminSessionById (id session)
       else ret tt) ;;
     insertAdminSession
       [ {| id := no_id;
            data_creator := [];
            data_updater := [];
            create_time := [];
            update_time := [];
            session_token := sessionToken;
            expires_at := expiresAt;
            user_id := JS.lit "admin" |} ] ;;
     setItem SESSION_TOKEN_KEY sessionToken ;;
     ret (Some sessionToken))
    (fun error =>
       console_error "Failed to create admin session:" ;;
       ret None).

Definition authenticateAdmin_over (setItem : jsstring -> jsstring -> M unit)
  (password : jsstring) : M (option jsstring) :=
  if negb (JS.truthy password) || JS.eqb (JS.trim password) []
  then ret None
  else
    let passwordHash := hashPassword password in
    storedHash <- getStoredPasswordHash ;;
    match storedHash with
    | None =>
        stored <- storePasswordHash passwordHash ;;
        if negb stored then ret None else createAdminSession_over setItem
    | Some storedHash =>
        if negb (JS.eqb passwordHash storedHash) then ret None
        else createAdminSession_over setItem
    end.

(** A storage that refuses every write: [setItem] throws and stores
    nothing (the [catch] does not look at what was thrown). *)
Definition refusing_setItem (key value : jsstring) : M unit :=
  fun w => (Thrown StoreUnavailable, w).

(** [setItem] always returns. *)
Definition never_refuses (setItem : jsstring -> jsstring -> M unit) : Prop :=
  forall key value w, exists w', setItem key value w = (Returned tt, w').

(** A lowercase hexadecimal digit. *)
Definition is_lower_hex (c : JS.char16) : bool :=
  ((48 <=? c) && (c <=? 57) || (97 <=? c) && (c <=? 102))%N.

(** A string of 64 lowercase hexadecimal digits: the shape of a SHA-256
    digest and of a session token. *)
Definition is_hex64 (s : jsstring) : Prop :=
  length s = 64 /\ forallb is_lower_hex s = true.

(** The data model's two cardinality invariants: at most one
    password-hash row, at most one real session. *)
Definition single_records (w : World) : Prop :=
  length (filter is_password_hash_record (table w)) <= 1 /\
  length (real_sessions (table w)) <= 1.

(** [m] only ever deletes rows of the table, whether it returns or
    throws. *)
Definition only_deletes {A} (m : M A) : Prop :=
  forall w, exists keep, table (snd (m w)) = filter keep (table w).

(** [m] keeps [P], whether it returns or throws. *)
Definition keeps {A} (P : World -> Prop) (m : M A) : Prop :=
  forall w, P w -> P (snd (m w)).

(* ================================================================== *)
(** * Properties *)
(* ================================================================== *)

(** ** The platform functions behave as the platform's *)

Example sha256_constants :
  length SHA256.K = 64 /\ length SHA256.H0 = 8 /\
  hd 0%N SHA256.K = 0x428a2f98%N /\ last SHA256.K 0%N = 0xc67178f2%N /\
  hd 0%N SHA256.H0 = 0x6a09e667%N /\ last SHA256.H0 0%N = 0x5be0cd19%N.
Proof. vm_compute. repeat split. Qed.

Example sha256_abc :
  JS.hex_of_bytes (SHA256.digest (JS.utf8_encode (JS.lit "abc"))) =
  JS.lit "ba7816bf8f01cfea414140de5dae2223b00361a396177a9cb410ff61f20015ad".
Proof. vm_compute. reflexivity. Qed.

Example sha256_empty :
  JS.hex_of_bytes (SHA256.digest []) =
  JS.lit "e3b0c44298fc1c149afbf4c8996fb92427ae41e4649b934ca495991b7852b855".
Proof. vm_compute. reflexivity. Qed.

Example sha256_two_blocks :
  JS.hex_of_bytes (SHA256.digest (JS.utf8_encode
    (repeat 97%N 70 ++ [0xE9; 0x20AC; 0xD83D; 0xDE00]%N))) =
  JS.lit "be235fe69c12ff31e3ca59424fffcd436a7e164646003a58dda6779f047b7036".
Proof. vm_compute. reflexivity. Qed.

Example parseInt_examples :
  JS.parseInt (JS.lit "1700086400") = Some 1700086400%Z /\
  JS.parseInt (JS.lit "  -12abc") = Some (-12)%Z /\
  JS.parseInt (JS.lit "+7") = Some 7%Z /\
  JS.parseInt (JS.lit "") = None /\
  JS.parseInt (JS.lit "abc") = None /\
  JS.parseInt (JS.lit "-") = None.
Proof. vm_compute. repeat split. Qed.

Example trim_examples :
  JS.trim (JS.lit "  a b  ") = JS.lit "a b" /\
  JS.trim (JS.lit "   ") = [] /\
  JS.trim [0x09; 0xA0; 0x2003; 0xFEFF]%N = [].
Proof. vm_compute. repeat split. Qed.

Module JSFacts.

Lemma eqb_refl (a : jsstring) : JS.eqb a a = true.
Proof.
  induction a as [|x a IH]; simpl; [reflexivity|].
  now rewrite N.eqb_refl, IH.
Qed.

Lemma eqb_eq (a b : jsstring) : JS.eqb a b = true <-> a = b.
Proof.
  split; [|intros ->; apply eqb_refl].
  revert b; induction a as [|x a IH]; intros [|y b]; simpl;
    try discriminate; [reflexivity|].
  intros H. apply andb_true_iff in H as [Hx Hab].
  apply N.eqb_eq in Hx. apply IH in Hab. now subst.
Qed.

Lemma eqb_neq (a b : jsstring) : JS.eqb a b = false <-> a <> b.
Proof.
  split.
  - intros H E. apply eqb_eq in E. congruence.
  - intros H. destruct (JS.eqb a b) eqn:E; [|reflexivity].
    apply eqb_eq in E. contradiction.
Qed.

Lemma digits_prefix_chars (d : Decimal.uint) :
  JS.digits_prefix (JS.chars_of_uint d) = d.
Proof. induction d; simpl; congruence. Qed.

Lemma chars_not_space (d : Decimal.uint) :
  JS.trimStart (JS.chars_of_uint d) = JS.chars_of_uint d.
Proof. destruct d; reflexivity. Qed.

Lemma parseInt_chars (d : Decimal.uint) :
  d <> Decimal.Nil ->
  JS.parseInt (JS.chars_of_uint d) = Some (Z.of_uint d).
Proof.
  intros Hd. unfold JS.parseInt. rewrite chars_not_space.
  destruct d; try contradiction; simpl;
    unfold JS.magnitude; simpl; rewrite digits_prefix_chars; reflexivity.
Qed.

Lemma parseInt_minus_chars (d : Decimal.uint) :
  d <> Decimal.Nil ->
  JS.parseInt (45%N :: JS.chars_of_uint d) = Some (- Z.of_uint d)%Z.
Proof.
  intros Hd. unfold JS.parseInt. simpl. unfold JS.magnitude.
  rewrite digits_prefix_chars. destruct d; try contradiction; reflexivity.
Qed.

(** Parsing what [toString] printed gives the number back. *)
Lemma parseInt_Number_toString (z : Z) :
  JS.parseInt (JS.Number_toString z) = Some z.
Proof.
  unfold JS.Number_toString.
  pose proof (DecimalZ.of_to z) as Hz.
  destruct z as [|p|p]; simpl in *.
  - reflexivity.
  - rewrite parseInt_chars by apply DecimalPos.Unsigned.to_uint_nonnil.
    now rewrite Hz.
  - rewrite parseInt_minus_chars by apply DecimalPos.Unsigned.to_uint_nonnil.
    now rewrite Hz.
Qed.

Lemma hex_of_bytes_truthy (b : N) (l : list N) :
  JS.truthy (JS.hex_of_bytes (b :: l)) = true.
Proof.
  unfold JS.hex_of_bytes. simpl. unfold JS.toString16.
  destruct (N.ltb b 16); reflexivity.
Qed.

End JSFacts.

(* ================================================================== *)
(** ** Running the effects *)
(* ================================================================== *)

Arguments hashPassword : simpl never.
Arguments random_bytes : simpl never.
Arguments JS.hex_of_bytes : simpl never.
Arguments JS.Number_toString : simpl never.
Arguments JS.parseInt : simpl never.
Arguments JS.trim : simpl never.
Arguments floor_seconds : simpl never.
Arguments skipn : simpl never.
Arguments lookup_key : simpl never.
Arguments drop_key : simpl never.
Arguments SESSION_TOKEN_KEY : simpl never.
Arguments PASSWORD_HASH_USER_ID : simpl never.
Arguments SESSION_DURATION_MS : simpl never.

Lemma set_outages_same (w : World) : set_outages (outages w) w = w.
Proof. destruct w; reflexivity. Qed.

Lemma set_table_same (w : World) : set_table (table w) w = w.
Proof. destruct w; reflexivity. Qed.

Lemma random_bytes_32 (source : list N) :
  exists b l, random_bytes 32 source = b :: l.
Proof.
  unfold random_bytes. destruct source as [|x source]; simpl; eauto.
Qed.

Lemma bind_run {A B} (m : M A) (k : A -> M B) (w : World) :
  bind m k w =
  match m w with
  | (Returned a, w') => k a w'
  | (Thrown e, w') => (Thrown e, w')
  end.
Proof. reflexivity. Qed.

(** *** Nothing escapes a [try]/[catch] whose handler only logs *)

Section NeverThrows.

Lemma ret_never_throws {A} (a : A) : never_throws (ret a).
Proof. intros w. now exists a, w. Qed.

Lemma bind_never_throws {A B} (m : M A) (k : A -> M B) :
  never_throws m -> (forall a, never_throws (k a)) ->
  never_throws (bind m k).
Proof.
  intros Hm Hk w. unfold bind.
  destruct (Hm w) as (a & w' & ->). apply Hk.
Qed.

Lemma try_catch_never_throws {A} (body : M A) (handler : Error -> M A) :
  (forall e, never_throws (handler e)) ->
  never_throws (try_catch body handler).
Proof.
  intros Hh w. unfold try_catch.
  destruct (body w) as [[a|e] w']; [now exists a, w'|apply Hh].
Qed.

Lemma console_error_never_throws (msg : string) :
  never_throws (console_error msg).
Proof. intros w. now eexists _, _. Qed.

Lemma getItem_never_throws (key : jsstring) :
  never_throws (localStorage_getItem key).
Proof. intros w. now eexists _, _. Qed.

Lemma removeItem_never_throws (key : jsstring) :
  never_throws (localStorage_removeItem key).
Proof. intros w. now eexists _, _. Qed.

Lemma Date_now_never_throws : never_throws Date_now.
Proof. intros w. now eexists _, _. Qed.

Lemma generateSessionToken_never_throws : never_throws generateSessionToken.
Proof. intros w. now eexists _, _. Qed.

Lemma or_else_never_throws a (b : M (option jsstring)) :
  never_throws b -> never_throws (or_else a b).
Proof.
  intros Hb. destruct a as [s|]; simpl; [|exact Hb].
  destruct (JS.truthy s); [apply ret_never_throws|exact Hb].
Qed.

Lemma logged_never_throws {A} (msg : string) (a : A) :
  never_throws (console_error msg ;; ret a).
Proof. intros w. now eexists _, _. Qed.

End NeverThrows.

Create HintDb safe.

#[local] Hint Resolve ret_never_throws bind_never_throws
  try_catch_never_throws console_error_never_throws getItem_never_throws
  removeItem_never_throws Date_now_never_throws
  generateSessionToken_never_throws or_else_never_throws
  logged_never_throws : safe.

Lemma getStoredPasswordHash_never_throws : never_throws getStoredPasswordHash.
Proof. unfold getStoredPasswordHash. auto with safe. Qed.

Lemma storePasswordHash_never_throws hash :
  never_throws (storePasswordHash hash).
Proof. unfold storePasswordHash. auto with safe. Qed.

Lemma createAdminSession_never_throws : never_throws createAdminSession.
Proof.
  unfold createAdminSession.
  apply bind_never_throws; [auto with safe|intros tok].
  apply bind_never_throws; auto with safe.
Qed.

Lemma isPasswordSet_never_throws : never_throws isPasswordSet.
Proof.
  unfold isPasswordSet.
  apply bind_never_throws;
    [apply getStoredPasswordHash_never_throws|auto with safe].
Qed.

Lemma authenticateAdmin_never_throws password :
  never_throws (authenticateAdmin password).
Proof.
  unfold authenticateAdmin.
  destruct (negb (JS.truthy password) || JS.eqb (JS.trim password) []);
    [auto with safe|].
  apply bind_never_throws; [apply getStoredPasswordHash_never_throws|].
  intros [h|].
  - destruct (negb (JS.eqb (hashPassword password) h));
      [auto with safe|apply createAdminSession_never_throws].
  - apply bind_never_throws; [apply storePasswordHash_never_throws|].
    intros [|]; simpl;
      [apply createAdminSession_never_throws|auto with safe].
Qed.

Lemma validateSession_never_throws sessionToken :
  never_throws (validateSession sessionToken).
Proof.
  unfold validateSession.
  apply bind_never_throws; [auto with safe|].
  intros [token|]; [|auto with safe].
  destruct (negb (JS.truthy token)); auto with safe.
Qed.

Lemma logoutAdmin_never_throws : never_throws logoutAdmin.
Proof.
  unfold logoutAdmin.
  apply bind_never_throws; [auto with safe|].
  intros [token|]; (apply bind_never_throws; [|auto with safe]);
    [|auto with safe].
  destruct (JS.truthy token); auto with safe.
Qed.

Lemma resetAdminPassword_never_throws : never_throws resetAdminPassword.
Proof. unfold resetAdminPassword. auto with safe. Qed.

Lemma cleanupExpiredSessions_never_throws :
  never_throws cleanupExpiredSessions.
Proof. unfold cleanupExpiredSessions. auto with safe. Qed.

(** *** One call to the store *)

Lemma advance_up (w : World) : outages w = [] -> advance w = w.
Proof. intros H. unfold advance. rewrite H. simpl. rewrite <- H. apply set_outages_same. Qed.

Lemma store_call_run {A} (answer : World -> A * World) (w : World) :
  store_call answer w =
  if next_fails (outages w) then (Thrown StoreUnavailable, advance w)
  else (Returned (fst (answer (advance w))), snd (answer (advance w))).
Proof.
  unfold store_call. destruct (next_fails (outages w)); [reflexivity|].
  now destruct (answer (advance w)).
Qed.

Lemma store_call_up {A} (answer : World -> A * World) (w : World) :
  outages w = [] ->
  store_call answer w = (Returned (fst (answer w)), snd (answer w)).
Proof.
  intros H. rewrite store_call_run, (advance_up w H), H. reflexivity.
Qed.



(** *** [localStorage] *)

Lemma lookup_drop_key (key : jsstring) s : lookup_key key (drop_key key s) = None.
Proof.
  unfold lookup_key, drop_key.
  induction s as [|[k v] s IH]; simpl; [reflexivity|].
  destruct (JS.eqb k key) eqn:E; simpl; [exact IH|].
  now rewrite E.
Qed.

Lemma lookup_set_key (key value : jsstring) s :
  lookup_key key ((key, value) :: s) = Some value.
Proof. unfold lookup_key. simpl. now rewrite JSFacts.eqb_refl. Qed.

(** *** Logging out, and validating with nothing in the slot *)

Lemma validateSession_no_token w :
  local_slot w = None -> validateSession None w = (Returned false, w).
Proof.
  unfold local_slot, validateSession. intros H.
  rewrite bind_run. cbn. rewrite H. reflexivity.
Qed.

Lemma logoutAdmin_eq w :
  logoutAdmin w =
  (Returned tt,
   clear_slot
     match local_slot w with
     | Some token =>
         if JS.truthy token then
           if next_fails (outages w)
           then set_console ("Failed to delete session:"%string :: console w)
                            (advance w)
           else set_table (filter (fun r => negb (has_token token r))
                                  (table w)) (advance w)
         else w
     | None => w
     end).
Proof.
  unfold logoutAdmin. rewrite bind_run. cbn [localStorage_getItem].
  fold (local_slot w).
  destruct (local_slot w) as [token|]; [|reflexivity].
  destruct (JS.truthy token); [|reflexivity].
  rewrite bind_run. unfold try_catch, deleteAdminSessionBySessionToken.
  rewrite store_call_run. now destruct (next_fails (outages w)).
Qed.

Lemma local_slot_clear w : local_slot (clear_slot w) = None.
Proof. unfold local_slot, clear_slot. cbn. apply lookup_drop_key. Qed.


(** *** Deleting rows by id *)

Lemma filter_keeps_all {A} (keep : A -> bool) (xs : list A) :
  (forall x, In x xs -> keep x = true) -> filter keep xs = xs.
Proof.
  induction xs as [|x xs IH]; intros Hkeep; cbn [filter]; [reflexivity|].
  rewrite (Hkeep x (or_introl eq_refl)), IH; [reflexivity|].
  intros y Hy. apply Hkeep. now right.
Qed.

Lemma filter_all {A} (keep : A -> bool) (xs : list A) :
  (forall x, keep x = true) -> filter keep xs = xs.
Proof. intros Hkeep. apply filter_keeps_all. intros x _. apply Hkeep. Qed.

Lemma filter_twice {A} (f g : A -> bool) (l : list A) :
  filter g (filter f l) = filter (fun a => f a && g a) l.
Proof.
  induction l as [|a l IH]; cbn [filter]; [reflexivity|].
  destruct (f a); cbn [filter andb]; [|exact IH].
  destruct (g a); now rewrite IH.
Qed.

Lemma remove_ids_nil t : remove_ids [] t = t.
Proof. unfold remove_ids. now apply filter_all. Qed.

Lemma remove_ids_cons i ids t :
  remove_ids (i :: ids) t =
  remove_ids ids (filter (fun r => negb (has_id i r)) t).
Proof.
  unfold remove_ids. rewrite filter_twice. apply filter_ext. intros r.
  unfold has_id. cbn [existsb]. now rewrite negb_orb.
Qed.

Lemma In_remove_ids ids t r :
  In r (remove_ids ids t) <-> In r t /\ ~ In (id r) ids.
Proof.
  unfold remove_ids. rewrite filter_In, negb_true_iff.
  split; intros [Hin H]; split; trivial.
  - intros Hi. assert (existsb (Nat.eqb (id r)) ids = true); [|congruence].
    apply existsb_exists. exists (id r). split; [exact Hi|apply Nat.eqb_refl].
  - destruct (existsb (Nat.eqb (id r)) ids) eqn:E; [|reflexivity].
    apply existsb_exists in E as (i & Hi & Heq).
    apply Nat.eqb_eq in Heq. subst i. contradiction.
Qed.

Lemma unique_ids_inj t r r' :
  unique_ids t -> In r t -> In r' t -> id r = id r' -> r = r'.
Proof.
  unfold unique_ids. induction t as [|x t IH]; simpl; [contradiction|].
  intros Hnd [->|Hr] [->|Hr'] Hid; inversion Hnd; subst; trivial.
  - exfalso. apply H1. rewrite Hid. now apply in_map.
  - exfalso. apply H1. rewrite <- Hid. now apply in_map.
  - now apply IH.
Qed.

Lemma remove_ids_of_rows c t :
  unique_ids t ->
  remove_ids (map id (filter c t)) t = filter (fun r => negb (c r)) t.
Proof.
  intros Hu. unfold remove_ids. apply filter_ext_in. intros r Hr. f_equal.
  destruct (c r) eqn:Hc.
  - apply existsb_exists. exists (id r). split; [|apply Nat.eqb_refl].
    apply in_map. apply filter_In. auto.
  - destruct (existsb _ _) eqn:E; [|reflexivity].
    apply existsb_exists in E as (i & Hi & Heq). apply Nat.eqb_eq in Heq.
    subst i. apply in_map_iff in Hi as (r' & Hid & Hr').
    apply filter_In in Hr' as [Hr' Hc'].
    assert (r' = r) by (eapply unique_ids_inj; eauto). congruence.
Qed.


Section DeleteLoop.
Variable c : AdminSession -> bool.
Variable body : AdminSession -> M unit.
Hypothesis body_eq : forall s,
  body s = if c s then deleteAdminSessionById (id s) else ret tt.

Lemma for_of_delete_up l : forall w,
  outages w = [] ->
  for_of l body w =
  (Returned tt, set_table (remove_ids (map id (filter c l)) (table w)) w).
Proof.
  induction l as [|x l IH]; intros w Hup.
  - simpl. now rewrite remove_ids_nil, set_table_same.
  - cbn [for_of]. rewrite bind_run, body_eq. cbn [filter].
    destruct (c x).
    + unfold deleteAdminSessionById. rewrite store_call_up by exact Hup.
      cbn [fst snd]. rewrite IH by exact Hup. cbn [map].
      now rewrite remove_ids_cons.
    + cbn. now apply IH.
Qed.

Lemma for_of_delete_any l : forall w o w',
  for_of l body w = (o, w') ->
  exists done rest,
    filter c l = done ++ rest /\
    table w' = remove_ids (map id done) (table w) /\
    same_client w w' /\
    (o = Returned tt -> rest = []).
Proof.
  induction l as [|x l IH]; intros w o w' Hrun.
  - cbn in Hrun. inversion Hrun; subst. exists [], [].
    rewrite remove_ids_nil. unfold same_client. repeat split; trivial.
  - cbn [for_of] in Hrun. rewrite bind_run, body_eq in Hrun.
    cbn [filter]. destruct (c x).
    + unfold deleteAdminSessionById in Hrun.
      rewrite store_call_run in Hrun.
      destruct (next_fails (outages w)); cbn [fst snd] in Hrun.
      * inversion Hrun; subst. exists [], (x :: filter c l).
        rewrite remove_ids_nil. unfold same_client.
        repeat split; trivial. discriminate.
      * apply IH in Hrun as (done & rest & Hf & Ht & Hc & Hr).
        exists (x :: done), rest. rewrite Hf. split; [reflexivity|].
        split; [|split; [|exact Hr]].
        -- rewrite Ht. cbn [map]. now rewrite remove_ids_cons.
        -- exact Hc.
    + cbn in Hrun. now apply IH.
Qed.
End DeleteLoop.

(** *** The password hash, and creating a session *)

Lemma getStoredPasswordHash_run w :
  getStoredPasswordHash w =
  if next_fails (outages w)
  then (Returned None,
        set_console ("Failed to get stored password hash:"%string :: console w)
                    (advance w))
  else (Returned (stored_hash (table w)), advance w).
Proof.
  unfold getStoredPasswordHash, try_catch. rewrite bind_run.
  unfold getAdminSessionByUserId. rewrite store_call_run.
  destruct (next_fails (outages w)); [reflexivity|].
  cbn [fst snd]. unfold stored_hash. cbn [table advance set_outages].
  now destruct (filter (has_user_id PASSWORD_HASH_USER_ID) (table w)).
Qed.


Lemma isPasswordSet_run w :
  isPasswordSet w =
  if next_fails (outages w)
  then (Returned false,
        set_console ("Failed to get stored password hash:"%string :: console w)
                    (advance w))
  else (Returned (match stored_hash (table w) with Some _ => true | None => false end),
        advance w).
Proof.
  unfold isPasswordSet. rewrite bind_run, getStoredPasswordHash_run.
  now destruct (next_fails (outages w)).
Qed.

Lemma insert_one_run row w :
  insertAdminSession [row] w =
  if next_fails (outages w) then (Thrown StoreUnavailable, advance w)
  else (Returned [with_id (next_id w) row],
        set_next_id (S (next_id w))
          (set_table (table w ++ [with_id (next_id w) row]) (advance w))).
Proof.
  unfold insertAdminSession. rewrite store_call_run.
  now destruct (next_fails (outages w)).
Qed.

Lemma storePasswordHash_success hash w w' :
  storePasswordHash hash w = (Returned true, w') ->
  table w' =
    remove_ids (map id (filter is_password_hash_record (table w))) (table w)
    ++ [password_hash_row (next_id w) hash] /\
  next_id w' = S (next_id w) /\ storage w' = storage w /\
  clock w' = clock w /\ entropy w' = entropy w.
Proof.
  unfold storePasswordHash, try_catch. rewrite bind_run.
  unfold getAdminSessionByUserId. rewrite store_call_run.
  destruct (next_fails (outages w)); [discriminate|]. cbn [fst snd].
  rewrite bind_run.
  destruct (for_of _ _ (advance w)) as [o w1] eqn:Hloop.
  apply (for_of_delete_any (fun _ => true)) in Hloop; [|reflexivity].
  destruct Hloop as (done & rest & Hf & Ht & (Hn & Hs & Hc & He) & Hr).
  destruct o as [[]|e]; [|discriminate].
  specialize (Hr eq_refl). subst rest. rewrite app_nil_r in Hf.
  rewrite filter_all in Hf by reflexivity. subst done.
  rewrite bind_run, insert_one_run.
  destruct (next_fails (outages w1)); [discriminate|].
  cbn. intros H. inversion H; subst; clear H. cbn.
  rewrite Ht, Hn. cbn in *. auto.
Qed.

Lemma fresh_token_truthy w : JS.truthy (fresh_token w) = true.
Proof.
  unfold fresh_token. destruct (random_bytes_32 (entropy w)) as (b & l & ->).
  apply JSFacts.hex_of_bytes_truthy.
Qed.

Lemma createAdminSession_success w tok w' :
  createAdminSession w = (Returned (Some tok), w') ->
  tok = fresh_token w /\
  table w' =
    remove_ids (map id (real_sessions (table w))) (table w)
    ++ [admin_session_row (next_id w) tok (expiry_at (clock w))] /\
  local_slot w' = Some tok /\ clock w' = clock w.
Proof.
  unfold createAdminSession, generateSessionToken.
  rewrite !bind_run. cbn [crypto_getRandomValues ret Date_now].
  rewrite bind_run. cbn [Date_now]. unfold try_catch. rewrite bind_run.
  unfold getAllAdminSession. rewrite store_call_run. cbn [outages set_entropy].
  destruct (next_fails (outages w)); [discriminate|]. cbn [fst snd].
  rewrite bind_run.
  match goal with |- context [for_of ?l ?b ?w0] =>
    destruct (for_of l b w0) as [o w1] eqn:Hloop end.
  apply (for_of_delete_any (fun r => negb (is_password_hash_record r)))
    in Hloop; [|reflexivity].
  destruct Hloop as (done & rest & Hf & Ht & (Hn & Hs & Hc & He) & Hr).
  destruct o as [[]|e]; [|discriminate].
  specialize (Hr eq_refl). subst rest. rewrite app_nil_r in Hf.
  rewrite bind_run, insert_one_run.
  destruct (next_fails (outages w1)); [discriminate|].
  cbn. intros H. inversion H; subst; clear H. cbn.
  unfold local_slot. cbn. rewrite lookup_set_key.
  rewrite Ht, Hn. cbn in *. rewrite Hc. auto.
Qed.

Lemma createAdminSession_up w :
  outages w = [] ->
  exists w',
    createAdminSession w = (Returned (Some (fresh_token w)), w') /\
    table w' =
      remove_ids (map id (real_sessions (table w))) (table w)
      ++ [admin_session_row (next_id w) (fresh_token w)
                            (expiry_at (clock w))] /\
    local_slot w' = Some (fresh_token w) /\ clock w' = clock w /\
    outages w' = [] /\ next_id w' = S (next_id w).
Proof.
  intros Hup.
  unfold createAdminSession, generateSessionToken.
  rewrite !bind_run. cbn [crypto_getRandomValues ret Date_now].
  rewrite bind_run. cbn [Date_now]. unfold try_catch. rewrite bind_run.
  unfold getAllAdminSession. rewrite store_call_up by exact Hup.
  cbn [fst snd]. rewrite bind_run.
  rewrite (for_of_delete_up (fun r => negb (is_password_hash_record r)))
    by (reflexivity || exact Hup).
  rewrite bind_run, insert_one_run. cbn [outages set_table set_entropy].
  rewrite Hup. cbn. eexists. split; [reflexivity|].
  unfold local_slot. cbn. rewrite lookup_set_key. repeat split.
  now rewrite Hup.
Qed.


(** A successful login went through [createAdminSession], either on the
    table as it was (the stored hash matched) or right after the hash
    of the password was stored. *)
Lemma authenticateAdmin_success pw w tok w' :
  authenticateAdmin pw w = (Returned (Some tok), w') ->
  is_blank pw = false /\
  exists w1,
    createAdminSession w1 = (Returned (Some tok), w') /\
    clock w1 = clock w /\
    (table w1 = table w \/
     table w1 =
       remove_ids (map id (filter is_password_hash_record (table w)))
                  (table w)
       ++ [password_hash_row (next_id w) (hashPassword pw)]).
Proof.
  unfold authenticateAdmin. fold (is_blank pw).
  destruct (is_blank pw); [discriminate|]. intros H. split; [reflexivity|].
  rewrite bind_run, getStoredPasswordHash_run in H.
  assert (Hboot : forall w0, clock w0 = clock w -> table w0 = table w ->
            next_id w0 = next_id w ->
            (stored <- storePasswordHash (hashPassword pw) ;;
             if negb stored then ret None else createAdminSession) w0
            = (Returned (Some tok), w') ->
            exists w1,
              createAdminSession w1 = (Returned (Some tok), w') /\
              clock w1 = clock w /\
              (table w1 = table w \/
               table w1 =
               remove_ids (map id (filter is_password_hash_record (table w)))
                          (table w)
               ++ [password_hash_row (next_id w) (hashPassword pw)])).
  { intros w0 Hc Ht Hn Hrun. rewrite bind_run in Hrun.
    destruct (storePasswordHash (hashPassword pw) w0) as [[stored|e] w1] eqn:Hs;
      [|discriminate].
    destruct stored; [|discriminate]. cbn in Hrun.
    apply storePasswordHash_success in Hs as (Ht1 & _ & _ & Hc1 & _).
    exists w1. rewrite Ht1, Hc1, Ht, Hn, Hc. auto. }
  destruct (next_fails (outages w)).
  - apply Hboot in H; trivial.
  - destruct (stored_hash (table w)) as [h|].
    + destruct (negb (JS.eqb (hashPassword pw) h)); [discriminate|].
      exists (advance w). auto.
    + apply Hboot in H; trivial.
Qed.


(** *** Validation, the sweep and the reset *)

Lemma or_else_run arg w :
  or_else arg (localStorage_getItem SESSION_TOKEN_KEY) w =
  (Returned (effective_token arg w), w).
Proof.
  unfold or_else, effective_token, local_slot.
  destruct arg as [s|]; [destruct (JS.truthy s)|]; reflexivity.
Qed.

Lemma validateSession_run arg w :
  validateSession arg w =
  match effective_token arg w with
  | None => (Returned false, w)
  | Some token =>
      if negb (JS.truthy token) then (Returned false, w)
      else if next_fails (outages w) then
        (Returned false,
         set_console ("Session validation failed:"%string :: console w)
                     (advance w))
      else
        match filter (has_token token) (table w) with
        | [] => (Returned false, clear_slot (advance w))
        | session :: _ =>
            if is_password_hash_record session
            then (Returned false, clear_slot (advance w))
            else if JS.gt_number (floor_seconds (clock w))
                                 (JS.parseInt (expires_at session))
            then
              if next_fails (outages (advance w)) then
                (Returned false,
                 set_console ("Session validation failed:"%string :: console w)
                             (advance (advance w)))
              else
                (Returned false,
                 clear_slot
                   (set_table
                      (filter (fun r => negb (has_id (id session) r))
                              (table w))
                      (advance (advance w))))
            else (Returned true, advance w)
        end
  end.
Proof.
  unfold validateSession. rewrite bind_run, or_else_run.
  destruct (effective_token arg w) as [token|]; [|reflexivity].
  destruct (negb (JS.truthy token)); [reflexivity|].
  unfold try_catch. rewrite bind_run.
  unfold getAdminSessionBySessionToken. rewrite store_call_run.
  destruct (next_fails (outages w)); [reflexivity|]. cbn [fst snd].
  change (table (advance w)) with (table w).
  destruct (filter (has_token token) (table w)) as [|session rest];
    [reflexivity|].
  fold (is_password_hash_record session).
  destruct (is_password_hash_record session); [reflexivity|].
  rewrite bind_run. cbn [Date_now].
  change (clock (advance w)) with (clock w).
  destruct (JS.gt_number _ _); [|reflexivity].
  rewrite bind_run. unfold deleteAdminSessionById. rewrite store_call_run.
  destruct (next_fails (outages (advance w))); reflexivity.
Qed.

Lemma cleanup_body_eq now session :
  (if JS.eqb (user_id session) PASSWORD_HASH_USER_ID then ret tt
   else
     let expiresAt := JS.parseInt (expires_at session) in
     if JS.gt_number now expiresAt
     then deleteAdminSessionById (id session)
     else ret tt) =
  (if expired_at now session then deleteAdminSessionById (id session)
   else ret tt).
Proof.
  unfold expired_at, is_password_hash_record.
  destruct (JS.eqb (user_id session) PASSWORD_HASH_USER_ID); cbn;
    [reflexivity|].
  now destruct (JS.gt_number now (JS.parseInt (expires_at session))).
Qed.

Lemma cleanupExpiredSessions_up w :
  outages w = [] ->
  cleanupExpiredSessions w =
  (Returned tt,
   set_table
     (remove_ids
        (map id (filter (expired_at (floor_seconds (clock w))) (table w)))
        (table w)) w).
Proof.
  intros Hup. unfold cleanupExpiredSessions, try_catch.
  rewrite bind_run. unfold getAllAdminSession.
  rewrite store_call_up by exact Hup. cbn [fst snd].
  rewrite bind_run. cbn [Date_now].
  rewrite (for_of_delete_up (expired_at (floor_seconds (clock w))));
    [reflexivity| |exact Hup].
  intros s. apply cleanup_body_eq.
Qed.

Lemma cleanupExpiredSessions_any w :
  exists done rest w',
    cleanupExpiredSessions w = (Returned tt, w') /\
    filter (expired_at (floor_seconds (clock w))) (table w) = done ++ rest /\
    table w' = remove_ids (map id done) (table w) /\
    storage w' = storage w.
Proof.
  unfold cleanupExpiredSessions, try_catch.
  rewrite bind_run. unfold getAllAdminSession. rewrite store_call_run.
  destruct (next_fails (outages w)).
  - exists [], (filter (expired_at (floor_seconds (clock w))) (table w)).
    eexists. split; [reflexivity|]. cbn. now rewrite remove_ids_nil.
  - cbn [fst snd]. rewrite bind_run. cbn [Date_now].
    match goal with |- context [for_of ?l ?b ?w0] =>
      destruct (for_of l b w0) as [o w1] eqn:Hloop end.
    apply (for_of_delete_any (expired_at (floor_seconds (clock w))))
      in Hloop; [|intros s; apply cleanup_body_eq].
    destruct Hloop as (done & rest & Hf & Ht & (Hn & Hs & Hc & He) & Hr).
    exists done, rest.
    destruct o as [[]|e]; eexists; (split; [reflexivity|]); cbn; auto.
Qed.

Lemma filter_nil_iff {A} (f : A -> bool) (l : list A) :
  filter f l = [] <-> forall x, In x l -> f x = false.
Proof.
  induction l as [|a l IH]; cbn [filter]; [now split|].
  destruct (f a) eqn:E; split.
  - discriminate.
  - intros H. specialize (H a (or_introl eq_refl)). congruence.
  - intros H x [->|Hx]; [exact E|]. now apply IH.
  - intros H. apply IH. intros x Hx. apply H. now right.
Qed.


(** *** Blank passwords, and first-time setup with the store up *)

Lemma trimStart_nil_iff s :
  JS.trimStart s = [] <-> forallb JS.is_whitespace s = true.
Proof.
  induction s as [|c s IH]; cbn [JS.trimStart forallb]; [now split|].
  destruct (JS.is_whitespace c); cbn [andb]; [exact IH|].
  split; discriminate.
Qed.

Lemma trimStart_idem s : JS.trimStart (JS.trimStart s) = JS.trimStart s.
Proof.
  induction s as [|c s IH]; cbn [JS.trimStart]; [reflexivity|].
  destruct (JS.is_whitespace c) eqn:E; [exact IH|].
  cbn [JS.trimStart]. now rewrite E.
Qed.

Lemma forallb_rev {A} (f : A -> bool) l : forallb f (rev l) = forallb f l.
Proof.
  destruct (forallb f l) eqn:E.
  - rewrite forallb_forall in *. intros x Hx. apply E. now apply in_rev.
  - destruct (forallb f (rev l)) eqn:E'; [|reflexivity].
    rewrite <- E. symmetry. rewrite forallb_forall in *.
    intros x Hx. apply E'. now apply in_rev in Hx.
Qed.

Lemma trim_nil_iff s : JS.trim s = [] <-> all_whitespace s = true.
Proof.
  unfold JS.trim, JS.trimEnd, all_whitespace.
  rewrite <- trimStart_nil_iff.
  split.
  - intros H. apply (f_equal (@rev _)) in H. rewrite rev_involutive in H.
    cbn in H. apply trimStart_nil_iff in H. rewrite forallb_rev in H.
    apply trimStart_nil_iff in H. now rewrite trimStart_idem in H.
  - intros ->. reflexivity.
Qed.

Lemma is_blank_spec pw : is_blank pw = all_whitespace pw.
Proof.
  unfold is_blank. destruct pw as [|c pw]; [reflexivity|]. cbn [JS.truthy negb orb].
  destruct (all_whitespace (c :: pw)) eqn:E.
  - apply trim_nil_iff in E. rewrite E. reflexivity.
  - apply JSFacts.eqb_neq. intros H. apply trim_nil_iff in H. congruence.
Qed.

Lemma is_password_hash_row i h :
  is_password_hash_record (password_hash_row i h) = true.
Proof. apply JSFacts.eqb_refl. Qed.


Lemma storePasswordHash_up hash w :
  outages w = [] ->
  exists w',
    storePasswordHash hash w = (Returned true, w') /\
    table w' =
      remove_ids (map id (filter is_password_hash_record (table w))) (table w)
      ++ [password_hash_row (next_id w) hash] /\
    next_id w' = S (next_id w) /\ outages w' = [] /\
    storage w' = storage w /\ clock w' = clock w /\ entropy w' = entropy w.
Proof.
  intros Hup. unfold storePasswordHash, try_catch. rewrite bind_run.
  unfold getAdminSessionByUserId. rewrite store_call_up by exact Hup.
  cbn [fst snd]. rewrite bind_run.
  rewrite (for_of_delete_up (fun _ => true)) by (reflexivity || exact Hup).
  rewrite filter_all by reflexivity.
  rewrite bind_run, insert_one_run. cbn [outages set_table]. rewrite Hup.
  cbn. eexists. split; [reflexivity|]. cbn. rewrite Hup. auto 10.
Qed.

(** First-time setup with the store up: the hash is stored, then the
    session is created. *)
Lemma bootstrap_up pw w :
  outages w = [] ->
  exists w',
    (stored <- storePasswordHash (hashPassword pw) ;;
     if negb stored then ret None else createAdminSession) w
    = (Returned (Some (fresh_token w)), w') /\
    (forall t1,
       t1 = remove_ids (map id (filter is_password_hash_record (table w)))
                       (table w)
            ++ [password_hash_row (next_id w) (hashPassword pw)] ->
       table w' =
         remove_ids (map id (real_sessions t1)) t1
         ++ [admin_session_row (S (next_id w)) (fresh_token w)
                               (expiry_at (clock w))]) /\
    local_slot w' = Some (fresh_token w) /\ clock w' = clock w /\
    outages w' = [] /\ next_id w' = S (S (next_id w)).
Proof.
  intros Hup. rewrite bind_run.
  destruct (storePasswordHash_up (hashPassword pw) w Hup)
    as (w1 & -> & Ht1 & Hn1 & Ho1 & Hs1 & Hc1 & He1).
  cbn [negb].
  destruct (createAdminSession_up w1 Ho1)
    as (w' & Hrun & Ht & Hs & Hc & Ho & Hn).
  exists w'. unfold fresh_token in *. rewrite He1, Hn1, Hc1, Ht1 in *.
  repeat split; trivial. now intros t1 ->.
Qed.


Lemma real_sessions_app t t' :
  real_sessions (t ++ t') = real_sessions t ++ real_sessions t'.
Proof. apply filter_app. Qed.





(** *** The table stays a well-formed server table *)

Lemma unique_ids_filter (f : AdminSession -> bool) t :
  unique_ids t -> unique_ids (filter f t).
Proof.
  unfold unique_ids. induction t as [|r t IH]; cbn [filter map];
    [trivial|].
  intros Hnd. inversion Hnd as [|i l Hnew Hrest]; subst.
  destruct (f r); [|now apply IH].
  cbn [map]. constructor; [|now apply IH].
  intros Hin. apply Hnew. apply in_map_iff in Hin as (x & Hid & Hx).
  apply filter_In in Hx as [Hx _]. rewrite <- Hid. now apply in_map.
Qed.

Lemma store_ok_filter (f : AdminSession -> bool) w :
  store_ok w -> store_ok (set_table (filter f (table w)) w).
Proof.
  intros [Hu Hf]. split; cbn.
  - now apply unique_ids_filter.
  - intros r Hr. cbn in Hr. apply filter_In in Hr as [Hr _]. now apply Hf.
Qed.

Lemma store_ok_insert row w :
  store_ok w ->
  store_ok (set_next_id (S (next_id w))
              (set_table (table w ++ [with_id (next_id w) row]) w)).
Proof.
  intros [Hu Hf]. split; cbn.
  - unfold unique_ids in *. rewrite map_app. cbn [map id with_id].
    apply NoDup_app;
      [exact Hu|apply NoDup_cons; [intros []|apply NoDup_nil]|].
    intros i Hi [<-|[]]. apply in_map_iff in Hi as (r & Hid & Hr).
    apply Hf in Hr. lia.
  - intros r Hr. cbn in Hr. apply in_app_or in Hr as [Hr|[<-|[]]].
    + apply Hf in Hr. cbn. lia.
    + cbn. lia.
Qed.

Lemma store_ok_insert_rows rows : forall w,
  store_ok w -> store_ok (snd (insert_rows rows w)).
Proof.
  induction rows as [|row rows IH]; intros w Hok; cbn [insert_rows];
    [exact Hok|].
  specialize (IH _ (store_ok_insert row w Hok)).
  now destruct (insert_rows rows _).
Qed.

Lemma store_ok_same_table w w' :
  table w' = table w -> next_id w' = next_id w -> store_ok w -> store_ok w'.
Proof.
  intros Ht Hn [Hu Hf]. split.
  - now rewrite Ht.
  - intros r Hr. rewrite Ht in Hr. rewrite Hn. now apply Hf.
Qed.

Section PreservesStore.

Lemma ret_preserves {A} (a : A) : preserves_store (ret a).
Proof. intros w Hok. exact Hok. Qed.

Lemma bind_preserves {A B} (m : M A) (k : A -> M B) :
  preserves_store m -> (forall a, preserves_store (k a)) ->
  preserves_store (bind m k).
Proof.
  intros Hm Hk w Hok. unfold bind. specialize (Hm w Hok).
  destruct (m w) as [[a|e] w1]; [now apply Hk|exact Hm].
Qed.

Lemma try_catch_preserves {A} (body : M A) (handler : Error -> M A) :
  preserves_store body -> (forall e, preserves_store (handler e)) ->
  preserves_store (try_catch body handler).
Proof.
  intros Hb Hh w Hok. unfold try_catch. specialize (Hb w Hok).
  destruct (body w) as [[a|e] w1]; [exact Hb|now apply Hh].
Qed.

Lemma for_of_preserves {A} (xs : list A) (body : A -> M unit) :
  (forall x, preserves_store (body x)) -> preserves_store (for_of xs body).
Proof.
  intros Hbody. induction xs as [|x xs IH]; cbn [for_of].
  - apply ret_preserves.
  - apply bind_preserves; [apply Hbody|intros _; exact IH].
Qed.

Lemma store_call_preserves {A} (answer : World -> A * World) :
  (forall w, store_ok w -> store_ok (snd (answer w))) ->
  preserves_store (store_call answer).
Proof.
  intros Hans w Hok. rewrite store_call_run.
  assert (Hadv : store_ok (advance w))
    by (now apply (store_ok_same_table w)).
  destruct (next_fails (outages w)); [exact Hadv|now apply Hans].
Qed.

Lemma client_preserves {A} (m : M A) :
  (forall w, table (snd (m w)) = table w /\ next_id (snd (m w)) = next_id w) ->
  preserves_store m.
Proof.
  intros H w Hok. destruct (H w) as [Ht Hn].
  now apply (store_ok_same_table w).
Qed.

End PreservesStore.

Lemma get_preserves (f : AdminSession -> bool) :
  preserves_store (store_call (fun w => (filter f (table w), w))).
Proof. apply store_call_preserves. now intros w Hok. Qed.

Lemma getAll_preserves : preserves_store getAllAdminSession.
Proof. apply store_call_preserves. now intros w Hok. Qed.

Lemma deleteById_preserves i : preserves_store (deleteAdminSessionById i).
Proof. apply store_call_preserves. intros w. apply store_ok_filter. Qed.

Lemma deleteByToken_preserves tok :
  preserves_store (deleteAdminSessionBySessionToken tok).
Proof. apply store_call_preserves. intros w. apply store_ok_filter. Qed.

Lemma insert_preserves rows : preserves_store (insertAdminSession rows).
Proof. apply store_call_preserves. apply store_ok_insert_rows. Qed.

Lemma console_error_preserves msg : preserves_store (console_error msg).
Proof. now apply client_preserves. Qed.

Lemma getItem_preserves key : preserves_store (localStorage_getItem key).
Proof. now apply client_preserves. Qed.

Lemma setItem_preserves key v : preserves_store (localStorage_setItem key v).
Proof. now apply client_preserves. Qed.

Lemma removeItem_preserves key : preserves_store (localStorage_removeItem key).
Proof. now apply client_preserves. Qed.

Lemma Date_now_preserves : preserves_store Date_now.
Proof. now apply client_preserves. Qed.

Lemma generateSessionToken_preserves : preserves_store generateSessionToken.
Proof. now apply client_preserves. Qed.

Create HintDb store.

#[local] Hint Resolve ret_preserves bind_preserves try_catch_preserves
  for_of_preserves get_preserves getAll_preserves deleteById_preserves
  deleteByToken_preserves insert_preserves console_error_preserves
  getItem_preserves setItem_preserves removeItem_preserves Date_now_preserves
  generateSessionToken_preserves : store.

#[local] Hint Extern 2 (preserves_store (if ?b then _ else _)) =>
  destruct b : store.
#[local] Hint Extern 2 (preserves_store (match ?x with _ => _ end)) =>
  destruct x : store.
#[local] Hint Extern 1 (forall _, preserves_store _) => intro : store.

Lemma getStoredPasswordHash_preserves : preserves_store getStoredPasswordHash.
Proof.
  unfold getStoredPasswordHash, getAdminSessionByUserId. auto 10 with store.
Qed.

Lemma storePasswordHash_preserves hash :
  preserves_store (storePasswordHash hash).
Proof.
  unfold storePasswordHash, getAdminSessionByUserId. auto 10 with store.
Qed.

Lemma logoutAdmin_preserves : preserves_store logoutAdmin.
Proof. unfold logoutAdmin. auto 10 with store. Qed.

Lemma createAdminSession_preserves : preserves_store createAdminSession.
Proof. unfold createAdminSession. auto 12 with store. Qed.

#[local] Hint Resolve getStoredPasswordHash_preserves
  storePasswordHash_preserves logoutAdmin_preserves
  createAdminSession_preserves : store.

(** Every public operation keeps ids unique and below the server's next
    id, whatever the store's failures. *)
Theorem public_operations_preserve_store :
  preserves_store isPasswordSet /\
  (forall password, preserves_store (authenticateAdmin password)) /\
  (forall sessionToken, preserves_store (validateSession sessionToken)) /\
  preserves_store resetAdminPassword /\
  preserves_store logoutAdmin /\
  preserves_store cleanupExpiredSessions.
Proof.
  repeat apply conj.
  - unfold isPasswordSet. auto with store.
  - intros pw. unfold authenticateAdmin. auto 10 with store.
  - intros arg. unfold validateSession, or_else, getAdminSessionBySessionToken.
    auto 12 with store.
  - unfold resetAdminPassword, getAdminSessionByUserId. auto 10 with store.
  - auto with store.
  - unfold cleanupExpiredSessions. auto 12 with store.
Qed.

(** No public operation lets an error of the store escape. *)
Theorem public_operations_never_throw :
  never_throws isPasswordSet /\
  (forall password, never_throws (authenticateAdmin password)) /\
  (forall sessionToken, never_throws (validateSession sessionToken)) /\
  never_throws resetAdminPassword /\
  never_throws logoutAdmin /\
  never_throws cleanupExpiredSessions.
Proof.
  repeat apply conj.
  - apply isPasswordSet_never_throws.
  - apply authenticateAdmin_never_throws.
  - apply validateSession_never_throws.
  - apply resetAdminPassword_never_throws.
  - apply logoutAdmin_never_throws.
  - apply cleanupExpiredSessions_never_throws.
Qed.

(** *** What each operation does, ready for the claims *)



(** After a successful login the table is some password-hash rows
    followed by the one new session row. *)
Lemma authenticateAdmin_table pw w tok w' :
  authenticateAdmin pw w = (Returned (Some tok), w') ->
  exists hashes i,
    table w' = hashes ++ [admin_session_row i tok (expiry_at (clock w))] /\
    (forall r, In r hashes -> is_password_hash_record r = true) /\
    JS.truthy tok = true /\ local_slot w' = Some tok /\ clock w' = clock w.
Proof.
  intros H. apply authenticateAdmin_success in H as (_ & w1 & Hrun & Hc & _).
  apply createAdminSession_success in Hrun as (Htok & Ht & Hslot & Hc').
  exists (remove_ids (map id (real_sessions (table w1))) (table w1)),
         (next_id w1).
  rewrite <- Hc. split; [exact Ht|]. split.
  - intros r Hr. apply In_remove_ids in Hr as [Hin Hid].
    destruct (is_password_hash_record r) eqn:E; [reflexivity|].
    exfalso. apply Hid. apply in_map. apply filter_In. now rewrite E.
  - rewrite Htok at 1. rewrite fresh_token_truthy. now rewrite Hc' .
Qed.

Lemma real_sessions_hashes hashes :
  (forall r, In r hashes -> is_password_hash_record r = true) ->
  real_sessions hashes = [].
Proof.
  intros H. apply filter_nil_iff. intros r Hr. now rewrite (H r Hr).
Qed.

Lemma validateSession_expired
  (w : World) (sessionToken : option jsstring) (token : jsstring)
  (r : AdminSession) (rest : list AdminSession) (e : Z) :
  effective_token sessionToken w = Some token ->
  JS.truthy token = true ->
  outages w = [] ->
  unique_ids (table w) ->
  filter (has_token token) (table w) = r :: rest ->
  is_password_hash_record r = false ->
  JS.parseInt (expires_at r) = Some e ->
  (e < floor_seconds (clock w))%Z ->
  exists w',
    validateSession sessionToken w = (Returned false, w') /\
    local_slot w' = None /\
    (forall x, In x (table w') <-> In x (table w) /\ x <> r).
Proof.
  intros Htok Htruthy Hup Huniq Hfound Hreal Hparse Hpast.
  rewrite validateSession_run, Htok, Htruthy. cbn [negb].
  rewrite (advance_up w Hup), Hup, Hfound, Hreal, Hparse.
  cbn [next_fails JS.gt_number].
  apply Z.ltb_lt in Hpast. rewrite Hpast.
  eexists. split; [reflexivity|]. split; [apply local_slot_clear|].
  intros x. cbn [table clear_slot set_storage set_table].
  rewrite filter_In. unfold has_id.
  assert (Hr : In r (table w)).
  { assert (H : In r (filter (has_token token) (table w)))
      by (rewrite Hfound; now left).
    now apply filter_In in H. }
  split; intros [Hx Hne]; split; trivial.
  - intros ->. now rewrite Nat.eqb_refl in Hne.
  - apply negb_true_iff, Nat.eqb_neq. intros Hid. apply Hne.
    now apply (unique_ids_inj (table w)).
Qed.

Lemma validateSession_live
  (w : World) (sessionToken : option jsstring) (token : jsstring)
  (r : AdminSession) (rest : list AdminSession) :
  effective_token sessionToken w = Some token ->
  JS.truthy token = true ->
  next_call_answered w = true ->
  filter (has_token token) (table w) = r :: rest ->
  is_password_hash_record r = false ->
  (forall e, JS.parseInt (expires_at r) = Some e ->
             (floor_seconds (clock w) <= e)%Z) ->
  exists w',
    validateSession sessionToken w = (Returned true, w') /\
    table w' = table w /\ storage w' = storage w.
Proof.
  intros Htok Htruthy Hans Hfound Hreal Hlive.
  rewrite validateSession_run, Htok, Htruthy. cbn [negb].
  unfold next_call_answered in Hans. apply negb_true_iff in Hans.
  rewrite Hans, Hfound, Hreal.
  replace (JS.gt_number _ _) with false.
  - eexists. repeat split.
  - symmetry. destruct (JS.parseInt (expires_at r)) as [e|]; [|reflexivity].
    cbn. apply Z.ltb_ge. now apply Hlive.
Qed.

Lemma floor_seconds_mono a b : (a <= b)%Z -> (floor_seconds a <= floor_seconds b)%Z.
Proof. intros H. unfold floor_seconds. apply Z.div_le_mono; lia. Qed.

Lemma validateSession_after_login
  (w w' w'' : World) (password token : jsstring) :
  authenticateAdmin password w = (Returned (Some token), w') ->
  (forall r, In r (table w') -> is_password_hash_record r = true ->
             session_token r <> token) ->
  table w'' = table w' ->
  next_call_answered w'' = true ->
  (clock w'' <= clock w + SESSION_DURATION_MS)%Z ->
  exists w3,
    validateSession (Some token) w'' = (Returned true, w3) /\
    table w3 = table w''.
Proof.
  intros Hlogin Hfresh Hsame Hans Hclock.
  apply authenticateAdmin_table in Hlogin
    as (hashes & i & Ht & Hh & Htruthy & _).
  destruct (validateSession_live w'' (Some token) token
              (admin_session_row i token (expiry_at (clock w))) [])
    as (w3 & Hrun & Htab & _); trivial.
  - cbn. now rewrite Htruthy.
  - rewrite Hsame, Ht, filter_app. cbn [filter].
    replace (filter (has_token token) hashes) with (@nil AdminSession).
    + unfold has_token at 1. cbn [session_token admin_session_row].
      now rewrite JSFacts.eqb_refl.
    + symmetry. apply filter_nil_iff. intros r Hr.
      apply JSFacts.eqb_neq. apply Hfresh; [|now apply Hh].
      rewrite Ht. apply in_or_app. now left.
  - intros e. cbn [expires_at admin_session_row]. unfold expiry_at.
    rewrite JSFacts.parseInt_Number_toString. intros He.
    inversion He; subst e. now apply floor_seconds_mono.
  - now exists w3.
Qed.

Lemma expired_at_spec now r :
  expired_at now r = true <->
  user_id r <> PASSWORD_HASH_USER_ID /\
  exists e, JS.parseInt (expires_at r) = Some e /\ (e < now)%Z.
Proof.
  unfold expired_at, is_password_hash_record.
  rewrite andb_true_iff, negb_true_iff, JSFacts.eqb_neq.
  split; intros [Hu He]; split; trivial.
  - destruct (JS.parseInt (expires_at r)) as [e|]; [|discriminate].
    exists e. split; [reflexivity|]. now apply Z.ltb_lt.
  - destruct He as (e & -> & He). now apply Z.ltb_lt.
Qed.


Lemma resetAdminPassword_up w :
  outages w = [] ->
  unique_ids (table w) ->
  exists w',
    resetAdminPassword w = (Returned true, w') /\
    table w' =
      filter (fun r => negb (is_password_hash_record r) &&
                       negb (holds_slot_token w r)) (table w).
Proof.
  intros Hup Huniq. unfold resetAdminPassword, try_catch. rewrite bind_run.
  unfold getAdminSessionByUserId. rewrite store_call_up by exact Hup.
  cbn [fst snd]. rewrite bind_run.
  rewrite (for_of_delete_up (fun _ => true)) by (reflexivity || exact Hup).
  rewrite filter_all by reflexivity.
  change (has_user_id PASSWORD_HASH_USER_ID) with is_password_hash_record.
  rewrite (remove_ids_of_rows _ _ Huniq).
  rewrite bind_run, logoutAdmin_eq. cbn [ret].
  eexists. split; [reflexivity|].
  unfold holds_slot_token, local_slot. cbn [storage set_table].
  cbn [table clear_slot set_storage].
  destruct (lookup_key SESSION_TOKEN_KEY (storage w)) as [token|].
  - destruct (JS.truthy token); cbn [andb negb].
    + cbn [outages set_table]. rewrite Hup. cbn [next_fails table set_table advance set_outages].
      rewrite filter_twice. reflexivity.
    + apply filter_ext. intros r. now rewrite andb_true_r.
  - apply filter_ext. intros r. now rewrite andb_true_r.
Qed.

Lemma read_failure_restarts_setup (w : World) (password : jsstring) :
  all_whitespace password = false ->
  outages w = [0] ->
  exists token w', authenticateAdmin password w = (Returned (Some token), w').
Proof.
  intros Hpw Hout. unfold authenticateAdmin. fold (is_blank password).
  rewrite is_blank_spec, Hpw.
  rewrite bind_run, getStoredPasswordHash_run, Hout. cbn [next_fails].
  match goal with |- context [bind ?m ?k ?w0] =>
    destruct (bootstrap_up password w0) as (w' & Hrun & _) end.
  - cbn. now rewrite Hout.
  - eexists. exists w'. exact Hrun.
Qed.

(** Rows the sweep does not hold expired are never deleted by it, even
    when the store fails part-way. *)
Lemma cleanup_spares_live (w : World) (r : AdminSession) :
  unique_ids (table w) ->
  In r (table w) ->
  expired_at (floor_seconds (clock w)) r = false ->
  exists w', cleanupExpiredSessions w = (Returned tt, w') /\ In r (table w').
Proof.
  intros Huniq Hr Hlive.
  destruct (cleanupExpiredSessions_any w)
    as (done & rest & w' & Hrun & Hf & Ht & _).
  exists w'. split; [exact Hrun|]. rewrite Ht. apply In_remove_ids.
  split; [exact Hr|]. intros Hid.
  apply in_map_iff in Hid as (x & Hid & Hx).
  assert (Hx' : In x (filter (expired_at (floor_seconds (clock w))) (table w)))
    by (rewrite Hf; apply in_or_app; now left).
  apply filter_In in Hx' as [Hx' Hexp].
  assert (x = r) by now apply (unique_ids_inj (table w)).
  subst x. congruence.
Qed.

Lemma cleanup_only_deletes (w : World) (r : AdminSession) :
  In r (table (snd (cleanupExpiredSessions w))) -> In r (table w).
Proof.
  destruct (cleanupExpiredSessions_any w)
    as (done & rest & w' & -> & _ & Ht & _).
  cbn [snd]. rewrite Ht. intros H. now apply In_remove_ids in H.
Qed.

(* ================================================================== *)
(** ** The claims *)
(* ================================================================== *)

Ltac by_running := vm_compute; reflexivity.

Ltac by_mismatch :=
  let H := fresh in intros H; vm_compute in H; discriminate H.

Ltac distinct_ids :=
  unfold unique_ids; vm_compute;
  repeat (constructor; [cbn; intuition discriminate|]); constructor.

(** C1 (the code departs from the claim).  The claim: a failed read of
    the stored password hash makes [authenticateAdmin] return absent.
    On a store that holds the hash of "secret" and fails only its next
    call (the hash read), [authenticateAdmin("wrong")] takes the failed
    read for "no password set", replaces the stored hash by the hash of
    "wrong", opens a session and returns its token. *)
Theorem read_failure_lets_any_password_in :
  stored_hash (table secret_world) = Some (hashPassword (JS.lit "secret")) /\
  hashPassword (JS.lit "wrong") <> hashPassword (JS.lit "secret") /\
  exists token w',
    authenticateAdmin (JS.lit "wrong") (set_outages [0] secret_world)
    = (Returned (Some token), w') /\
    stored_hash (table w') = Some (hashPassword (JS.lit "wrong")).
Proof.
  split; [by_running|]. split; [by_mismatch|].
  eexists. eexists. split; by_running.
Qed.




(** C3: after every successful [authenticateAdmin] exactly one row that
    is not a password-hash row is left, the new session (so every earlier
    session row was deleted first); and a token issued by an earlier
    successful login, other than the new token, no longer validates. *)
Theorem login_leaves_a_single_session
  (w w' : World) (password token : jsstring) :
  authenticateAdmin password w = (Returned (Some token), w') ->
  (exists r,
     real_sessions (table w') = [r] /\
     session_token r = token /\ user_id r = JS.lit "admin") /\
  (forall w0 w1 password0 old w'',
     authenticateAdmin password0 w0 = (Returned (Some old), w1) ->
     old <> token ->
     table w'' = table w' ->
     exists w3, validateSession (Some old) w'' = (Returned false, w3)).
Proof.
  intros Hnew.
  apply authenticateAdmin_table in Hnew as (hashes & i & Ht & Hh & _).
  split.
  - exists (admin_session_row i token (expiry_at (clock w))).
    rewrite Ht, real_sessions_app, (real_sessions_hashes _ Hh).
    repeat split.
  - intros w0 w1 password0 old w'' Hold Hneq Hsame.
    apply authenticateAdmin_table in Hold as (_ & _ & _ & _ & Hold & _).
    rewrite validateSession_run.
    unfold effective_token. rewrite Hold. cbv iota beta.
    rewrite Hold. cbn [negb].
    destruct (next_fails (outages w'')); [eexists; reflexivity|].
    rewrite Hsame, Ht, filter_app. cbn [filter].
    replace (has_token old (admin_session_row i token (expiry_at (clock w))))
      with false
      by (symmetry; apply JSFacts.eqb_neq; cbn; congruence).
    rewrite app_nil_r.
    destruct (filter (has_token old) hashes) as [|r rest] eqn:Hf;
      [eexists; reflexivity|].
    assert (Hr : In r (filter (has_token old) hashes))
      by (rewrite Hf; now left).
    apply filter_In in Hr as [Hr _]. rewrite (Hh r Hr).
    eexists; reflexivity.
Qed.

Lemma second_login_witness :
  (exists r,
     real_sessions (table (after (authenticateAdmin (JS.lit "secret"))
                                 second_login_world)) = [r] /\
     session_token r = fresh_token second_login_world /\
     user_id r = JS.lit "admin") /\
  exists w3,
    validateSession (Some secret_token)
      (after (authenticateAdmin (JS.lit "secret")) second_login_world)
    = (Returned false, w3).
Proof.
  destruct (login_leaves_a_single_session
              second_login_world
              (after (authenticateAdmin (JS.lit "secret")) second_login_world)
              (JS.lit "secret") (fresh_token second_login_world))
    as [Hone Hold]; [by_running|].
  split; [exact Hone|].
  apply (Hold empty_world secret_world (JS.lit "secret") secret_token);
    [by_running|by_mismatch|by_running].
Defined.

(** C4: when the lookup of the token finds a row whose user id is the
    password-hash sentinel, [validateSession] clears the local slot and
    returns false, leaving the table as it is. *)
Theorem validateSession_rejects_password_hash_record
  (w : World) (sessionToken : option jsstring) (token : jsstring)
  (r : AdminSession) (rest : list AdminSession) :
  effective_token sessionToken w = Some token ->
  JS.truthy token = true ->
  next_call_answered w = true ->
  filter (has_token token) (table w) = r :: rest ->
  user_id r = PASSWORD_HASH_USER_ID ->
  exists w',
    validateSession sessionToken w = (Returned false, w') /\
    local_slot w' = None /\
    table w' = table w.
Proof.
  intros Htok Htruthy Hans Hfound Huid.
  rewrite validateSession_run, Htok, Htruthy. cbn [negb].
  unfold next_call_answered in Hans. apply negb_true_iff in Hans.
  rewrite Hans, Hfound.
  unfold is_password_hash_record. rewrite Huid, JSFacts.eqb_refl.
  eexists. split; [reflexivity|]. split; [apply local_slot_clear|reflexivity].
Qed.

Lemma hash_as_token_witness :
  exists w',
    validateSession (Some secret_hash) secret_world = (Returned false, w') /\
    local_slot w' = None /\
    table w' = table secret_world.
Proof.
  apply (validateSession_rejects_password_hash_record
           secret_world (Some secret_hash) secret_hash
           (password_hash_row 1 secret_hash) []); by_running.
Defined.

(** C5: for a token whose lookup finds a row that is not the
    password-hash row: when the row's [expires_at], parsed as an integer,
    is strictly below the current time in seconds, [validateSession]
    deletes that row (and no other), clears the local slot and returns
    false; otherwise it returns true and leaves table and local storage
    as they are.  In particular the token of a successful login validates
    at any time up to the expiry that login wrote.  (The store answers
    the calls made; ids are unique; the fresh token is not the stored
    hash.) *)
Theorem validateSession_checks_expiry :
  (forall w sessionToken token r rest e,
     effective_token sessionToken w = Some token ->
     JS.truthy token = true ->
     outages w = [] ->
     unique_ids (table w) ->
     filter (has_token token) (table w) = r :: rest ->
     is_password_hash_record r = false ->
     JS.parseInt (expires_at r) = Some e ->
     (e < floor_seconds (clock w))%Z ->
     exists w',
       validateSession sessionToken w = (Returned false, w') /\
       local_slot w' = None /\
       (forall x, In x (table w') <-> In x (table w) /\ x <> r)) /\
  (forall w sessionToken token r rest,
     effective_token sessionToken w = Some token ->
     JS.truthy token = true ->
     next_call_answered w = true ->
     filter (has_token token) (table w) = r :: rest ->
     is_password_hash_record r = false ->
     (forall e, JS.parseInt (expires_at r) = Some e ->
                (floor_seconds (clock w) <= e)%Z) ->
     exists w',
       validateSession sessionToken w = (Returned true, w') /\
       table w' = table w /\ storage w' = storage w) /\
  (forall w w' w'' password token,
     authenticateAdmin password w = (Returned (Some token), w') ->
     (forall r, In r (table w') -> is_password_hash_record r = true ->
                session_token r <> token) ->
     table w'' = table w' ->
     next_call_answered w'' = true ->
     (clock w'' <= clock w + SESSION_DURATION_MS)%Z ->
     exists w3,
       validateSession (Some token) w'' = (Returned true, w3) /\
       table w3 = table w'').
Proof.
  split; [exact validateSession_expired|].
  split; [exact validateSession_live|exact validateSession_after_login].
Qed.

Lemma expiry_witness :
  (exists w',
     validateSession (Some secret_token) two_days_later
     = (Returned false, w') /\
     local_slot w' = None /\
     (forall x, In x (table w') <->
                In x (table two_days_later) /\
                x <> admin_session_row 2 secret_token
                       (expiry_at (clock empty_world)))) /\
  (exists w',
     validateSession None secret_world = (Returned true, w') /\
     table w' = table secret_world /\ storage w' = storage secret_world) /\
  (exists w3,
     validateSession (Some secret_token) secret_world = (Returned true, w3) /\
     table w3 = table secret_world).
Proof.
  split; [|split].
  - apply (proj1 validateSession_checks_expiry
             two_days_later (Some secret_token) secret_token
             (admin_session_row 2 secret_token (expiry_at (clock empty_world)))
             [] 1700086400%Z); try by_running.
    distinct_ids.
  - apply (proj1 (proj2 validateSession_checks_expiry)
             secret_world None secret_token
             (admin_session_row 2 secret_token (expiry_at (clock empty_world)))
             []); try by_running.
    intros e He. vm_compute in He. inversion He; subst e. discriminate.
  - apply (proj2 (proj2 validateSession_checks_expiry)
             empty_world secret_world secret_world
             (JS.lit "secret") secret_token); try by_running.
    + intros r Hr Hhash. vm_compute in Hr.
      destruct Hr as [<-|[<-|[]]]; [by_mismatch|discriminate Hhash].
    + discriminate.
Defined.

(** The rejections that do hold: [authenticateAdmin] returns absent and
    changes nothing at all when the password is empty or all white
    space; and when the stored hash is read and differs from the digest
    of the password it returns absent with the table, the ids, local
    storage, the random source and the console as they were. *)
Theorem authenticateAdmin_rejection_leaves_store
  (w : World) (password : jsstring) :
  (all_whitespace password = true ->
   authenticateAdmin password w = (Returned None, w)) /\
  (forall storedHash,
     next_call_answered w = true ->
     stored_hash (table w) = Some storedHash ->
     hashPassword password <> storedHash ->
     exists w',
       authenticateAdmin password w = (Returned None, w') /\
       table w' = table w /\ next_id w' = next_id w /\
       storage w' = storage w /\ entropy w' = entropy w /\
       console w' = console w).
Proof.
  unfold authenticateAdmin. fold (is_blank password). rewrite is_blank_spec.
  split.
  - now intros ->.
  - intros h Hans Hstored Hneq.
    destruct (all_whitespace password);
      [exists w; repeat split; reflexivity|].
    unfold next_call_answered in Hans. apply negb_true_iff in Hans.
    rewrite bind_run, getStoredPasswordHash_run, Hans, Hstored.
    apply JSFacts.eqb_neq in Hneq. rewrite Hneq. cbn [negb].
    eexists. split; [reflexivity|]. cbn. auto 10.
Qed.

Lemma rejection_witness :
  authenticateAdmin (JS.lit "   ") secret_world = (Returned None, secret_world)
  /\
  exists w',
    authenticateAdmin (JS.lit "wrong") secret_world = (Returned None, w') /\
    table w' = table secret_world /\ next_id w' = next_id secret_world /\
    storage w' = storage secret_world /\ entropy w' = entropy secret_world /\
    console w' = console secret_world.
Proof.
  split.
  - apply (proj1 (authenticateAdmin_rejection_leaves_store
                    secret_world (JS.lit "   "))). by_running.
  - apply (proj2 (authenticateAdmin_rejection_leaves_store
                    secret_world (JS.lit "wrong")) secret_hash);
      [by_running|by_running|by_mismatch].
Defined.

(** C6 (the code departs from the claim).  The claim: whenever a
    password-hash record exists and the digest of the submitted password
    differs from the stored digest, [authenticateAdmin] returns absent
    with no store mutation.  On a store that holds the hash of "secret"
    and the admin's session and fails only its next call (the read of
    the hash), [authenticateAdmin("wrong")] returns a token: the hash
    row and the session are deleted, and the hash of "wrong" and a new
    session are inserted. *)
Theorem wrong_password_rewrites_store_when_read_fails :
  table secret_world
  = [ password_hash_row 1 secret_hash;
      admin_session_row 2 secret_token (expiry_at (clock empty_world)) ] /\
  stored_hash (table secret_world) = Some secret_hash /\
  hashPassword (JS.lit "wrong") <> secret_hash /\
  all_whitespace (JS.lit "wrong") = false /\
  exists token w',
    authenticateAdmin (JS.lit "wrong") (set_outages [0] secret_world)
    = (Returned (Some token), w') /\
    table w'
    = [ password_hash_row 3 (hashPassword (JS.lit "wrong"));
        admin_session_row 4 token (expiry_at (clock empty_world)) ] /\
    local_slot w' = Some token.
Proof.
  split; [by_running|]. split; [by_running|]. split; [by_mismatch|].
  split; [by_running|].
  eexists. eexists. split; [by_running|]. split; by_running.
Qed.



(** C8: [logoutAdmin] always returns with the local slot cleared -- with
    no token in the slot, with the session deleted, and with the
    deletion failing (the table is then left as it was) -- and
    [validateSession] without an argument then returns false. *)
Theorem logoutAdmin_always_clears_slot (w : World) :
  exists w',
    logoutAdmin w = (Returned tt, w') /\
    local_slot w' = None /\
    validateSession None w' = (Returned false, w') /\
    (local_slot w = None -> table w' = table w) /\
    (next_call_answered w = false -> table w' = table w) /\
    (forall token,
       local_slot w = Some token -> JS.truthy token = true ->
       next_call_answered w = true ->
       table w' = filter (fun r => negb (has_token token r)) (table w)).
Proof.
  rewrite logoutAdmin_eq. eexists. split; [reflexivity|].
  split; [apply local_slot_clear|].
  split; [apply validateSession_no_token, local_slot_clear|].
  unfold next_call_answered.
  destruct (local_slot w) as [token|]; cbn [clear_slot table set_storage].
  - split; [discriminate|]. split.
    + intros H. apply negb_false_iff in H. rewrite H.
      now destruct (JS.truthy token).
    + intros t Ht Htr H. inversion Ht; subst t. apply negb_true_iff in H.
      now rewrite Htr, H.
  - split; [reflexivity|]. split; [reflexivity|discriminate].
Qed.

Lemma logout_witness :
  exists w',
    logoutAdmin (set_outages [0] secret_world) = (Returned tt, w') /\
    local_slot w' = None /\
    validateSession None w' = (Returned false, w') /\
    table w' = table secret_world.
Proof.
  destruct (logoutAdmin_always_clears_slot (set_outages [0] secret_world))
    as (w' & Hrun & Hslot & Hvalid & _ & Hfailed & _).
  exists w'. repeat split; trivial. apply Hfailed. by_running.
Defined.

(** C9: the sweep only ever deletes rows, and never a row that is a
    password-hash row or whose [expires_at] is not strictly in the past
    (also when the store fails part-way); with the store up it deletes
    exactly the rows whose user id is not the sentinel and whose
    [expires_at], parsed as an integer, is strictly below the current
    time in seconds, keeping all other rows unchanged and in order. *)
Theorem cleanup_deletes_exactly_the_expired (w : World) :
  unique_ids (table w) ->
  exists w',
    cleanupExpiredSessions w = (Returned tt, w') /\
    incl (table w') (table w) /\
    (forall r,
       In r (table w) ->
       expired_at (floor_seconds (clock w)) r = false ->
       In r (table w')) /\
    (outages w = [] ->
     table w' =
       filter (fun r => negb (expired_at (floor_seconds (clock w)) r))
              (table w) /\
     forall r,
       In r (table w) ->
       (~ In r (table w') <->
        user_id r <> PASSWORD_HASH_USER_ID /\
        exists e, JS.parseInt (expires_at r) = Some e /\
                  (e < floor_seconds (clock w))%Z)).
Proof.
  intros Huniq.
  destruct (cleanupExpiredSessions_any w)
    as (done & rest & w' & Hrun & _).
  exists w'. split; [exact Hrun|]. split; [|split].
  - intros r Hr. apply cleanup_only_deletes. now rewrite Hrun.
  - intros r Hr Hlive.
    destruct (cleanup_spares_live w r Huniq Hr Hlive) as (w2 & Hrun2 & Hin).
    rewrite Hrun in Hrun2. now inversion Hrun2; subst w2.
  - intros Hup. rewrite (cleanupExpiredSessions_up w Hup) in Hrun.
    inversion Hrun; subst w'. cbn [table set_table].
    rewrite (remove_ids_of_rows _ _ Huniq). split; [reflexivity|].
    intros r Hr. rewrite <- expired_at_spec, filter_In, negb_true_iff.
    destruct (expired_at (floor_seconds (clock w)) r); split; intros H;
      try reflexivity; try discriminate.
    + intros [_ H']. discriminate.
    + exfalso. apply H. auto.
Qed.

Lemma sweep_witness :
  exists w',
    cleanupExpiredSessions sweep_world = (Returned tt, w') /\
    table w' =
      [ password_hash_row 1 secret_hash;
        admin_session_row 3 (JS.lit "bb") (JS.lit "1800000000");
        admin_session_row 4 (JS.lit "cc") (JS.lit "never") ].
Proof.
  destruct (cleanup_deletes_exactly_the_expired sweep_world)
    as (w' & Hrun & _ & _ & Hexact); [distinct_ids|].
  exists w'. split; [exact Hrun|].
  destruct Hexact as [Ht _]; [by_running|]. rewrite Ht. by_running.
Defined.

(** C10: a row that is not the password-hash row and whose [expires_at]
    does not parse to an integer never expires: [validateSession] on its
    token returns true whatever the clock, and the sweep never deletes
    it, because [now > NaN] is false.  The empty string and a non-numeric
    string are such values. *)
Theorem unparsable_expiry_never_expires :
  (forall w sessionToken token r rest,
     effective_token sessionToken w = Some token ->
     JS.truthy token = true ->
     next_call_answered w = true ->
     filter (has_token token) (table w) = r :: rest ->
     is_password_hash_record r = false ->
     JS.parseInt (expires_at r) = None ->
     exists w',
       validateSession sessionToken w = (Returned true, w') /\
       table w' = table w) /\
  (forall w r,
     unique_ids (table w) ->
     In r (table w) ->
     is_password_hash_record r = false ->
     JS.parseInt (expires_at r) = None ->
     exists w',
       cleanupExpiredSessions w = (Returned tt, w') /\ In r (table w')) /\
  JS.parseInt [] = None /\
  JS.parseInt (JS.lit "never") = None /\
  (forall now, JS.gt_number now None = false).
Proof.
  split; [|split].
  - intros w arg token r rest Htok Htruthy Hans Hfound Hreal Hnan.
    destruct (validateSession_live w arg token r rest)
      as (w' & Hrun & Ht & _); trivial.
    + intros e He. congruence.
    + now exists w'.
  - intros w r Huniq Hr _ Hnan. apply cleanup_spares_live; trivial.
    unfold expired_at. rewrite Hnan. cbn. apply andb_false_r.
  - repeat split.
Qed.

Lemma never_expires_witness :
  (exists w',
     validateSession (Some (JS.lit "cc")) sweep_world = (Returned true, w') /\
     table w' = table sweep_world) /\
  (exists w',
     cleanupExpiredSessions sweep_world = (Returned tt, w') /\
     In (admin_session_row 4 (JS.lit "cc") (JS.lit "never")) (table w')).
Proof.
  split.
  - apply (proj1 unparsable_expiry_never_expires
             sweep_world (Some (JS.lit "cc")) (JS.lit "cc")
             (admin_session_row 4 (JS.lit "cc") (JS.lit "never")) []);
      by_running.
  - apply (proj1 (proj2 unparsable_expiry_never_expires) sweep_world);
      [distinct_ids| |by_running|by_running].
    cbn. auto 10.
Defined.

(* ================================================================== *)
(** ** Beyond the claims: the rest of the module *)
(* ================================================================== *)

(** *** The shape of digests and tokens *)

Lemma hexdigit_lower (d : N) : (d < 16)%N -> is_lower_hex (JS.hexdigit d) = true.
Proof.
  intros Hd. unfold JS.hexdigit, is_lower_hex.
  destruct (N.ltb_spec d 10).
  - apply orb_true_iff. left. apply andb_true_iff.
    split; apply N.leb_le; lia.
  - apply orb_true_iff. right. apply andb_true_iff.
    split; apply N.leb_le; lia.
Qed.

Lemma byte_hex (b : N) :
  (b < 256)%N ->
  exists hi lo,
    JS.padStart0 2 (JS.toString16 b) = [hi; lo] /\
    is_lower_hex hi = true /\ is_lower_hex lo = true.
Proof.
  intros Hb. unfold JS.toString16.
  destruct (N.ltb_spec b 16).
  - exists 48%N, (JS.hexdigit b). repeat split. now apply hexdigit_lower.
  - exists (JS.hexdigit (b / 16)), (JS.hexdigit (b mod 16)).
    repeat split; apply hexdigit_lower.
    + apply N.Div0.div_lt_upper_bound. lia.
    + apply N.mod_lt. lia.
Qed.

Lemma hex_of_bytes_shape (bytes : list N) :
  Forall (fun b => (b < 256)%N) bytes ->
  length (JS.hex_of_bytes bytes) = 2 * length bytes /\
  forallb is_lower_hex (JS.hex_of_bytes bytes) = true.
Proof.
  unfold JS.hex_of_bytes.
  induction 1 as [|b bytes Hb _ [IHlen IHhex]]; [now split|].
  cbn [flat_map]. destruct (byte_hex b Hb) as (hi & lo & -> & Hhi & Hlo).
  split.
  - cbn [length app]. rewrite IHlen. cbn [length]. lia.
  - cbn [app forallb]. now rewrite Hhi, Hlo, IHhex.
Qed.

Lemma be_bytes_shape (n : nat) : forall x,
  length (SHA256.be_bytes n x) = n /\
  Forall (fun b => (b < 256)%N) (SHA256.be_bytes n x).
Proof.
  induction n as [|n IH]; intros x; cbn [SHA256.be_bytes]; [now split|].
  destruct (IH (x / 256)%N) as [Hlen Hlt]. split.
  - rewrite length_app, Hlen. cbn. lia.
  - apply Forall_app. split; [exact Hlt|].
    constructor; [|constructor]. apply N.mod_lt. lia.
Qed.

Lemma blocks_length (n : nat) : forall h bytes,
  length h = 8 -> length (SHA256.blocks n h bytes) = 8.
Proof.
  induction n as [|n IH]; intros h bytes Hh; cbn [SHA256.blocks];
    [exact Hh|].
  apply IH. reflexivity.
Qed.

Lemma digest_shape (msg : list N) :
  length (SHA256.digest msg) = 32 /\
  Forall (fun b => (b < 256)%N) (SHA256.digest msg).
Proof.
  unfold SHA256.digest. cbv zeta.
  set (h := SHA256.blocks _ _ _).
  assert (Hh : length h = 8) by (apply blocks_length; reflexivity).
  split.
  - rewrite (flat_map_constant_length (c := 4)).
    + rewrite Hh. reflexivity.
    + intros x _. apply be_bytes_shape.
  - apply Forall_flat_map. apply Forall_forall. intros x _.
    apply be_bytes_shape.
Qed.

Lemma random_bytes_shape (n : nat) (source : list N) :
  length (random_bytes n source) = n /\
  Forall (fun b => (b < 256)%N) (random_bytes n source).
Proof.
  unfold random_bytes. split.
  - rewrite length_map, length_firstn, length_app, repeat_length. lia.
  - apply Forall_map. apply Forall_forall. intros b _.
    apply N.mod_lt. lia.
Qed.

Lemma fresh_token_hex64 (w : World) : is_hex64 (fresh_token w).
Proof.
  unfold is_hex64, fresh_token.
  destruct (random_bytes_shape 32 (entropy w)) as [Hlen Hlt].
  destruct (hex_of_bytes_shape _ Hlt) as [Hl Hh].
  rewrite Hl, Hlen. now split.
Qed.

(** X1: for every password, [hashPassword] returns 64 lowercase
    hexadecimal digits; in particular the digest is never the empty
    string, so a stored hash is always truthy. *)
Theorem hashPassword_is_hex64 (password : jsstring) :
  is_hex64 (hashPassword password) /\ JS.truthy (hashPassword password) = true.
Proof.
  unfold hashPassword. cbv zeta.
  destruct (digest_shape (JS.utf8_encode password)) as [Hlen Hlt].
  destruct (hex_of_bytes_shape _ Hlt) as [Hl Hh].
  rewrite Hlen in Hl. split; [now split|].
  destruct (JS.hex_of_bytes _); [discriminate Hl|reflexivity].
Qed.

(** X2: [generateSessionToken] consumes 32 random bytes and returns 64
    lowercase hexadecimal digits, and every token [authenticateAdmin]
    returns has that shape. *)
Theorem session_tokens_are_hex64 :
  (forall w,
     exists token,
       generateSessionToken w
       = (Returned token, set_entropy (skipn 32 (entropy w)) w) /\
       is_hex64 token) /\
  (forall password w token w',
     authenticateAdmin password w = (Returned (Some token), w') ->
     is_hex64 token).
Proof.
  split.
  - intros w. exists (fresh_token w). split; [reflexivity|].
    apply fresh_token_hex64.
  - intros pw w tok w' H.
    apply authenticateAdmin_success in H as (_ & w1 & Hrun & _).
    apply createAdminSession_success in Hrun as (-> & _).
    apply fresh_token_hex64.
Qed.

Lemma secret_token_is_hex64 : is_hex64 secret_token.
Proof.
  apply (proj2 session_tokens_are_hex64
           (JS.lit "secret") empty_world secret_token secret_world).
  by_running.
Defined.

(** *** Operations that only delete *)

Lemma only_deletes_ret {A} (a : A) : only_deletes (ret a).
Proof. intros w. exists (fun _ => true). cbn. now rewrite filter_all. Qed.

Lemma only_deletes_bind {A B} (m : M A) (k : A -> M B) :
  only_deletes m -> (forall a, only_deletes (k a)) -> only_deletes (bind m k).
Proof.
  intros Hm Hk w. unfold bind. destruct (Hm w) as [f Hf].
  destruct (m w) as [[a|e] w1]; cbn [snd] in *; [|now exists f].
  destruct (Hk a w1) as [g Hg]. exists (fun r => f r && g r).
  now rewrite Hg, Hf, filter_twice.
Qed.

Lemma only_deletes_try_catch {A} (body : M A) (handler : Error -> M A) :
  only_deletes body -> (forall e, only_deletes (handler e)) ->
  only_deletes (try_catch body handler).
Proof.
  intros Hb Hh w. unfold try_catch. destruct (Hb w) as [f Hf].
  destruct (body w) as [[a|e] w1]; cbn [snd] in *; [now exists f|].
  destruct (Hh e w1) as [g Hg]. exists (fun r => f r && g r).
  now rewrite Hg, Hf, filter_twice.
Qed.

Lemma only_deletes_for_of {A} (xs : list A) (body : A -> M unit) :
  (forall x, only_deletes (body x)) -> only_deletes (for_of xs body).
Proof.
  intros Hbody. induction xs as [|x xs IH]; cbn [for_of].
  - apply only_deletes_ret.
  - apply only_deletes_bind; [apply Hbody|intros _; exact IH].
Qed.

Lemma only_deletes_client {A} (m : M A) :
  (forall w, table (snd (m w)) = table w) -> only_deletes m.
Proof.
  intros H w. exists (fun _ => true). now rewrite H, filter_all.
Qed.

Lemma only_deletes_store_call {A} (answer : World -> A * World) :
  (forall w, exists keep, table (snd (answer w)) = filter keep (table w)) ->
  only_deletes (store_call answer).
Proof.
  intros Hans w. rewrite store_call_run.
  destruct (next_fails (outages w)); cbn [snd].
  - exists (fun _ => true). now rewrite filter_all.
  - exact (Hans (advance w)).
Qed.

Lemma only_deletes_get (f : AdminSession -> bool) :
  only_deletes (store_call (fun w => (filter f (table w), w))).
Proof.
  apply only_deletes_store_call. intros w. exists (fun _ => true).
  cbn. now rewrite filter_all.
Qed.

Lemma only_deletes_getAll : only_deletes getAllAdminSession.
Proof.
  apply only_deletes_store_call. intros w. exists (fun _ => true).
  cbn. now rewrite filter_all.
Qed.

Lemma only_deletes_deleteById i : only_deletes (deleteAdminSessionById i).
Proof. apply only_deletes_store_call. intros w. now eexists. Qed.

Lemma only_deletes_deleteByToken tok :
  only_deletes (deleteAdminSessionBySessionToken tok).
Proof. apply only_deletes_store_call. intros w. now eexists. Qed.

Lemma only_deletes_console msg : only_deletes (console_error msg).
Proof. now apply only_deletes_client. Qed.

Lemma only_deletes_getItem key : only_deletes (localStorage_getItem key).
Proof. now apply only_deletes_client. Qed.

Lemma only_deletes_removeItem key : only_deletes (localStorage_removeItem key).
Proof. now apply only_deletes_client. Qed.

Lemma only_deletes_Date_now : only_deletes Date_now.
Proof. now apply only_deletes_client. Qed.

Create HintDb deletes.

#[local] Hint Resolve only_deletes_ret only_deletes_bind
  only_deletes_try_catch only_deletes_for_of only_deletes_get
  only_deletes_getAll only_deletes_deleteById only_deletes_deleteByToken
  only_deletes_console only_deletes_getItem only_deletes_removeItem
  only_deletes_Date_now : deletes.
#[local] Hint Extern 2 (only_deletes (if ?b then _ else _)) =>
  destruct b : deletes.
#[local] Hint Extern 2 (only_deletes (match ?x with _ => _ end)) =>
  destruct x : deletes.
#[local] Hint Extern 1 (forall _, only_deletes _) => intro : deletes.

Lemma only_deletes_getStoredPasswordHash : only_deletes getStoredPasswordHash.
Proof.
  unfold getStoredPasswordHash, getAdminSessionByUserId. auto 10 with deletes.
Qed.

Lemma only_deletes_logoutAdmin : only_deletes logoutAdmin.
Proof. unfold logoutAdmin. auto 10 with deletes. Qed.

#[local] Hint Resolve only_deletes_getStoredPasswordHash
  only_deletes_logoutAdmin : deletes.

Lemma only_deletes_isPasswordSet : only_deletes isPasswordSet.
Proof. unfold isPasswordSet. auto with deletes. Qed.

Lemma only_deletes_validateSession sessionToken :
  only_deletes (validateSession sessionToken).
Proof.
  unfold validateSession, or_else, getAdminSessionBySessionToken.
  auto 12 with deletes.
Qed.

Lemma only_deletes_resetAdminPassword : only_deletes resetAdminPassword.
Proof.
  unfold resetAdminPassword, getAdminSessionByUserId. auto 10 with deletes.
Qed.

Lemma only_deletes_cleanupExpiredSessions :
  only_deletes cleanupExpiredSessions.
Proof. unfold cleanupExpiredSessions. auto 12 with deletes. Qed.

(** *** At most one password hash, at most one session *)

Lemma filter_sub_length {A} (f g : A -> bool) (l : list A) :
  length (filter f (filter g l)) <= length (filter f l).
Proof.
  induction l as [|a l IH]; cbn [filter]; [lia|].
  destruct (g a); cbn [filter]; destruct (f a); cbn [length]; lia.
Qed.

Lemma single_records_filter keep w w' :
  table w' = filter keep (table w) -> single_records w -> single_records w'.
Proof.
  unfold single_records, real_sessions. intros -> [Hh Hs]. split.
  - etransitivity; [apply filter_sub_length|exact Hh].
  - etransitivity; [apply filter_sub_length|exact Hs].
Qed.

Lemma only_deletes_keeps {A} (m : M A) :
  only_deletes m -> keeps single_records m.
Proof.
  intros Hm w Hw. destruct (Hm w) as [keep Hk].
  exact (single_records_filter keep w _ Hk Hw).
Qed.

Lemma keeps_bind {A B} (P : World -> Prop) (m : M A) (k : A -> M B) :
  keeps P m -> (forall a, keeps P (k a)) -> keeps P (bind m k).
Proof.
  intros Hm Hk w Hw. unfold bind. specialize (Hm w Hw).
  destruct (m w) as [[a|e] w1]; [now apply Hk|exact Hm].
Qed.

Lemma keeps_ret {A} (P : World -> Prop) (a : A) : keeps P (ret a).
Proof. intros w Hw. exact Hw. Qed.

(** Deleting by the ids of the password-hash rows leaves none of them;
    deleting by the ids of the other rows leaves only password-hash
    rows. *)
Lemma no_hash_after_removal t :
  filter is_password_hash_record
    (remove_ids (map id (filter is_password_hash_record t)) t) = [].
Proof.
  apply filter_nil_iff. intros r Hr. apply In_remove_ids in Hr as [Hin Hid].
  destruct (is_password_hash_record r) eqn:E; [|reflexivity].
  exfalso. apply Hid. apply in_map. apply filter_In. auto.
Qed.

Lemma no_session_after_removal t :
  real_sessions (remove_ids (map id (real_sessions t)) t) = [].
Proof.
  apply filter_nil_iff. intros r Hr. apply In_remove_ids in Hr as [Hin Hid].
  destruct (is_password_hash_record r) eqn:E; [reflexivity|].
  exfalso. apply Hid. apply in_map. apply filter_In. now rewrite E.
Qed.

(** Whatever the store does, [storePasswordHash] either reports
    success, having replaced every password-hash row by the new one, or
    reports failure, having at most deleted rows. *)
Lemma storePasswordHash_outcome hash w :
  exists w',
    (storePasswordHash hash w = (Returned true, w') /\
     table w' =
       remove_ids (map id (filter is_password_hash_record (table w)))
                  (table w)
       ++ [password_hash_row (next_id w) hash]) \/
    (storePasswordHash hash w = (Returned false, w') /\
     (exists ids, table w' = remove_ids ids (table w)) /\
     storage w' = storage w).
Proof.
  destruct (storePasswordHash hash w) as [[[|]|e] w'] eqn:Hrun.
  - exists w'. left. split; [reflexivity|].
    now apply storePasswordHash_success in Hrun.
  - exists w'. right. split; [reflexivity|]. revert Hrun.
    unfold storePasswordHash, try_catch. rewrite bind_run.
    unfold getAdminSessionByUserId. rewrite store_call_run.
    destruct (next_fails (outages w)).
    + cbn. intros H. inversion H; subst. cbn. split; [|reflexivity].
      exists []. now rewrite remove_ids_nil.
    + cbn [fst snd]. rewrite bind_run.
      match goal with |- context [for_of ?l ?b ?w0] =>
        destruct (for_of l b w0) as [o w1] eqn:Hloop end.
      apply (for_of_delete_any (fun _ => true)) in Hloop; [|reflexivity].
      destruct Hloop as (done & rest & _ & Ht & (_ & Hs & _) & _).
      destruct o as [[]|e].
      * rewrite bind_run, insert_one_run.
        destruct (next_fails (outages w1)); [|discriminate].
        cbn. intros H. inversion H; subst. cbn. split; [now exists (map id done)|exact Hs].
      * cbn. intros H. inversion H; subst. cbn. split; [now exists (map id done)|exact Hs].
  - destruct (storePasswordHash_never_throws hash w) as (a & w2 & H).
    congruence.
Qed.

(** The same for the session: [createAdminSession] either returns the
    token of the one session it left, or returns nothing, having at
    most deleted rows and left local storage alone. *)
Lemma createAdminSession_outcome w :
  exists w',
    (createAdminSession w = (Returned (Some (fresh_token w)), w') /\
     table w' =
       remove_ids (map id (real_sessions (table w))) (table w)
       ++ [admin_session_row (next_id w) (fresh_token w)
                             (expiry_at (clock w))]) \/
    (createAdminSession w = (Returned None, w') /\
     (exists ids, table w' = remove_ids ids (table w)) /\
     storage w' = storage w).
Proof.
  destruct (createAdminSession w) as [[[tok|]|e] w'] eqn:Hrun.
  - exists w'. left.
    apply createAdminSession_success in Hrun as Hs.
    destruct Hs as (-> & Ht & _). now split.
  - exists w'. right. split; [reflexivity|]. revert Hrun.
    unfold createAdminSession, generateSessionToken.
    rewrite !bind_run. cbn [crypto_getRandomValues ret Date_now].
    rewrite bind_run. cbn [Date_now]. unfold try_catch. rewrite bind_run.
    unfold getAllAdminSession. rewrite store_call_run.
    cbn [outages set_entropy].
    destruct (next_fails (outages w)).
    + cbn. intros H. inversion H; subst. cbn. split; [|reflexivity].
      exists []. now rewrite remove_ids_nil.
    + cbn [fst snd]. rewrite bind_run.
      match goal with |- context [for_of ?l ?b ?w0] =>
        destruct (for_of l b w0) as [o w1] eqn:Hloop end.
      apply (for_of_delete_any (fun r => negb (is_password_hash_record r)))
        in Hloop; [|reflexivity].
      destruct Hloop as (done & rest & _ & Ht & (_ & Hs & _) & _).
      cbn in Ht, Hs.
      destruct o as [[]|e].
      * rewrite bind_run, insert_one_run.
        destruct (next_fails (outages w1)); [|discriminate].
        cbn. intros H. inversion H; subst. cbn.
        split; [now exists (map id done)|exact Hs].
      * cbn. intros H. inversion H; subst. cbn.
        split; [now exists (map id done)|exact Hs].
  - destruct (createAdminSession_never_throws w) as (a & w2 & H).
    congruence.
Qed.

Lemma storePasswordHash_keeps hash :
  keeps single_records (storePasswordHash hash).
Proof.
  intros w Hw.
  destruct (storePasswordHash_outcome hash w)
    as (w' & [[-> Ht]|[-> [[ids Ht] _]]]); cbn [snd].
  - destruct Hw as [_ Hs]. unfold single_records, real_sessions in *.
    rewrite Ht, !filter_app, no_hash_after_removal. cbn [filter].
    rewrite is_password_hash_row. cbn [negb app length].
    rewrite app_nil_r. split; [lia|].
    etransitivity; [apply filter_sub_length|exact Hs].
  - exact (single_records_filter _ w w' Ht Hw).
Qed.

Lemma admin_row_is_session i token expires :
  real_sessions [admin_session_row i token expires]
  = [admin_session_row i token expires] /\
  filter is_password_hash_record [admin_session_row i token expires] = [].
Proof. split; reflexivity. Qed.

Lemma createAdminSession_keeps : keeps single_records createAdminSession.
Proof.
  intros w Hw.
  destruct (createAdminSession_outcome w)
    as (w' & [[-> Ht]|[-> [[ids Ht] _]]]); cbn [snd].
  - destruct Hw as [Hh _]. unfold single_records in *.
    rewrite Ht, real_sessions_app, no_session_after_removal, filter_app.
    rewrite (proj1 (admin_row_is_session _ _ _)).
    rewrite (proj2 (admin_row_is_session _ _ _)).
    rewrite app_nil_r. split; [|cbn; lia].
    etransitivity; [apply filter_sub_length|exact Hh].
  - exact (single_records_filter _ w w' Ht Hw).
Qed.

Lemma authenticateAdmin_keeps password :
  keeps single_records (authenticateAdmin password).
Proof.
  unfold authenticateAdmin.
  destruct (negb (JS.truthy password) || JS.eqb (JS.trim password) []);
    [apply keeps_ret|].
  apply keeps_bind;
    [apply only_deletes_keeps, only_deletes_getStoredPasswordHash|].
  intros [h|].
  - destruct (negb (JS.eqb (hashPassword password) h));
      [apply keeps_ret|apply createAdminSession_keeps].
  - apply keeps_bind; [apply storePasswordHash_keeps|].
    intros [|]; cbn [negb]; [apply createAdminSession_keeps|apply keeps_ret].
Qed.


(** X4: a table that holds at most one password-hash record and at most
    one session still does after any public operation, whichever calls
    of the store fail. *)
Theorem public_operations_keep_single_records :
  keeps single_records isPasswordSet /\
  (forall password, keeps single_records (authenticateAdmin password)) /\
  (forall sessionToken, keeps single_records (validateSession sessionToken)) /\
  keeps single_records resetAdminPassword /\
  keeps single_records logoutAdmin /\
  keeps single_records cleanupExpiredSessions.
Proof.
  repeat apply conj.
  - apply only_deletes_keeps, only_deletes_isPasswordSet.
  - apply authenticateAdmin_keeps.
  - intros arg. apply only_deletes_keeps, only_deletes_validateSession.
  - apply only_deletes_keeps, only_deletes_resetAdminPassword.
  - apply only_deletes_keeps, only_deletes_logoutAdmin.
  - apply only_deletes_keeps, only_deletes_cleanupExpiredSessions.
Qed.

Lemma single_records_witness :
  single_records (after (authenticateAdmin (JS.lit "secret")) secret_world).
Proof.
  apply (proj1 (proj2 public_operations_keep_single_records)
           (JS.lit "secret") secret_world).
  split; vm_compute; lia.
Defined.

(** X3: every public operation but [authenticateAdmin] leaves a table
    that is the old one with some rows removed, in the old order: none
    of them inserts or changes a row, whichever calls of the store
    fail. *)
Theorem everything_but_login_only_deletes :
  only_deletes isPasswordSet /\
  (forall sessionToken, only_deletes (validateSession sessionToken)) /\
  only_deletes resetAdminPassword /\
  only_deletes logoutAdmin /\
  only_deletes cleanupExpiredSessions.
Proof.
  repeat apply conj.
  - apply only_deletes_isPasswordSet.
  - apply only_deletes_validateSession.
  - apply only_deletes_resetAdminPassword.
  - apply only_deletes_logoutAdmin.
  - apply only_deletes_cleanupExpiredSessions.
Qed.

(** *** Storing and reading the password hash *)

Lemma remove_hash_rows t :
  unique_ids t ->
  remove_ids (map id (filter is_password_hash_record t)) t = real_sessions t.
Proof. intros Hu. now rewrite remove_ids_of_rows. Qed.


Lemma stored_hash_app_row t i hash :
  filter is_password_hash_record t = [] ->
  stored_hash (t ++ [password_hash_row i hash]) = Some hash.
Proof.
  intros Hnone. unfold stored_hash.
  change (has_user_id PASSWORD_HASH_USER_ID) with is_password_hash_record.
  rewrite filter_app, Hnone. cbn [filter app].
  now rewrite is_password_hash_row.
Qed.

(** X5: [storePasswordHash] never throws and leaves localStorage alone.
    When it returns true the new row is the only password-hash record
    and its hash is the one read back (with unique ids the sessions are
    untouched and the new row comes last); when it returns false nothing
    was added; and it returns true when the store answers every call. *)
Theorem storePasswordHash_replaces_the_hash (hash : jsstring) (w : World) :
  exists ok w',
    storePasswordHash hash w = (Returned ok, w') /\
    storage w' = storage w /\
    (ok = true ->
     filter is_password_hash_record (table w')
     = [password_hash_row (next_id w) hash] /\
     stored_hash (table w') = Some hash /\
     (unique_ids (table w) ->
      table w' =
      real_sessions (table w) ++ [password_hash_row (next_id w) hash])) /\
    (ok = false -> incl (table w') (table w)) /\
    (outages w = [] -> ok = true).
Proof.
  destruct (storePasswordHash_outcome hash w)
    as (w' & [[Hrun Ht]|[Hrun [[ids Ht] Hs]]]).
  - exists true, w'. split; [exact Hrun|].
    split; [now apply storePasswordHash_success in Hrun|].
    split; [intros _|split; [discriminate|reflexivity]].
    rewrite Ht. split; [|split].
    + rewrite filter_app, no_hash_after_removal. cbn [filter app].
      now rewrite is_password_hash_row.
    + apply stored_hash_app_row, no_hash_after_removal.
    + intros Hu. now rewrite remove_hash_rows.
  - exists false, w'. split; [exact Hrun|]. split; [exact Hs|].
    split; [discriminate|]. split.
    + intros _ r Hr. rewrite Ht in Hr. now apply In_remove_ids in Hr.
    + intros Hup. destruct (storePasswordHash_up hash w Hup) as (w2 & H2 & _).
      congruence.
Qed.

(** X6: [isPasswordSet] changes neither the table nor localStorage.
    When the store answers, it returns true exactly when the table has a
    password-hash record; when the read fails, it returns false. *)
Theorem isPasswordSet_is_a_read (w : World) :
  exists answer w',
    isPasswordSet w = (Returned answer, w') /\
    table w' = table w /\ storage w' = storage w /\
    next_id w' = next_id w /\
    (next_call_answered w = true ->
     (answer = true <-> filter is_password_hash_record (table w) <> [])) /\
    (next_call_answered w = false -> answer = false).
Proof.
  rewrite isPasswordSet_run. unfold next_call_answered.
  destruct (next_fails (outages w)); eexists; eexists;
    (split; [reflexivity|]); repeat apply conj; try reflexivity;
    try discriminate.
  intros _. unfold stored_hash.
  change (has_user_id PASSWORD_HASH_USER_ID) with is_password_hash_record.
  destruct (filter is_password_hash_record (table w)); split;
    congruence.
Qed.

(** *** Logging in again *)





(** *** The other branches of [validateSession] *)

(** X8: when no row carries the token, [validateSession] returns false
    and clears the session-token slot, leaving the table as it is. *)
Theorem validateSession_unknown_token
  (w : World) (sessionToken : option jsstring) (token : jsstring) :
  effective_token sessionToken w = Some token ->
  JS.truthy token = true ->
  next_call_answered w = true ->
  filter (has_token token) (table w) = [] ->
  exists w',
    validateSession sessionToken w = (Returned false, w') /\
    local_slot w' = None /\
    table w' = table w.
Proof.
  intros Htok Htruthy Hans Hnone.
  rewrite validateSession_run, Htok, Htruthy. cbn [negb].
  unfold next_call_answered in Hans. apply negb_true_iff in Hans.
  rewrite Hans, Hnone.
  eexists. split; [reflexivity|]. split; [apply local_slot_clear|reflexivity].
Qed.

Lemma unknown_token_witness :
  exists w',
    validateSession (Some (JS.lit "nope")) secret_world = (Returned false, w') /\
    local_slot w' = None /\
    table w' = table secret_world.
Proof.
  apply (validateSession_unknown_token
           secret_world (Some (JS.lit "nope")) (JS.lit "nope")); by_running.
Defined.

(** X9: with no token at hand (no argument or an empty one, and the
    slot absent or empty) [validateSession] returns false without any
    call to the store and without any change. *)
Theorem validateSession_without_token
  (w : World) (sessionToken : option jsstring) :
  effective_token sessionToken w = None \/
  effective_token sessionToken w = Some [] ->
  validateSession sessionToken w = (Returned false, w).
Proof.
  intros [H|H]; rewrite validateSession_run, H; reflexivity.
Qed.

Lemma without_token_witness :
  validateSession None empty_world = (Returned false, empty_world) /\
  validateSession (Some []) empty_world = (Returned false, empty_world).
Proof.
  split.
  - apply (validateSession_without_token empty_world None).
    left. by_running.
  - apply (validateSession_without_token empty_world (Some [])).
    left. by_running.
Defined.

(** X10: when the store fails during [validateSession], either at the
    lookup or at the deletion of the session found expired, the function
    returns false and leaves both the table and localStorage as they
    were: the slot keeps its token. *)
Theorem validateSession_store_failure_keeps_slot
  (w : World) (sessionToken : option jsstring) (token : jsstring) :
  effective_token sessionToken w = Some token ->
  JS.truthy token = true ->
  (next_call_answered w = false ->
   exists w',
     validateSession sessionToken w = (Returned false, w') /\
     storage w' = storage w /\ table w' = table w) /\
  (forall r rest,
     outages w = [1] ->
     filter (has_token token) (table w) = r :: rest ->
     expired_at (floor_seconds (clock w)) r = true ->
     exists w',
       validateSession sessionToken w = (Returned false, w') /\
       storage w' = storage w /\ table w' = table w).
Proof.
  intros Htok Htruthy. split.
  - intros Hfail. unfold next_call_answered in Hfail.
    apply negb_false_iff in Hfail.
    rewrite validateSession_run, Htok, Htruthy, Hfail. cbn [negb].
    eexists. repeat split.
  - intros r rest Hout Hfound Hexp.
    unfold expired_at in Hexp. apply andb_true_iff in Hexp as [Hreal Hgt].
    apply negb_true_iff in Hreal.
    rewrite validateSession_run, Htok, Htruthy, Hout. cbn [negb next_fails].
    rewrite Hfound, Hreal, Hgt.
    unfold advance at 1. cbn [outages set_outages]. rewrite Hout.
    cbn [after_call next_fails].
    eexists. repeat split.
Qed.

Lemma store_failure_witness :
  (exists w',
     validateSession None (set_outages [0] secret_world)
     = (Returned false, w') /\
     storage w' = storage (set_outages [0] secret_world) /\
     table w' = table (set_outages [0] secret_world)) /\
  (exists w',
     validateSession (Some secret_token) (set_outages [1] two_days_later)
     = (Returned false, w') /\
     storage w' = storage (set_outages [1] two_days_later) /\
     table w' = table (set_outages [1] two_days_later)).
Proof.
  split.
  - destruct (validateSession_store_failure_keeps_slot
                (set_outages [0] secret_world) None secret_token)
      as [Hfails _]; [by_running|by_running|].
    apply Hfails. by_running.
  - destruct (validateSession_store_failure_keeps_slot
                (set_outages [1] two_days_later) (Some secret_token)
                secret_token)
      as [_ Hlater]; [by_running|by_running|].
    apply (Hlater (admin_session_row 2 secret_token
                     (expiry_at (clock empty_world))) []); by_running.
Defined.

(** *** The slot across login, reload and logout *)

(** X11: after a successful login [getSessionToken] returns the token
    that [authenticateAdmin] returned and [validateSession] without
    argument checks that very token; after [logoutAdmin],
    [getSessionToken] returns null. *)
Theorem slot_follows_login_and_logout :
  (forall password w token w',
     authenticateAdmin password w = (Returned (Some token), w') ->
     getSessionToken w' = (Returned (Some token), w') /\
     forall w'',
       storage w'' = storage w' ->
       validateSession None w'' = validateSession (Some token) w'') /\
  (forall w,
     exists w',
       logoutAdmin w = (Returned tt, w') /\
       getSessionToken w' = (Returned None, w')).
Proof.
  split.
  - intros pw w token w' Hrun.
    apply authenticateAdmin_table in Hrun
      as (_ & _ & _ & _ & Htruthy & Hslot & _).
    split.
    + unfold getSessionToken, localStorage_getItem.
      fold (local_slot w'). now rewrite Hslot.
    + intros w'' Hsame. rewrite !validateSession_run.
      unfold effective_token, local_slot. rewrite Hsame.
      fold (local_slot w'). rewrite Hslot, Htruthy. cbv iota beta.
      now rewrite Htruthy.
  - intros w. rewrite logoutAdmin_eq. eexists. split; [reflexivity|].
    unfold getSessionToken, localStorage_getItem.
    match goal with |- context [lookup_key _ (storage ?x)] =>
      fold (local_slot x) end.
    now rewrite local_slot_clear.
Qed.

(** *** The sweep, twice *)

(** X12: with the store answering every call and unique ids, a second
    [cleanupExpiredSessions] right after the first changes nothing. *)
Theorem cleanup_twice_is_cleanup_once (w : World) :
  outages w = [] ->
  unique_ids (table w) ->
  exists w',
    cleanupExpiredSessions w = (Returned tt, w') /\
    cleanupExpiredSessions w' = (Returned tt, w').
Proof.
  intros Hup Hu. rewrite (cleanupExpiredSessions_up w Hup).
  eexists. split; [reflexivity|].
  rewrite cleanupExpiredSessions_up by exact Hup.
  cbn [table clock set_table].
  rewrite (remove_ids_of_rows _ _ Hu).
  set (now := floor_seconds (clock w)).
  replace (filter (expired_at now)
             (filter (fun r => negb (expired_at now r)) (table w)))
    with (@nil AdminSession).
  - cbn [map]. rewrite remove_ids_nil. reflexivity.
  - symmetry. apply filter_nil_iff. intros r Hr.
    apply filter_In in Hr as [_ Hr]. now apply negb_true_iff in Hr.
Qed.

Lemma cleanup_twice_witness :
  exists w',
    cleanupExpiredSessions sweep_world = (Returned tt, w') /\
    cleanupExpiredSessions w' = (Returned tt, w').
Proof.
  apply (cleanup_twice_is_cleanup_once sweep_world);
    [by_running|distinct_ids].
Defined.

(** *** Logins that return nothing *)

Lemma real_sessions_remove_ids ids t :
  incl (real_sessions (remove_ids ids t)) (real_sessions t).
Proof.
  intros r Hr. apply filter_In in Hr as [Hr Hreal].
  apply In_remove_ids in Hr as [Hr _]. apply filter_In. auto.
Qed.

Lemma authenticateAdmin_over_localStorage :
  authenticateAdmin_over localStorage_setItem = authenticateAdmin.
Proof. reflexivity. Qed.

Lemma localStorage_never_refuses : never_refuses localStorage_setItem.
Proof. intros key value w. eexists. reflexivity. Qed.

(** With the store answering, [createAdminSession_over] replaces the
    sessions by the new one, in a state [w1], and the result is
    [setItem]'s to decide. *)
Lemma createAdminSession_over_up setItem w :
  outages w = [] ->
  exists w1,
    storage w1 = storage w /\
    table w1 =
      remove_ids (map id (real_sessions (table w))) (table w)
      ++ [admin_session_row (next_id w) (fresh_token w)
                            (expiry_at (clock w))] /\
    createAdminSession_over setItem w =
    match setItem SESSION_TOKEN_KEY (fresh_token w) w1 with
    | (Returned _, w2) => (Returned (Some (fresh_token w)), w2)
    | (Thrown _, w2) =>
        (Returned None,
         set_console ("Failed to create admin session:"%string :: console w2)
                     w2)
    end.
Proof.
  intros Hout.
  unfold createAdminSession_over, generateSessionToken.
  rewrite !bind_run. cbn [crypto_getRandomValues ret Date_now].
  rewrite bind_run. cbn [Date_now]. unfold try_catch. rewrite bind_run.
  unfold getAllAdminSession. rewrite store_call_up by exact Hout.
  cbn [fst snd]. rewrite bind_run.
  rewrite (for_of_delete_up (fun r => negb (is_password_hash_record r)))
    by (reflexivity || exact Hout).
  rewrite bind_run, insert_one_run. cbn [outages set_table set_entropy].
  rewrite Hout. cbn [next_fails]. rewrite bind_run.
  match goal with |- context [setItem _ _ ?W] => exists W end.
  split; [reflexivity|]. split.
  - cbn. rewrite ?Hout. reflexivity.
  - unfold fresh_token.
    destruct (setItem _ _ _) as [[[]|e] w2]; reflexivity.
Qed.

(** Whatever the store does: either the store threw, and
    [createAdminSession_over] returns nothing with rows at most deleted
    and local storage as it was, or the sessions were replaced by the
    new one, in a state [w1], and the result is [setItem]'s to decide. *)
Lemma createAdminSession_over_run setItem w :
  exists w1,
    storage w1 = storage w /\
    ((createAdminSession_over setItem w
      = (Returned None,
         set_console ("Failed to create admin session:"%string :: console w1)
                     w1) /\
      exists ids, table w1 = remove_ids ids (table w)) \/
     (table w1 =
        remove_ids (map id (real_sessions (table w))) (table w)
        ++ [admin_session_row (next_id w) (fresh_token w)
                              (expiry_at (clock w))] /\
      createAdminSession_over setItem w =
      match setItem SESSION_TOKEN_KEY (fresh_token w) w1 with
      | (Returned _, w2) => (Returned (Some (fresh_token w)), w2)
      | (Thrown _, w2) =>
          (Returned None,
           set_console ("Failed to create admin session:"%string :: console w2)
                       w2)
      end)).
Proof.
  unfold createAdminSession_over, generateSessionToken.
  rewrite !bind_run. cbn [crypto_getRandomValues ret Date_now].
  rewrite bind_run. cbn [Date_now]. unfold try_catch. rewrite bind_run.
  unfold getAllAdminSession. rewrite store_call_run.
  cbn [outages set_entropy].
  destruct (next_fails (outages w)) eqn:Hfirst.
  - eexists. split; [|left; split; [reflexivity|]].
    + reflexivity.
    + exists []. cbn. now rewrite remove_ids_nil.
  - cbn [fst snd]. rewrite bind_run.
    match goal with |- context [for_of ?l ?b ?w0] =>
      destruct (for_of l b w0) as [o w1] eqn:Hloop end.
    apply (for_of_delete_any (fun r => negb (is_password_hash_record r)))
      in Hloop; [|reflexivity].
    destruct Hloop as (done & rest & Hf & Ht & (Hn & Hs & Hc & He) & Hr).
    cbn in Ht, Hs, Hn, Hc.
    destruct o as [[]|e].
    + specialize (Hr eq_refl). subst rest. rewrite app_nil_r in Hf.
      rewrite bind_run, insert_one_run.
      destruct (next_fails (outages w1)) eqn:Hsecond.
      * exists (advance w1). split; [exact Hs|].
        left. split; [reflexivity|]. exists (map id done). exact Ht.
      * rewrite bind_run.
        match goal with |- context [setItem _ _ ?W] => exists W end.
        split; [exact Hs|]. right. split.
        -- cbn. rewrite Ht, Hn. subst done. reflexivity.
        -- unfold fresh_token.
           destruct (setItem _ _ _) as [[[]|e] w2]; reflexivity.
    + exists w1. split; [exact Hs|].
      left. split; [reflexivity|]. exists (map id done). exact Ht.
Qed.

(** X14: [authenticateAdmin] is [authenticateAdmin_over] on a storage
    that takes every write.  On a storage whose [setItem] does not
    throw, whenever the login returns null, localStorage is as it was
    and the table holds no session that was not there before, whichever
    calls of the store fail.  On a storage that refuses the write it is
    otherwise: with the store answering and the stored password given,
    the login returns null although the old sessions are deleted and the
    new session is stored; localStorage is as it was. *)
Theorem absent_login_adds_no_session :
  authenticateAdmin_over localStorage_setItem = authenticateAdmin /\
  (forall setItem w w' password,
     never_refuses setItem ->
     authenticateAdmin_over setItem password w = (Returned None, w') ->
     storage w' = storage w /\
     incl (real_sessions (table w')) (real_sessions (table w))) /\
  (forall w password,
     all_whitespace password = false ->
     outages w = [] ->
     stored_hash (table w) = Some (hashPassword password) ->
     exists w',
       authenticateAdmin_over refusing_setItem password w
       = (Returned None, w') /\
       storage w' = storage w /\
       real_sessions (table w')
       = [admin_session_row (next_id w) (fresh_token w)
                            (expiry_at (clock w))]).
Proof.
  split; [reflexivity|]. split.
  - intros setItem w w' password Hsets. unfold authenticateAdmin_over.
    destruct (negb (JS.truthy password) || JS.eqb (JS.trim password) []).
    { intros H. inversion H; subst. split; [reflexivity|apply incl_refl]. }
    rewrite bind_run, getStoredPasswordHash_run.
    assert (Hcreate : forall w0,
              storage w0 = storage w ->
              incl (real_sessions (table w0)) (real_sessions (table w)) ->
              createAdminSession_over setItem w0 = (Returned None, w') ->
              storage w' = storage w /\
              incl (real_sessions (table w')) (real_sessions (table w))).
    { intros w0 Hs0 Ht0 Hrun.
      destruct (createAdminSession_over_run setItem w0)
        as (w1 & Hs1 & [[Hnone [ids Hids]]|[_ Hsome]]).
      - rewrite Hnone in Hrun. injection Hrun as <-.
        cbn [storage table set_console]. split; [congruence|].
        rewrite Hids.
        eapply incl_tran; [apply real_sessions_remove_ids|exact Ht0].
      - destruct (Hsets SESSION_TOKEN_KEY (fresh_token w0) w1) as [w2 Hset].
        rewrite Hset in Hsome. congruence. }
    assert (Hboot : forall w0,
              storage w0 = storage w -> table w0 = table w ->
              (stored <- storePasswordHash (hashPassword password) ;;
               if negb stored then ret None
               else createAdminSession_over setItem) w0
              = (Returned None, w') ->
              storage w' = storage w /\
              incl (real_sessions (table w')) (real_sessions (table w))).
    { intros w0 Hs0 Ht0. rewrite bind_run.
      destruct (storePasswordHash_outcome (hashPassword password) w0)
        as (w1 & [[H1 Ht]|[H1 [[ids Ht] Hs]]]); rewrite H1; cbn [negb].
      - apply storePasswordHash_success in H1 as (_ & _ & Hs1 & _).
        apply Hcreate; [congruence|].
        rewrite Ht, real_sessions_app, Ht0.
        unfold real_sessions at 2. cbn [filter].
        rewrite is_password_hash_row. cbn [negb]. rewrite app_nil_r.
        apply real_sessions_remove_ids.
      - intros H. inversion H; subst w1. split; [congruence|].
        rewrite Ht, Ht0. apply real_sessions_remove_ids. }
    destruct (next_fails (outages w)).
    + now apply Hboot.
    + destruct (stored_hash (table w)) as [h|]; [|now apply Hboot].
      destruct (negb (JS.eqb (hashPassword password) h)).
      * intros H. inversion H; subst. split; [reflexivity|apply incl_refl].
      * apply Hcreate; [reflexivity|apply incl_refl].
  - intros w password Hpw Hout Hstored. unfold authenticateAdmin_over.
    fold (is_blank password). rewrite is_blank_spec, Hpw.
    rewrite bind_run, getStoredPasswordHash_run, Hout. cbn [next_fails].
    rewrite Hstored, JSFacts.eqb_refl. cbn [negb].
    rewrite (advance_up w Hout).
    destruct (createAdminSession_over_up refusing_setItem w Hout)
      as (w1 & Hs & Ht & ->).
    cbn [refusing_setItem]. eexists. split; [reflexivity|].
    cbn [storage table set_console]. split; [exact Hs|].
    rewrite Ht, real_sessions_app, no_session_after_removal. reflexivity.
Qed.

Lemma wrong_password_witness :
  (storage (after (authenticateAdmin_over localStorage_setItem
                     (JS.lit "wrong")) secret_world)
   = storage secret_world /\
   incl (real_sessions
           (table (after (authenticateAdmin_over localStorage_setItem
                            (JS.lit "wrong")) secret_world)))
        (real_sessions (table secret_world))) /\
  exists w',
    authenticateAdmin_over refusing_setItem (JS.lit "secret")
      second_login_world
    = (Returned None, w') /\
    storage w' = storage second_login_world /\
    real_sessions (table w')
    = [admin_session_row (next_id second_login_world)
         (fresh_token second_login_world)
         (expiry_at (clock second_login_world))].
Proof.
  split.
  - apply (proj1 (proj2 absent_login_adds_no_session)
             localStorage_setItem secret_world
             (after (authenticateAdmin_over localStorage_setItem
                       (JS.lit "wrong")) secret_world)
             (JS.lit "wrong")).
    + apply localStorage_never_refuses.
    + by_running.
  - apply (proj2 (proj2 absent_login_adds_no_session)
             second_login_world (JS.lit "secret")); by_running.
Defined.



(** *** Resetting the password from one of two browsers *)

Lemma first_with_token (t : list AdminSession) (r : AdminSession) :
  In r t ->
  (forall x, In x t -> session_token x = session_token r -> x = r) ->
  exists rest, filter (has_token (session_token r)) t = r :: rest.
Proof.
  intros Hin Honly.
  destruct (filter (has_token (session_token r)) t) as [|x rest] eqn:Hf.
  - assert (H : In r (filter (has_token (session_token r)) t)).
    { apply filter_In. split; [exact Hin|]. apply JSFacts.eqb_refl. }
    rewrite Hf in H. destruct H.
  - assert (H : In x (filter (has_token (session_token r)) t)).
    { rewrite Hf. now left. }
    apply filter_In in H. destruct H as [Hx Htok].
    apply JSFacts.eqb_eq in Htok.
    rewrite (Honly x Hx Htok). now exists rest.
Qed.

(** X15: [resetAdminPassword] ends this browser's session only.  With
    the store answering and unique ids, a session whose token is not the
    one in this browser's slot is still in the table after the reset,
    and as long as it is unexpired and the only row with its token
    [validateSession] accepts that token. *)
Theorem reset_spares_other_sessions (w : World) (r : AdminSession) :
  outages w = [] ->
  unique_ids (table w) ->
  In r (table w) ->
  is_password_hash_record r = false ->
  holds_slot_token w r = false ->
  exists w',
    resetAdminPassword w = (Returned true, w') /\
    In r (table w') /\
    forall w'',
      table w'' = table w' ->
      next_call_answered w'' = true ->
      JS.truthy (session_token r) = true ->
      (forall x, In x (table w) ->
                 session_token x = session_token r -> x = r) ->
      (forall e, JS.parseInt (expires_at r) = Some e ->
                 (floor_seconds (clock w'') <= e)%Z) ->
      exists w3,
        validateSession (Some (session_token r)) w'' = (Returned true, w3).
Proof.
  intros Hup Hids Hin Hreal Hother.
  destruct (resetAdminPassword_up w Hup Hids) as (w' & Hrun & Htable).
  assert (Hleft : In r (table w')).
  { rewrite Htable. apply filter_In. split; [exact Hin|].
    now rewrite Hreal, Hother. }
  exists w'. split; [exact Hrun|]. split; [exact Hleft|].
  intros w'' Hsame Hanswers Htruthy Honly Hlive.
  destruct (first_with_token (table w'') r) as [rest Hfirst].
  - now rewrite Hsame.
  - intros x Hx. apply Honly. rewrite Hsame, Htable in Hx.
    now apply filter_In in Hx.
  - destruct (validateSession_live w'' (Some (session_token r))
                (session_token r) r rest) as (w3 & Hv & _); auto.
    + cbn. now rewrite Htruthy.
    + now exists w3.
Qed.

Lemma other_browser_witness :
  exists w',
    resetAdminPassword two_browsers = (Returned true, w') /\
    exists w3,
      validateSession (Some (JS.lit "bb")) (set_storage [] w')
      = (Returned true, w3).
Proof.
  destruct (reset_spares_other_sessions
              two_browsers
              (admin_session_row 3 (JS.lit "bb") (JS.lit "1800000000")))
    as (w' & Hrun & _ & Hvalid).
  - by_running.
  - distinct_ids.
  - vm_compute. right. right. left. reflexivity.
  - by_running.
  - by_running.
  - exists w'. split; [exact Hrun|].
    assert (Hw : w' = after resetAdminPassword two_browsers)
      by (unfold after; rewrite Hrun; reflexivity).
    subst w'.
    apply (Hvalid (set_storage [] (after resetAdminPassword two_browsers)));
      [reflexivity| | | | ].
  + by_running.
  + by_running.
  + intros x Hx Htok. vm_compute in Hx.
    destruct Hx as [<-|[<-|[<-|[]]]];
      first [vm_compute in Htok; discriminate Htok | by_running].
  + intros e He. vm_compute in He. injection He as <-. by_mismatch.
Defined.

(** *** How long a session lasts *)

Lemma session_row_first (hashes : list AdminSession) (i : Id)
  (token expiry : jsstring) :
  (forall r, In r hashes -> session_token r <> token) ->
  filter (has_token token) (hashes ++ [admin_session_row i token expiry])
  = [admin_session_row i token expiry].
Proof.
  intros Hother. rewrite filter_app. cbn [filter].
  replace (filter (has_token token) hashes) with (@nil AdminSession).
  - unfold has_token at 1. cbn [session_token admin_session_row].
    now rewrite JSFacts.eqb_refl.
  - symmetry. apply filter_nil_iff. intros r Hr.
    apply JSFacts.eqb_neq. now apply Hother.
Qed.

(** X25: a session lasts a day, counted in whole seconds.  After a
    login at clock [t0] (milliseconds), on a store that answers and
    whose password-hash rows do not carry the token, [validateSession]
    of the token at clock [t] returns whether
    [floor(t / 1000) <= floor((t0 + 86400000) / 1000)]: true, with the
    table untouched, up to 24 hours after the login; false, with the
    session deleted, from one second past the 24 hours on. *)
Theorem session_lasts_a_day
  (w0 w1 w : World) (password token : jsstring) :
  authenticateAdmin password w0 = (Returned (Some token), w1) ->
  (forall r, In r (table w1) -> is_password_hash_record r = true ->
             session_token r <> token) ->
  table w = table w1 ->
  outages w = [] ->
  unique_ids (table w) ->
  exists w',
    validateSession (Some token) w
    = (Returned (floor_seconds (clock w)
                 <=? floor_seconds (clock w0 + SESSION_DURATION_MS))%Z, w') /\
    ((clock w <= clock w0 + SESSION_DURATION_MS)%Z ->
     validateSession (Some token) w = (Returned true, w') /\
     table w' = table w) /\
    ((clock w0 + SESSION_DURATION_MS + 1000 <= clock w)%Z ->
     validateSession (Some token) w = (Returned false, w') /\
     real_sessions (table w') = []).
Proof.
  intros Hlogin Hfresh Hsame Hup Hids.
  apply authenticateAdmin_table in Hlogin
    as (hashes & i & Ht & Hh & Htruthy & _).
  set (row := admin_session_row i token (expiry_at (clock w0))) in *.
  assert (Hfound : filter (has_token token) (table w) = [row]).
  { rewrite Hsame, Ht. apply session_row_first. intros r Hr.
    apply Hfresh; [rewrite Ht; apply in_or_app; now left|now apply Hh]. }
  assert (Hparse : JS.parseInt (expires_at row)
                   = Some (floor_seconds (clock w0 + SESSION_DURATION_MS))).
  { unfold row. cbn [expires_at admin_session_row]. unfold expiry_at.
    apply JSFacts.parseInt_Number_toString. }
  assert (Hreal : is_password_hash_record row = false) by reflexivity.
  assert (Htok : effective_token (Some token) w = Some token)
    by (cbn; now rewrite Htruthy).
  destruct (Z.leb_spec (floor_seconds (clock w))
              (floor_seconds (clock w0 + SESSION_DURATION_MS))) as [Hle|Hgt].
  - destruct (validateSession_live w (Some token) token row [])
      as (w' & Hrun & Htab & _); trivial.
    + unfold next_call_answered. now rewrite Hup.
    + intros e He. rewrite Hparse in He. now injection He as <-.
    + exists w'. split; [exact Hrun|]. split; [now split|].
      intros Hlate. exfalso. unfold floor_seconds in Hle.
      assert (clock w0 + SESSION_DURATION_MS + 1000
              = clock w0 + SESSION_DURATION_MS + 1 * 1000)%Z as E by lia.
      rewrite E in Hlate.
      assert ((clock w0 + SESSION_DURATION_MS + 1 * 1000) / 1000
              <= clock w / 1000)%Z as Hdiv by (apply Z.div_le_mono; lia).
      rewrite Z.div_add in Hdiv by lia. lia.
  - destruct (validateSession_expired w (Some token) token row []
                (floor_seconds (clock w0 + SESSION_DURATION_MS)))
      as (w' & Hrun & _ & Hleft); trivial.
    exists w'. split; [exact Hrun|]. split.
    + intros Hearly. exfalso.
      apply floor_seconds_mono in Hearly. lia.
    + intros _. split; [exact Hrun|].
      apply filter_nil_iff. intros r Hr. apply negb_false_iff.
      apply Hleft in Hr as [Hr Hnot]. rewrite Hsame, Ht in Hr.
      apply in_app_or in Hr as [Hr|[Hr|[]]]; [now apply Hh|congruence].
Qed.

Lemma session_lifetime_witness :
  exists w',
    validateSession (Some secret_token) two_days_later = (Returned false, w') /\
    real_sessions (table w') = [].
Proof.
  destruct (session_lasts_a_day empty_world secret_world two_days_later
              (JS.lit "secret") secret_token)
    as (w' & _ & _ & Hlate); try by_running.
  - intros r Hr Hhash. vm_compute in Hr.
    destruct Hr as [<-|[<-|[]]]; [by_mismatch|discriminate Hhash].
  - distinct_ids.
  - exists w'. apply Hlate. by_mismatch.
Defined.

(** *** Tokens lose none of the random bytes *)

Lemma hexdigit_inj (a b : N) :
  (a < 16)%N -> (b < 16)%N -> JS.hexdigit a = JS.hexdigit b -> a = b.
Proof.
  unfold JS.hexdigit. intros Ha Hb.
  destruct (N.ltb_spec a 10), (N.ltb_spec b 10); lia.
Qed.

Lemma byte_hex_digits (b : N) :
  (b < 256)%N ->
  JS.padStart0 2 (JS.toString16 b)
  = [JS.hexdigit (b / 16); JS.hexdigit (b mod 16)].
Proof.
  intros Hb. unfold JS.toString16. destruct (N.ltb_spec b 16).
  - rewrite N.div_small, N.mod_small by assumption. reflexivity.
  - reflexivity.
Qed.

Lemma byte_hex_inj (a b : N) :
  (a < 256)%N -> (b < 256)%N ->
  JS.padStart0 2 (JS.toString16 a) = JS.padStart0 2 (JS.toString16 b) ->
  a = b.
Proof.
  intros Ha Hb. rewrite !byte_hex_digits by assumption. intros H.
  injection H as Hhi Hlo.
  apply hexdigit_inj in Hhi;
    [|apply N.Div0.div_lt_upper_bound; lia|apply N.Div0.div_lt_upper_bound; lia].
  apply hexdigit_inj in Hlo; [|apply N.mod_lt; lia|apply N.mod_lt; lia].
  rewrite (N.div_mod a 16), (N.div_mod b 16) by lia. now rewrite Hhi, Hlo.
Qed.

Lemma hex_of_bytes_inj (l1 : list N) : forall l2,
  Forall (fun b => (b < 256)%N) l1 ->
  Forall (fun b => (b < 256)%N) l2 ->
  JS.hex_of_bytes l1 = JS.hex_of_bytes l2 -> l1 = l2.
Proof.
  unfold JS.hex_of_bytes.
  induction l1 as [|a l1 IH]; intros [|b l2] H1 H2; cbn [flat_map].
  - reflexivity.
  - inversion H2; subst. rewrite byte_hex_digits by assumption. discriminate.
  - inversion H1; subst. rewrite byte_hex_digits by assumption. discriminate.
  - inversion H1; subst. inversion H2; subst.
    rewrite (byte_hex_digits a), (byte_hex_digits b) by assumption.
    cbn [app]. intros H. injection H as Hhi Hlo Hrest.
    f_equal.
    + apply byte_hex_inj; trivial. rewrite !byte_hex_digits by assumption.
      now rewrite Hhi, Hlo.
    + now apply IH.
Qed.

(** X26: [generateSessionToken] loses none of its random bytes: two
    tokens are equal exactly when the 32 bytes drawn were (each byte is
    written as two digits, padded). *)
Theorem tokens_differ_as_the_random_bytes_do
  (w1 w2 w1' w2' : World) (token1 token2 : jsstring) :
  generateSessionToken w1 = (Returned token1, w1') ->
  generateSessionToken w2 = (Returned token2, w2') ->
  (token1 = token2 <->
   random_bytes 32 (entropy w1) = random_bytes 32 (entropy w2)).
Proof.
  intros H1 H2.
  change (generateSessionToken w1)
    with (Returned (fresh_token w1), set_entropy (skipn 32 (entropy w1)) w1)
    in H1.
  change (generateSessionToken w2)
    with (Returned (fresh_token w2), set_entropy (skipn 32 (entropy w2)) w2)
    in H2.
  injection H1 as <- _. injection H2 as <- _. unfold fresh_token. split.
  - apply hex_of_bytes_inj; apply random_bytes_shape.
  - now intros ->.
Qed.

Lemma distinct_tokens_witness :
  fresh_token empty_world = fresh_token second_login_world <->
  random_bytes 32 (entropy empty_world)
  = random_bytes 32 (entropy second_login_world).
Proof.
  apply (tokens_differ_as_the_random_bytes_do
           empty_world second_login_world
           (set_entropy (skipn 32 (entropy empty_world)) empty_world)
           (set_entropy (skipn 32 (entropy second_login_world))
                        second_login_world));
    reflexivity.
Defined.

(* ================================================================== *)
(** ** SEO settings *)
(* ================================================================== *)

Module SeoFacts.
Import Seo.

Lemma or_default_truthy a b :
  JS.truthy b = true -> JS.truthy (or_default a b) = true.
Proof.
  intros Hb. destruct a as [s|]; cbn; [|exact Hb].
  destruct (JS.truthy s) eqn:E; [exact E|exact Hb].
Qed.

Lemma or_default_or_null s : or_default (or_null s) [] = s.
Proof. unfold or_null. destruct s; reflexivity. Qed.

Lemma or_default_empty s : or_default (Some s) [] = s.
Proof. destruct s; reflexivity. Qed.

Lemma getSEOSettings_run {Store} (orm : SeoSettingORM Store) st :
  getSEOSettings orm st =
  match getSeoSettingBySettingKey orm SEO_SETTINGS_KEY (fst st) with
  | (Returned [], store') => (Returned DEFAULT_SEO_SETTINGS, (store', snd st))
  | (Returned (record :: _), store') =>
      (Returned
         {| siteTitle :=
              or_default (site_title record) (siteTitle DEFAULT_SEO_SETTINGS);
            metaDescription :=
              or_default (meta_description record)
                         (metaDescription DEFAULT_SEO_SETTINGS);
            ogTitle :=
              or_default (og_title record) (ogTitle DEFAULT_SEO_SETTINGS);
            ogDescription :=
              or_default (og_description record)
                         (ogDescription DEFAULT_SEO_SETTINGS);
            ogImageUrl :=
              or_default (og_image_url record)
                         (ogImageUrl DEFAULT_SEO_SETTINGS);
            canonicalUrl :=
              or_default (canonical_url record)
                         (canonicalUrl DEFAULT_SEO_SETTINGS);
            twitterHandle :=
              or_default (twitter_handle record)
                         (twitterHandle DEFAULT_SEO_SETTINGS) |},
       (store', snd st))
  | (Thrown _, store') =>
      (Returned DEFAULT_SEO_SETTINGS,
       (store', "Failed to load SEO settings:"%string :: snd st))
  end.
Proof.
  unfold getSEOSettings, try_catch, bind, call.
  destruct (getSeoSettingBySettingKey orm SEO_SETTINGS_KEY (fst st))
    as [[[|record rest]|e] store']; reflexivity.
Qed.

(** [getSEOSettings] returns, and what it returns is usable. *)
Lemma getSEOSettings_always_usable
  {Store : Type} (orm : SeoSettingORM Store) (st : Store * list string) :
  exists settings st',
    getSEOSettings orm st = (Returned settings, st') /\
    JS.truthy (siteTitle settings) = true /\
    JS.truthy (metaDescription settings) = true /\
    JS.truthy (ogTitle settings) = true /\
    JS.truthy (ogDescription settings) = true /\
    JS.truthy (canonicalUrl settings) = true /\
    (forall store',
       getSeoSettingBySettingKey orm SEO_SETTINGS_KEY (fst st)
       = (Returned [], store') \/
       getSeoSettingBySettingKey orm SEO_SETTINGS_KEY (fst st)
       = (Thrown StoreUnavailable, store') ->
       settings = DEFAULT_SEO_SETTINGS).
Proof.
  rewrite getSEOSettings_run.
  destruct (getSeoSettingBySettingKey orm SEO_SETTINGS_KEY (fst st))
    as [[[|record rest]|e] store1]; eexists; eexists;
    (split; [reflexivity|]); cbn [siteTitle metaDescription
      ogTitle ogDescription canonicalUrl];
    repeat apply conj;
    try (apply or_default_truthy); try reflexivity.
  intros store' [H|H]; discriminate H.
Qed.

(** What was saved is read back, over an ORM that reads back what it
    wrote. *)
Lemma save_then_get
  {Store : Type} (orm : SeoSettingORM Store) :
  reads_back orm ->
  forall settings st,
    exists ok st',
      saveSEOSettings orm settings st = (Returned ok, st') /\
      (ok = true ->
       exists st'',
         getSEOSettings orm st'
         = (Returned (with_defaults settings), st'')) /\
      (JS.truthy (siteTitle settings) = true ->
       JS.truthy (metaDescription settings) = true ->
       JS.truthy (ogTitle settings) = true ->
       JS.truthy (ogDescription settings) = true ->
       JS.truthy (canonicalUrl settings) = true ->
       with_defaults settings = settings).
Proof.
  intros [Hset Hins] settings st.
  assert (Hread : forall existing store1 console1,
            (exists r rest store2,
               getSeoSettingBySettingKey orm SEO_SETTINGS_KEY store1
               = (Returned (r :: rest), store2) /\
               content r
               = content (data_to_save existing settings)) ->
            exists st'',
              getSEOSettings orm (store1, console1)
              = (Returned (with_defaults settings), st'')).
  { intros existing store1 console1 (r & rest & store2 & Hget & Hc).
    rewrite getSEOSettings_run. cbn [fst snd]. rewrite Hget.
    eexists. f_equal. f_equal. unfold content in Hc.
    inversion Hc as [[H1 H2 H3 H4 H5 H6 H7]].
    rewrite H1, H2, H3, H4, H5, H6, H7. cbn.
    unfold with_defaults. f_equal.
    - apply or_default_empty.
    - apply or_default_or_null. }
  assert (Hid : JS.truthy (siteTitle settings) = true ->
       JS.truthy (metaDescription settings) = true ->
       JS.truthy (ogTitle settings) = true ->
       JS.truthy (ogDescription settings) = true ->
       JS.truthy (canonicalUrl settings) = true ->
       with_defaults settings = settings).
  { intros H1 H2 H3 H4 H5. unfold with_defaults.
    rewrite H1, H2, H3, H4, H5. now destruct settings. }
  unfold saveSEOSettings, try_catch, bind, call.
  destruct st as [store console]. cbn [fst snd].
  destruct (getSeoSettingBySettingKey orm SEO_SETTINGS_KEY store)
    as [[existing|e] store1] eqn:Hget.
  - cbv zeta. destruct existing as [|first others]; cbn [fst snd].
    + destruct (insertSeoSetting orm [data_to_save [] settings] store1)
        as [[[]|e] store2] eqn:Hw.
      * cbn. exists true. eexists. split; [reflexivity|].
        split; [intros _|exact Hid].
        apply (Hread []). exact (Hins _ _ _ Hw).
      * cbn. exists false. eexists. split; [reflexivity|].
        split; [discriminate|exact Hid].
    + destruct (setSeoSettingBySettingKey orm SEO_SETTINGS_KEY
                  (data_to_save (first :: others) settings) store1)
        as [[[]|e] store2] eqn:Hw.
      * cbn. exists true. eexists. split; [reflexivity|].
        split; [intros _|exact Hid].
        apply (Hread (first :: others)). exact (Hset SEO_SETTINGS_KEY
                 (data_to_save (first :: others) settings) _ _ eq_refl Hw).
      * cbn. exists false. eexists. split; [reflexivity|].
        split; [discriminate|exact Hid].
  - cbn. exists false. eexists. split; [reflexivity|].
    split; [discriminate|exact Hid].
Qed.

End SeoFacts.

(** On an ORM that fails every call, the settings are the defaults and
    saving reports failure; both log the error. *)
Example failing_orm_runs :
  Seo.getSEOSettings Seo.failing_orm (tt, [])
  = (Returned Seo.DEFAULT_SEO_SETTINGS,
     (tt, ["Failed to load SEO settings:"%string])) /\
  Seo.saveSEOSettings Seo.failing_orm Seo.campaign_settings (tt, [])
  = (Returned false, (tt, ["Failed to save SEO settings:"%string])).
Proof. split; reflexivity. Qed.

(** X16: whatever the ORM does, [getSEOSettings] never throws and
    returns settings whose title, description, Open Graph title, Open
    Graph description and canonical URL are not empty; when the lookup
    throws or finds no row it returns [DEFAULT_SEO_SETTINGS]. *)
Theorem getSEOSettings_always_gives_usable_settings
  {Store : Type} (orm : Seo.SeoSettingORM Store) (st : Store * list string) :
  exists settings st',
    Seo.getSEOSettings orm st = (Returned settings, st') /\
    JS.truthy (Seo.siteTitle settings) = true /\
    JS.truthy (Seo.metaDescription settings) = true /\
    JS.truthy (Seo.ogTitle settings) = true /\
    JS.truthy (Seo.ogDescription settings) = true /\
    JS.truthy (Seo.canonicalUrl settings) = true /\
    (forall store',
       Seo.getSeoSettingBySettingKey orm Seo.SEO_SETTINGS_KEY (fst st)
       = (Returned [], store') \/
       Seo.getSeoSettingBySettingKey orm Seo.SEO_SETTINGS_KEY (fst st)
       = (Thrown StoreUnavailable, store') ->
       settings = Seo.DEFAULT_SEO_SETTINGS).
Proof. apply SeoFacts.getSEOSettings_always_usable. Qed.

(** X17: over an ORM that reads back what it wrote, [saveSEOSettings]
    never throws, and when it returns true a following [getSEOSettings]
    returns the saved settings, with the default in place of each empty
    title, description, Open Graph title, Open Graph description or
    canonical URL: settings that leave none of these five empty are
    read back as saved. *)
Theorem saved_SEO_settings_read_back
  {Store : Type} (orm : Seo.SeoSettingORM Store) :
  Seo.reads_back orm ->
  forall settings st,
    exists ok st',
      Seo.saveSEOSettings orm settings st = (Returned ok, st') /\
      (ok = true ->
       exists st'',
         Seo.getSEOSettings orm st'
         = (Returned (Seo.with_defaults settings), st'')) /\
      (JS.truthy (Seo.siteTitle settings) = true ->
       JS.truthy (Seo.metaDescription settings) = true ->
       JS.truthy (Seo.ogTitle settings) = true ->
       JS.truthy (Seo.ogDescription settings) = true ->
       JS.truthy (Seo.canonicalUrl settings) = true ->
       Seo.with_defaults settings = settings).
Proof. apply SeoFacts.save_then_get. Qed.

Lemma list_orm_set_first key data rows :
  Seo.has_key key data = true ->
  existsb (Seo.has_key key) rows = true ->
  exists rest,
    filter (Seo.has_key key)
      (map (fun r => if Seo.has_key key r then data else r) rows)
    = data :: rest.
Proof.
  intros Hdata. induction rows as [|row rows IH]; [discriminate|].
  cbn [existsb map filter]. destruct (Seo.has_key key row) eqn:Hrow.
  - intros _. rewrite Hdata. eexists. reflexivity.
  - cbn [orb]. rewrite Hrow. exact IH.
Qed.

Lemma list_orm_reads_back : Seo.reads_back Seo.list_orm.
Proof.
  split.
  - intros key data rows rows' Hkey.
    assert (Hdata : Seo.has_key key data = true).
    { unfold Seo.has_key. rewrite Hkey. apply JSFacts.eqb_refl. }
    cbn [Seo.list_orm Seo.setSeoSettingBySettingKey
         Seo.getSeoSettingBySettingKey].
    destruct (existsb (Seo.has_key key) rows) eqn:Hsome; [|discriminate].
    intros Hrun. injection Hrun as <-.
    destruct (list_orm_set_first key data rows Hdata Hsome) as [rest ->].
    exists data, rest. eexists. split; reflexivity.
  - intros data rows rows' Hrun.
    cbn [Seo.list_orm Seo.insertSeoSetting] in Hrun. injection Hrun as <-.
    cbn [Seo.list_orm Seo.getSeoSettingBySettingKey app filter].
    unfold Seo.has_key at 1. rewrite JSFacts.eqb_refl.
    eexists. eexists. eexists. split; reflexivity.
Qed.

Lemma saved_settings_witness :
  exists st' st'',
    Seo.saveSEOSettings Seo.list_orm Seo.campaign_settings ([], [])
    = (Returned true, st') /\
    Seo.getSEOSettings Seo.list_orm st'
    = (Returned (Seo.with_defaults Seo.campaign_settings), st'').
Proof.
  destruct (saved_SEO_settings_read_back
              Seo.list_orm list_orm_reads_back Seo.campaign_settings ([], []))
    as (ok & st' & Hrun & Hback & _).
  assert (Hok : ok = true).
  { vm_compute in Hrun. now injection Hrun as <- _. }
  destruct (Hback Hok) as [st'' Hget].
  exists st', st''. rewrite <- Hok. split; [exact Hrun|exact Hget].
Defined.

(* ================================================================== *)
(** ** The SEO context *)
(* ================================================================== *)

Module SeoContextFacts.
Import Seo.

Lemma or_empty_default (s d : jsstring) :
  JS.truthy d = true ->
  (if JS.truthy s then s else d) = s -> JS.truthy s = true.
Proof.
  destruct s; [|reflexivity].
  cbn. intros Hd H. rewrite H in Hd. discriminate Hd.
Qed.

Lemma with_defaults_fixed (s : SEOSettings) :
  with_defaults s = s <-> SeoContext.complete s = true.
Proof.
  unfold SeoContext.complete. split.
  - intros H.
    assert (H1 := f_equal siteTitle H). assert (H2 := f_equal metaDescription H).
    assert (H3 := f_equal ogTitle H). assert (H4 := f_equal ogDescription H).
    assert (H5 := f_equal canonicalUrl H).
    cbn [with_defaults siteTitle metaDescription ogTitle ogDescription
         canonicalUrl] in H1, H2, H3, H4, H5.
    apply or_empty_default in H1, H2, H3, H4, H5; try reflexivity.
    now rewrite H1, H2, H3, H4, H5.
  - intros H. repeat (apply andb_true_iff in H as [H ?]).
    unfold with_defaults.
    repeat match goal with Ht : JS.truthy _ = true |- _ => rewrite Ht; clear Ht end.
    now destruct s.
Qed.

Lemma refreshSettings_run {Store} (orm : SeoSettingORM Store) ui st :
  exists loaded st',
    getSEOSettings orm st = (Returned loaded, st') /\
    SeoContext.refreshSettings orm ui st
    = (Returned {| SeoContext.settings := loaded;
                   SeoContext.isLoading := false |}, st').
Proof.
  destruct (SeoFacts.getSEOSettings_always_usable orm st)
    as (loaded & st' & Hget & _).
  exists loaded, st'. split; [exact Hget|].
  unfold SeoContext.refreshSettings, bind, try_catch. now rewrite Hget.
Qed.

End SeoContextFacts.

(** X23: whatever the ORM does, [refreshSettings] never throws and
    leaves the context not loading, holding exactly the settings
    [getSEOSettings] returned, none of whose five defaulted fields is
    empty. *)
Theorem refreshSettings_ends_loaded
  {Store : Type} (orm : Seo.SeoSettingORM Store)
  (ui : SeoContext.ContextState) (st : Store * list string) :
  exists ui' st',
    SeoContext.refreshSettings orm ui st = (Returned ui', st') /\
    SeoContext.isLoading ui' = false /\
    SeoContext.complete (SeoContext.settings ui') = true /\
    Seo.getSEOSettings orm st = (Returned (SeoContext.settings ui'), st').
Proof.
  destruct (SeoContextFacts.refreshSettings_run orm ui st)
    as (loaded & st' & Hget & Hrun).
  eexists. exists st'. split; [exact Hrun|]. split; [reflexivity|].
  split; [|exact Hget].
  destruct (SeoFacts.getSEOSettings_always_usable orm st)
    as (loaded' & st2 & Hget' & H1 & H2 & H3 & H4 & H5 & _).
  rewrite Hget in Hget'. injection Hget' as <- <-.
  unfold SeoContext.complete. cbn [SeoContext.settings].
  now rewrite H1, H2, H3, H4, H5.
Qed.

(** X24: [updateSettings] never throws and leaves the loading flag
    alone; when it returns false the context keeps its settings, and
    when it returns true the context holds the new settings as given.
    Over an ORM that reads back what it wrote, a [refreshSettings]
    after a successful update loads the new settings with the defaults
    in place of their empty fields, so it changes what the context
    holds exactly when one of the five defaulted fields was saved
    empty. *)
Theorem update_then_refresh
  {Store : Type} (orm : Seo.SeoSettingORM Store) :
  Seo.reads_back orm ->
  forall newSettings ui st,
    exists success ui1 st1,
      SeoContext.updateSettings orm newSettings ui st
      = (Returned (success, ui1), st1) /\
      SeoContext.isLoading ui1 = SeoContext.isLoading ui /\
      (success = false -> SeoContext.settings ui1 = SeoContext.settings ui) /\
      (success = true ->
       SeoContext.settings ui1 = newSettings /\
       exists ui2 st2,
         SeoContext.refreshSettings orm ui1 st1 = (Returned ui2, st2) /\
         SeoContext.settings ui2 = Seo.with_defaults newSettings /\
         (SeoContext.settings ui2 = SeoContext.settings ui1 <->
          SeoContext.complete newSettings = true)).
Proof.
  intros Hlaw newSettings ui st.
  destruct (SeoFacts.save_then_get orm Hlaw newSettings st)
    as (ok & st1 & Hsave & Hback & _).
  unfold SeoContext.updateSettings, Seo.bind. rewrite Hsave.
  destruct ok.
  - eexists. eexists. exists st1. split; [reflexivity|].
    split; [reflexivity|]. split; [discriminate|]. intros _.
    split; [reflexivity|].
    destruct (Hback eq_refl) as [st2 Hget].
    destruct (SeoContextFacts.refreshSettings_run
                orm (SeoContext.setSettings newSettings ui) st1)
      as (loaded & st2' & Hget' & Hrun).
    rewrite Hget in Hget'. injection Hget' as <- <-.
    eexists. exists st2. split; [exact Hrun|]. split; [reflexivity|].
    cbn [SeoContext.settings SeoContext.setSettings].
    apply SeoContextFacts.with_defaults_fixed.
  - eexists. eexists. exists st1. split; [reflexivity|].
    split; [reflexivity|]. split; [reflexivity|discriminate].
Qed.

Lemma update_then_refresh_witness :
  exists ui1 st1 ui2 st2,
    SeoContext.updateSettings Seo.list_orm Seo.campaign_settings
      SeoContext.initial ([], [])
    = (Returned (true, ui1), st1) /\
    SeoContext.settings ui1 = Seo.campaign_settings /\
    SeoContext.refreshSettings Seo.list_orm ui1 st1 = (Returned ui2, st2) /\
    SeoContext.settings ui2 = Seo.with_defaults Seo.campaign_settings /\
    SeoContext.settings ui2 <> SeoContext.settings ui1.
Proof.
  destruct (update_then_refresh Seo.list_orm list_orm_reads_back
              Seo.campaign_settings SeoContext.initial ([], []))
    as (success & ui1 & st1 & Hrun & _ & _ & Htrue).
  assert (Hok : success = true).
  { vm_compute in Hrun. now injection Hrun as <- _ _. }
  destruct (Htrue Hok) as (Hnew & ui2 & st2 & Hrefresh & Hloaded & Hsame).
  exists ui1, st1, ui2, st2. rewrite <- Hok.
  repeat (split; [assumption|]).
  intros Heq. apply Hsame in Heq. discriminate Heq.
Defined.

(* ================================================================== *)
(** ** The postcode pattern *)
(* ================================================================== *)

Example postcode_examples :
  postcode_ok (JS.lit "SW1A 1AA") = true /\
  postcode_ok (JS.lit "sw1a1aa") = true /\
  postcode_ok (JS.lit "M1 1AA") = true /\
  postcode_ok (JS.lit "gir 0aa") = true /\
  postcode_ok (JS.lit " SW1A 1AA") = false /\
  postcode_ok (JS.lit "SW1A  1AA") = false /\
  postcode_ok (JS.lit "M1AA") = false.
Proof. repeat split. Qed.

(** *** The matcher decides what a pattern matches *)

Module RegExpFacts.
Import RegExp.

Lemma one_decides (test : JS.char16 -> bool) :
  decides (one test) (fun _ s _ => exists x, s = [x] /\ test x = true).
Proof.
  intros k n s. split.
  - destruct s as [|c s']; [discriminate|]. cbn [one].
    intros H. apply andb_true_iff in H as [Hc Hk].
    exists [c], s'. repeat split.
    + now exists c.
    + cbn. now rewrite Nat.add_1_r.
  - intros (s1 & s2 & -> & (x & -> & Hx) & Hk).
    cbn in *. rewrite Nat.add_1_r in Hk. now rewrite Hx, Hk.
Qed.

Lemma exactly_decides step P :
  decides step P -> forall times, decides (exactly step times) (power P times).
Proof.
  intros Hstep times. induction times as [|times IH]; intros k n s.
  - cbn. split.
    + intros Hk. exists [], s. rewrite Nat.add_0_r. auto.
    + intros (s1 & s2 & -> & -> & Hk). now rewrite Nat.add_0_r in Hk.
  - cbn [exactly power]. rewrite (Hstep _ n s). split.
    + intros (s1 & s2 & -> & H1 & Hk). apply IH in Hk.
      destruct Hk as (s3 & s4 & -> & H3 & Hk).
      exists (s1 ++ s3), s4. rewrite <- app_assoc. split; [reflexivity|].
      split.
      * exists s1, s3. auto.
      * now rewrite length_app, Nat.add_assoc.
    + intros (s0 & s4 & -> & (s1 & s3 & -> & H1 & H3) & Hk).
      exists s1, (s3 ++ s4). rewrite <- app_assoc. split; [reflexivity|].
      split; [exact H1|]. apply IH. exists s3, s4.
      rewrite length_app, Nat.add_assoc in Hk. auto.
Qed.

Lemma at_most_decides step P :
  decides step P ->
  forall times,
    decides (at_most step times)
            (fun n s rest => exists j, j <= times /\ power P j n s rest).
Proof.
  intros Hstep times. induction times as [|times IH]; intros k n s.
  - cbn. split.
    + intros Hk. exists [], s. rewrite Nat.add_0_r.
      split; [reflexivity|]. split; [|exact Hk]. exists 0. now split.
    + intros (s1 & s2 & -> & (j & Hj & Hp) & Hk).
      assert (j = 0) by lia. subst j. cbn in Hp. subst s1.
      now rewrite Nat.add_0_r in Hk.
  - cbn [at_most]. rewrite orb_true_iff, (Hstep _ n s). split.
    + intros [(s1 & s2 & -> & H1 & Hk)|Hk].
      * apply IH in Hk. destruct Hk as (s3 & s4 & -> & (j & Hj & H3) & Hk).
        exists (s1 ++ s3), s4. rewrite <- app_assoc. split; [reflexivity|].
        split.
        -- exists (S j). split; [lia|]. exists s1, s3. auto.
        -- now rewrite length_app, Nat.add_assoc.
      * exists [], s. rewrite Nat.add_0_r.
        split; [reflexivity|]. split; [|exact Hk]. exists 0. split; [lia|].
        reflexivity.
    + intros (s0 & s4 & -> & (j & Hj & Hp) & Hk). destruct j as [|j].
      * cbn in Hp. subst s0. right. now rewrite Nat.add_0_r in Hk.
      * left. destruct Hp as (s1 & s3 & -> & H1 & H3).
        exists s1, (s3 ++ s4). rewrite <- app_assoc. split; [reflexivity|].
        split; [exact H1|]. apply IH. exists s3, s4.
        rewrite length_app, Nat.add_assoc in Hk.
        split; [reflexivity|]. split; [|exact Hk]. exists j. split; [lia|auto].
Qed.

Lemma power_app P a b : forall n s1 s2 rest,
  power P a n s1 (s2 ++ rest) ->
  power P b (n + length s1) s2 rest ->
  power P (a + b) n (s1 ++ s2) rest.
Proof.
  induction a as [|a IH]; intros n s1 s2 rest Ha Hb.
  - cbn in Ha. subst s1. now rewrite Nat.add_0_r in Hb.
  - destruct Ha as (u & v & -> & Hu & Hv). cbn [Nat.add power].
    exists u, (v ++ s2). rewrite <- app_assoc. split; [reflexivity|].
    split; [now rewrite <- app_assoc|].
    apply IH; [exact Hv|]. now rewrite length_app, Nat.add_assoc in Hb.
Qed.

Lemma power_split P a b : forall n s rest,
  power P (a + b) n s rest ->
  exists s1 s2,
    s = s1 ++ s2 /\ power P a n s1 (s2 ++ rest) /\
    power P b (n + length s1) s2 rest.
Proof.
  induction a as [|a IH]; intros n s rest H.
  - exists [], s. rewrite Nat.add_0_r. now repeat split.
  - destruct H as (u & v & -> & Hu & Hv).
    apply IH in Hv. destruct Hv as (s1 & s2 & -> & H1 & H2).
    exists (u ++ s1), s2. split; [apply app_assoc|].
    split.
    + exists u, s1. rewrite <- app_assoc in Hu. auto.
    + now rewrite length_app, Nat.add_assoc.
Qed.

(** The matcher decides [matches]. *)
Lemma matcher_decides (i : bool) (p : pattern) :
  decides (matcher i p) (matches i p).
Proof.
  induction p as [c|ranges|p1 IH1 p2 IH2|p1 IH1 p2 IH2|p1 IH1|lo hi p1 IH1| |];
    cbn [matcher matches].
  - apply one_decides.
  - apply one_decides.
  - intros k n s. rewrite (IH1 _ n s). split.
    + intros (s1 & s2 & -> & H1 & Hk). apply IH2 in Hk.
      destruct Hk as (s3 & s4 & -> & H3 & Hk).
      exists (s1 ++ s3), s4. rewrite <- app_assoc. split; [reflexivity|].
      split.
      * exists s1, s3. auto.
      * now rewrite length_app, Nat.add_assoc.
    + intros (s0 & s4 & -> & (s1 & s3 & -> & H1 & H3) & Hk).
      exists s1, (s3 ++ s4). rewrite <- app_assoc. split; [reflexivity|].
      split; [exact H1|]. apply IH2. exists s3, s4.
      rewrite length_app, Nat.add_assoc in Hk. auto.
  - intros k n s. rewrite orb_true_iff, (IH1 _ n s), (IH2 _ n s). split.
    + intros [(s1 & s2 & -> & H & Hk)|(s1 & s2 & -> & H & Hk)];
        exists s1, s2; auto.
    + intros (s1 & s2 & -> & [H|H] & Hk); [left|right]; exists s1, s2; auto.
  - intros k n s. rewrite orb_true_iff, (IH1 _ n s). split.
    + intros [(s1 & s2 & -> & H & Hk)|Hk].
      * exists s1, s2. auto.
      * exists [], s. rewrite Nat.add_0_r. auto.
    + intros (s1 & s2 & -> & [H | ->] & Hk).
      * left. exists s1, s2. auto.
      * right. now rewrite Nat.add_0_r in Hk.
  - intros k n s.
    rewrite (exactly_decides _ _ IH1 lo _ n s). split.
    + intros (s1 & s2 & -> & H1 & Hk).
      apply (at_most_decides _ _ IH1) in Hk.
      destruct Hk as (s3 & s4 & -> & (j & Hj & H3) & Hk).
      exists (s1 ++ s3), s4. rewrite <- app_assoc. split; [reflexivity|].
      split.
      * exists (lo + j). split; [lia|]. now apply power_app.
      * now rewrite length_app, Nat.add_assoc.
    + intros (s0 & s4 & -> & (times & Htimes & Hp) & Hk).
      replace times with (lo + (times - lo)) in Hp by lia.
      apply power_split in Hp. destruct Hp as (s1 & s3 & -> & H1 & H3).
      exists s1, (s3 ++ s4). rewrite <- app_assoc. split; [reflexivity|].
      split; [exact H1|].
      apply (at_most_decides _ _ IH1). exists s3, s4.
      rewrite length_app, Nat.add_assoc in Hk.
      split; [reflexivity|]. split; [|exact Hk].
      exists (times - lo). split; [lia|exact H3].
  - intros k n s. rewrite andb_true_iff, Nat.eqb_eq. split.
    + intros [-> Hk]. exists [], s. auto.
    + intros (s1 & s2 & -> & [-> ->] & Hk). auto.
  - intros k n s. split.
    + destruct s; [|discriminate]. intros Hk. exists [], [].
      rewrite Nat.add_0_r. auto.
    + intros (s1 & s2 & -> & [-> ->] & Hk). now rewrite Nat.add_0_r in Hk.
Qed.

End RegExpFacts.

(** *** The pieces of the postcode pattern *)

Module PostcodeFacts.
Import RegExp RegExpFacts.

Ltac plain a :=
  lazymatch a with
  | context [if _ then _ else _] => fail
  | _ => idtac
  end.

Ltac by_ranges :=
  unfold in_class, in_one, is_alnum, is_letter, is_digit, to_upper, to_lower,
    in_range, A_Z, zero_nine;
  cbn [existsb andb orb];
  repeat first
    [ progress cbn [andb orb]
    | match goal with
      | |- context [(?a <=? ?b)%N] => plain a; plain b; destruct (N.leb_spec a b)
      | |- context [(?a =? ?b)%N] => plain a; plain b; destruct (N.eqb_spec a b)
      end ];
  cbn [andb orb] in *; try reflexivity; try lia.

Lemma class_letter c : in_class true [A_Z] c = is_letter c.
Proof. by_ranges. Qed.

Lemma class_digit c : in_class true [zero_nine] c = is_digit c.
Proof. by_ranges. Qed.

Lemma class_alnum c : in_class true [A_Z; zero_nine] c = is_alnum c.
Proof. by_ranges. Qed.

Lemma class_char x c :
  in_range 97%N 122%N x = false ->
  in_class true [(x, x)] c = N.eqb (to_upper c) x.
Proof.
  unfold in_range at 1. intros Hx.
  apply andb_false_iff in Hx.
  assert (Hx' : (x < 97 \/ 122 < x)%N).
  { destruct Hx as [H|H]; apply N.leb_gt in H; lia. }
  clear Hx. by_ranges.
Qed.

(** An expression that starts with [^] matches at index 0 or not at
    all. *)
Lemma search_anchored (re : regexp) (p : pattern) :
  source re = Seq Bol p ->
  forall n s, search re (S n) s = false.
Proof.
  intros Hre n s. revert n. induction s as [|c s IH]; intros n;
    cbn [search]; rewrite Hre; cbn [matcher Nat.eqb andb orb];
    [reflexivity|apply IH].
Qed.

Lemma test_anchored (re : regexp) (p : pattern) (s : jsstring) :
  source re = Seq Bol p ->
  test re s = matcher (ignoreCase re) p (fun _ _ => true) 0 s.
Proof.
  intros Hre. unfold test. destruct s as [|c s]; cbn [search].
  - rewrite Hre. cbn [matcher Nat.eqb andb]. apply orb_false_r.
  - rewrite (search_anchored re p Hre), Hre.
    cbn [matcher Nat.eqb andb]. apply orb_false_r.
Qed.

(** What the pieces of the pattern match. *)

Lemma letters_1_2 n s rest :
  matches true (Rep 1 2 (Class [A_Z])) n s rest <->
  1 <= length s <= 2 /\ forallb is_letter s = true.
Proof.
  cbn [matches]. split.
  - intros (times & Htimes & Hp).
    destruct times as [|[|[|times]]]; try lia; cbn [power] in Hp.
    + destruct Hp as (s1 & s2 & -> & (x & -> & Hx) & ->).
      rewrite class_letter in Hx. cbn. rewrite Hx. split; [lia|reflexivity].
    + destruct Hp as (s1 & s2 & -> & (x & -> & Hx) &
                      (s3 & s4 & -> & (y & -> & Hy) & ->)).
      rewrite class_letter in Hx, Hy. cbn. rewrite Hx, Hy.
      split; [lia|reflexivity].
  - intros [Hlen Hall]. destruct s as [|x [|y [|z s]]]; cbn in Hlen; try lia.
    + cbn in Hall. rewrite andb_true_r in Hall.
      exists 1. split; [lia|]. exists [x], []. repeat split.
      exists x. now rewrite class_letter.
    + cbn in Hall. rewrite andb_true_r in Hall.
      apply andb_true_iff in Hall as [Hx Hy].
      exists 2. split; [lia|]. exists [x], [y]. repeat split.
      * exists x. now rewrite class_letter.
      * exists [y], []. repeat split. exists y. now rewrite class_letter.
Qed.

Lemma letters_2 n s rest :
  matches true (Rep 2 2 (Class [A_Z])) n s rest <->
  length s = 2 /\ forallb is_letter s = true.
Proof.
  cbn [matches]. split.
  - intros (times & Htimes & Hp).
    destruct times as [|[|[|times]]]; try lia; cbn [power] in Hp.
    destruct Hp as (s1 & s2 & -> & (x & -> & Hx) &
                    (s3 & s4 & -> & (y & -> & Hy) & ->)).
    rewrite class_letter in Hx, Hy. cbn. rewrite Hx, Hy. now split.
  - intros [Hlen Hall].
    destruct s as [|x [|y [|z s]]]; cbn in Hlen; try discriminate.
    cbn in Hall. rewrite andb_true_r in Hall.
    apply andb_true_iff in Hall as [Hx Hy].
    exists 2. split; [lia|]. exists [x], [y]. repeat split.
    + exists x. now rewrite class_letter.
    + exists [y], []. repeat split. exists y. now rewrite class_letter.
Qed.

Lemma one_digit n s rest :
  matches true (Class [zero_nine]) n s rest <->
  exists d, s = [d] /\ is_digit d = true.
Proof.
  cbn [matches].
  split; intros (d & -> & Hd); exists d; rewrite class_digit in *; auto.
Qed.

Lemma perhaps_alnum n s rest :
  matches true (Opt (Class [A_Z; zero_nine])) n s rest <->
  length s <= 1 /\ forallb is_alnum s = true.
Proof.
  cbn [matches]. split.
  - intros [(x & -> & Hx)| ->]; [|split; [cbn; lia|reflexivity]].
    rewrite class_alnum in Hx. cbn. rewrite Hx. split; [lia|reflexivity].
  - intros [Hlen Hall]. destruct s as [|x [|y s]]; cbn in Hlen; try lia.
    + now right.
    + left. exists x. cbn in Hall. rewrite andb_true_r in Hall.
      now rewrite class_alnum.
Qed.

Lemma perhaps_space n s rest :
  matches true (Opt (Char 32%N)) n s rest <-> optional_space s.
Proof.
  cbn [matches]. unfold optional_space. split.
  - intros [(x & -> & Hx)| ->]; [|now left].
    rewrite class_char in Hx by reflexivity. apply N.eqb_eq in Hx.
    right. f_equal. revert Hx. unfold to_upper, in_range.
    destruct (N.leb_spec 97 x), (N.leb_spec x 122); cbn [andb]; lia.
  - intros [->| ->]; [now right|]. left. exists 32%N. now split.
Qed.

Lemma one_char x n s rest :
  in_range 97%N 122%N x = false ->
  matches true (Char x) n s rest <-> map to_upper s = [x].
Proof.
  intros Hx. cbn [matches]. split.
  - intros (c & -> & Hc). rewrite class_char in Hc by exact Hx.
    apply N.eqb_eq in Hc. cbn. now rewrite Hc.
  - destruct s as [|c [|d s]]; try discriminate.
    cbn [map]. intros H. injection H as H. exists c. split; [reflexivity|].
    rewrite class_char by exact Hx. now apply N.eqb_eq.
Qed.

(** The postcode pattern accepts the two forms and nothing else. *)
Lemma postcode_ok_form (s : jsstring) :
  postcode_ok s = true <-> postcode_form s.
Proof.
  unfold postcode_ok.
  rewrite (test_anchored UK_POSTCODE_REGEX _ s eq_refl).
  cbn [ignoreCase]. rewrite (matcher_decides true _ _ 0 s).
  split.
  - intros (s1 & s2 & -> & Hm & _).
    destruct Hm as (u & v & -> & Hm & -> & ->). rewrite !app_nil_r.
    destruct Hm as [Hm|Hm].
    + left.
      destruct Hm as (area & t1 & -> & Harea & Hm).
      destruct Hm as (d & t2 & -> & Hd & Hm).
      destruct Hm as (extra & t3 & -> & Hextra & Hm).
      destruct Hm as (space & t4 & -> & Hspace & Hm).
      destruct Hm as (sector & unit & -> & Hsector & Hunit).
      apply letters_1_2 in Harea. apply one_digit in Hd.
      apply perhaps_alnum in Hextra. apply perhaps_space in Hspace.
      apply one_digit in Hsector. apply letters_2 in Hunit.
      destruct Hd as (district & -> & Hdistrict).
      destruct Hsector as (sec & -> & Hsec).
      exists area, district, extra, space, sec, unit. tauto.
    + right.
      destruct Hm as (g & t1 & -> & Hg & Hm).
      destruct Hm as (i & t2 & -> & Hi & Hm).
      destruct Hm as (r & t3 & -> & Hr & Hm).
      destruct Hm as (space & t4 & -> & Hspace & Hm).
      destruct Hm as (o & t5 & -> & Ho & Hm).
      destruct Hm as (a & a' & -> & Ha & Ha').
      apply one_char in Hg, Hi, Hr, Ho, Ha, Ha'; try reflexivity.
      apply perhaps_space in Hspace.
      exists space. split; [|exact Hspace].
      rewrite !map_app, Hg, Hi, Hr, Ho, Ha, Ha'.
      destruct Hspace as [->| ->]; reflexivity.
  - intros [Hform|Hform].
    + destruct Hform as (area & district & extra & space & sector & unit &
                         -> & Hla & Ha & Hd & Hle & He & Hsp & Hs & Hlu & Hu).
      eexists. exists []. split; [symmetry; apply app_nil_r|].
      split; [|reflexivity].
      eexists. exists []. split; [symmetry; apply app_nil_r|].
      split; [|now split]. left.
      exists area. eexists. split; [reflexivity|].
      split; [now apply letters_1_2|].
      exists [district]. eexists. split; [reflexivity|].
      split; [apply one_digit; now exists district|].
      exists extra. eexists. split; [reflexivity|].
      split; [now apply perhaps_alnum|].
      exists space. eexists. split; [reflexivity|].
      split; [now apply perhaps_space|].
      exists [sector], unit. split; [reflexivity|].
      split; [apply one_digit; now exists sector|now apply letters_2].
    + destruct Hform as (space & Hs & Hsp).
      eexists. exists []. split; [symmetry; apply app_nil_r|].
      split; [|reflexivity].
      eexists. exists []. split; [symmetry; apply app_nil_r|].
      split; [|now split]. right.
      assert (Hsplit : exists g i r sp o a a',
                 s = [g] ++ [i] ++ [r] ++ sp ++ [o] ++ [a] ++ [a'] /\
                 map to_upper [g] = [71%N] /\ map to_upper [i] = [73%N] /\
                 map to_upper [r] = [82%N] /\ map to_upper sp = space /\
                 map to_upper [o] = [48%N] /\ map to_upper [a] = [65%N] /\
                 map to_upper [a'] = [65%N]).
      { destruct Hsp as [->| ->].
        - destruct s as [|g [|i [|r [|o [|a [|a' [|x s]]]]]]];
            try discriminate Hs.
          injection Hs as Hg Hi Hr Ho Ha Ha'.
          exists g, i, r, [], o, a, a'. cbn [map app].
          rewrite Hg, Hi, Hr, Ho, Ha, Ha'. repeat split.
        - destruct s as [|g [|i [|r [|sp [|o [|a [|a' [|x s]]]]]]]];
            try discriminate Hs.
          injection Hs as Hg Hi Hr Hsp Ho Ha Ha'.
          exists g, i, r, [sp], o, a, a'. cbn [map app].
          rewrite Hg, Hi, Hr, Hsp, Ho, Ha, Ha'. repeat split. }
      destruct Hsplit as (g & i & r & sp & o & a & a' & -> &
                          Hg & Hi & Hr & Hspace & Ho & Ha & Ha').
      exists [g]. eexists. split; [reflexivity|].
      split; [now apply one_char|].
      exists [i]. eexists. split; [reflexivity|].
      split; [now apply one_char|].
      exists [r]. eexists. split; [reflexivity|].
      split; [now apply one_char|].
      exists sp. eexists. split; [reflexivity|]. split.
      { apply perhaps_space. subst space. unfold optional_space.
        destruct Hsp as [H|H].
        - left. now destruct sp.
        - right. destruct sp as [|c [|d sp]]; try discriminate H.
          cbn in H. injection H as H. f_equal. revert H.
          unfold to_upper, in_range.
          destruct (N.leb_spec 97 c), (N.leb_spec c 122); cbn [andb]; lia. }
      exists [o]. eexists. split; [reflexivity|].
      split; [now apply one_char|].
      exists [a], [a']. split; [reflexivity|].
      split; now apply one_char.
Qed.

End PostcodeFacts.

(** *** Letter case, and the ends of an accepted postcode *)

Module CaseFacts.
Import RegExp PostcodeFacts.

Lemma case_facts c :
  to_upper (to_upper c) = to_upper c /\
  to_lower (to_upper c) = to_lower c /\
  to_upper (to_lower c) = to_upper c /\
  to_lower (to_lower c) = to_lower c /\
  (to_upper c = c \/ to_lower c = c).
Proof.
  unfold to_upper, to_lower, in_range.
  destruct (N.leb_spec 97 c), (N.leb_spec c 122),
    (N.leb_spec 65 c), (N.leb_spec c 90); cbn [andb]; try lia;
    repeat match goal with
           | |- context [(?a <=? ?b)%N] => destruct (N.leb_spec a b)
           end; cbn [andb]; repeat apply conj; try lia; auto.
Qed.

Lemma range_to_upper lo hi c :
  in_one true lo hi (to_upper c) = in_one true lo hi c.
Proof.
  unfold in_one. destruct (case_facts c) as (-> & -> & _ & _ & [H|H]).
  - now rewrite H.
  - rewrite H.
    now destruct (in_range lo hi (to_upper c)), (in_range lo hi c).
Qed.

Lemma range_to_lower lo hi c :
  in_one true lo hi (to_lower c) = in_one true lo hi c.
Proof.
  unfold in_one. destruct (case_facts c) as (_ & _ & -> & -> & [H|H]).
  - rewrite H.
    now destruct (in_range lo hi (to_lower c)), (in_range lo hi c).
  - now rewrite H.
Qed.

Section Folding.

(** A mapping of code units that no range tells from the identity once
    the [i] flag is set. *)
Variable fold : JS.char16 -> JS.char16.
Hypothesis fold_range :
  forall lo hi c, in_one true lo hi (fold c) = in_one true lo hi c.

Lemma in_class_fold ranges c :
  in_class true ranges (fold c) = in_class true ranges c.
Proof.
  unfold in_class.
  induction ranges as [|[lo hi] ranges IH]; [reflexivity|].
  cbn [existsb]. now rewrite fold_range, IH.
Qed.

#[local] Abbreviation agree := (RegExp.agree fold).

Lemma one_agree ranges k' k :
  agree k' k ->
  agree (one (in_class true ranges) k') (one (in_class true ranges) k).
Proof.
  intros Hk n [|c s]; [reflexivity|].
  cbn [map one]. now rewrite in_class_fold, Hk.
Qed.

Lemma exactly_agree (step : cont -> cont) :
  (forall k' k, agree k' k -> agree (step k') (step k)) ->
  forall times k' k,
    agree k' k -> agree (exactly step times k') (exactly step times k).
Proof.
  intros Hstep times. induction times as [|times IH]; intros k' k Hk;
    cbn [exactly]; [exact Hk|]. apply Hstep, IH, Hk.
Qed.

Lemma at_most_agree (step : cont -> cont) :
  (forall k' k, agree k' k -> agree (step k') (step k)) ->
  forall times k' k,
    agree k' k -> agree (at_most step times k') (at_most step times k).
Proof.
  intros Hstep times. induction times as [|times IH]; intros k' k Hk;
    cbn [at_most]; [exact Hk|].
  intros n s. now rewrite (Hstep _ _ (IH _ _ Hk)), Hk.
Qed.

Lemma matcher_agree (p : pattern) : forall k' k,
  agree k' k -> agree (matcher true p k') (matcher true p k).
Proof.
  induction p as [c|ranges|p1 IH1 p2 IH2|p1 IH1 p2 IH2|p1 IH1|lo hi p1 IH1| |];
    intros k' k Hk; cbn [matcher].
  - now apply one_agree.
  - now apply one_agree.
  - apply IH1, IH2, Hk.
  - intros n s. now rewrite (IH1 _ _ Hk), (IH2 _ _ Hk).
  - intros n s. now rewrite (IH1 _ _ Hk), Hk.
  - apply exactly_agree; [exact IH1|]. apply at_most_agree; [exact IH1|exact Hk].
  - intros n s. now rewrite Hk.
  - intros n [|c s]; [apply Hk|reflexivity].
Qed.

Lemma search_fold (re : regexp) :
  ignoreCase re = true ->
  forall s n, search re n (map fold s) = search re n s.
Proof.
  intros Hi s. induction s as [|c s IH]; intros n; cbn [map search];
    rewrite Hi; [reflexivity|].
  rewrite IH. change (fold c :: map fold s) with (map fold (c :: s)).
  now rewrite (matcher_agree (source re) (fun _ _ => true) (fun _ _ => true)
                 (fun _ _ => eq_refl) n (c :: s)).
Qed.

End Folding.

Lemma test_ignores_case (re : regexp) (s : jsstring) :
  ignoreCase re = true ->
  test re (map to_upper s) = test re s /\
  test re (map to_lower s) = test re s.
Proof.
  intros Hi. unfold test.
  split; apply search_fold;
    [exact range_to_upper|exact Hi|exact range_to_lower|exact Hi].
Qed.

Lemma letter_not_whitespace c :
  is_letter c = true -> JS.is_whitespace c = false.
Proof.
  unfold is_letter, in_range, JS.is_whitespace. intros H.
  apply orb_true_iff in H.
  assert (Hc : (65 <= c <= 122)%N).
  { destruct H as [H|H]; apply andb_true_iff in H as [H1 H2];
      apply N.leb_le in H1, H2; lia. }
  repeat match goal with
         | |- context [N.eqb c ?x] =>
             destruct (N.eqb_spec c x); [lia|]
         | |- context [N.leb ?x c] =>
             destruct (N.leb_spec x c); [lia|]
         end.
  reflexivity.
Qed.

Lemma upper_letter c x :
  to_upper c = x -> in_range 65%N 90%N x = true -> is_letter c = true.
Proof. intros <-. by_ranges. Qed.

(** An accepted form starts and ends with a letter and has five to
    eight code units. *)
Lemma postcode_form_ends (s : jsstring) :
  postcode_form s ->
  5 <= length s <= 8 /\
  (exists first rest, s = first :: rest /\ is_letter first = true) /\
  (exists front last, s = front ++ [last] /\ is_letter last = true).
Proof.
  intros [Hform|Hform].
  - destruct Hform as (area & district & extra & space & sector & unit &
                       -> & Hla & Ha & Hd & Hle & He & Hsp & Hs & Hlu & Hu).
    assert (Hspace : length space <= 1) by (destruct Hsp as [->| ->]; cbn; lia).
    split; [rewrite !length_app; cbn [length]; lia|]. split.
    + destruct area as [|a area]; [cbn in Hla; lia|].
      cbn in Ha. apply andb_true_iff in Ha as [Ha _].
      exists a. eexists. split; [reflexivity|exact Ha].
    + destruct unit as [|u1 [|u2 [|u3 unit]]]; try discriminate Hlu.
      cbn in Hu. rewrite andb_true_r in Hu.
      apply andb_true_iff in Hu as [_ Hu].
      exists (area ++ [district] ++ extra ++ space ++ [sector] ++ [u1]), u2.
      split; [|exact Hu]. now rewrite <- !app_assoc.
  - destruct Hform as (space & Hs & Hsp).
    destruct Hsp as [->| ->].
    + destruct s as [|g [|i [|r [|o [|a [|a' [|x s]]]]]]];
        try discriminate Hs.
      injection Hs as Hg Hi Hr Ho Ha Ha'.
      split; [cbn; lia|]. split.
      * exists g. eexists. split; [reflexivity|].
        now apply (upper_letter g _ Hg).
      * exists [g; i; r; o; a], a'. split; [reflexivity|].
        now apply (upper_letter a' _ Ha').
    + destruct s as [|g [|i [|r [|sp [|o [|a [|a' [|x s]]]]]]]];
        try discriminate Hs.
      injection Hs as Hg Hi Hr Hsp Ho Ha Ha'.
      split; [cbn; lia|]. split.
      * exists g. eexists. split; [reflexivity|].
        now apply (upper_letter g _ Hg).
      * exists [g; i; r; sp; o; a], a'. split; [reflexivity|].
        now apply (upper_letter a' _ Ha').
Qed.

Lemma trim_unpadded (s front rest : jsstring) (first last : JS.char16) :
  s = first :: rest -> s = front ++ [last] ->
  JS.is_whitespace first = false -> JS.is_whitespace last = false ->
  JS.trim s = s.
Proof.
  intros Hfirst Hlast Hf Hl. unfold JS.trim, JS.trimEnd.
  rewrite Hfirst. cbn [JS.trimStart]. rewrite Hf, <- Hfirst, Hlast.
  rewrite rev_app_distr. cbn [rev app JS.trimStart]. rewrite Hl.
  change (last :: rev front) with (rev [last] ++ rev front).
  now rewrite <- rev_app_distr, rev_involutive.
Qed.

End CaseFacts.

Module AlphabetFacts.
Import RegExp PostcodeFacts CaseFacts.

Lemma forallb_weaken {A} (f g : A -> bool) (l : list A) :
  (forall x, f x = true -> g x = true) ->
  forallb f l = true -> forallb g l = true.
Proof.
  intros Hfg Hall. apply forallb_forall. intros x Hx. apply Hfg.
  revert x Hx. now apply forallb_forall.
Qed.

Lemma letter_postcode_char c : is_letter c = true -> is_postcode_char c = true.
Proof. unfold is_postcode_char, is_alnum. now intros ->. Qed.

Lemma digit_postcode_char c : is_digit c = true -> is_postcode_char c = true.
Proof.
  unfold is_postcode_char, is_alnum. intros ->. now rewrite orb_true_r.
Qed.

Lemma alnum_postcode_char c : is_alnum c = true -> is_postcode_char c = true.
Proof. unfold is_postcode_char. now intros ->. Qed.

Lemma upper_postcode_char c :
  is_postcode_char (to_upper c) = is_postcode_char c.
Proof. unfold is_postcode_char. by_ranges. Qed.

Lemma postcode_form_alphabet (s : jsstring) :
  postcode_form s -> forallb is_postcode_char s = true.
Proof.
  intros [Hform|Hform].
  - destruct Hform as (area & district & extra & space & sector & unit &
                       -> & Hla & Ha & Hd & Hle & He & Hsp & Hs & Hlu & Hu).
    rewrite !forallb_app. cbn [forallb].
    rewrite (forallb_weaken _ _ _ letter_postcode_char Ha),
      (forallb_weaken _ _ _ letter_postcode_char Hu),
      (forallb_weaken _ _ _ alnum_postcode_char He),
      (digit_postcode_char _ Hd), (digit_postcode_char _ Hs).
    destruct Hsp as [->| ->]; reflexivity.
  - destruct Hform as (space & Hs & Hsp).
    apply forallb_forall. intros c Hc.
    rewrite <- upper_postcode_char.
    apply (in_map to_upper) in Hc. rewrite Hs in Hc.
    destruct Hsp as [->| ->]; cbn in Hc;
      repeat (destruct Hc as [<-|Hc]; [reflexivity|]); destruct Hc.
Qed.

End AlphabetFacts.

(** X18: the postcode check accepts exactly the strings of two forms:
    one or two letters, a digit, perhaps one more letter or digit,
    perhaps one space, a digit and two letters; or GIR 0AA, with or
    without its space, in any mix of upper and lower case. *)
Theorem postcode_ok_exactly_the_two_forms (postcode : jsstring) :
  postcode_ok postcode = true <-> postcode_form postcode.
Proof. apply PostcodeFacts.postcode_ok_form. Qed.

Lemma postcode_char_ascii (c : JS.char16) :
  is_postcode_char c = true -> (c < 128)%N.
Proof.
  unfold is_postcode_char, is_alnum, is_letter, is_digit, RegExp.in_range.
  intros H.
  repeat match type of H with
         | context [(?a <=? ?b)%N] => destruct (N.leb_spec a b)
         | context [(?a =? ?b)%N] => destruct (N.eqb_spec a b)
         end; cbn in H; try discriminate H; lia.
Qed.

(** X19: the postcode check ignores the case of the ASCII letters and of
    nothing else.  Replacing every ASCII letter by its upper-case or by
    its lower-case letter never changes the result, and a string that
    holds a code unit from 128 on is rejected.  So the check is not
    invariant under [toUpperCase] and [toLowerCase]: with U+017F (long
    s), U+0131 (dotless i) or U+212A (Kelvin sign) in the place of S, I
    or k a postcode is rejected, though those forms of it are
    accepted. *)
Theorem postcode_ok_ignores_ascii_case_only :
  (forall postcode,
     postcode_ok (map RegExp.to_upper postcode) = postcode_ok postcode /\
     postcode_ok (map RegExp.to_lower postcode) = postcode_ok postcode) /\
  (forall postcode c,
     In c postcode -> (128 <= c)%N -> postcode_ok postcode = false) /\
  (postcode_ok (0x17F%N :: JS.lit "W1A 1AA") = false /\
   postcode_ok (JS.lit "SW1A 1AA") = true) /\
  (postcode_ok (JS.lit "G" ++ 0x131%N :: JS.lit "R 0AA") = false /\
   postcode_ok (JS.lit "GIR 0AA") = true) /\
  (postcode_ok (0x212A%N :: JS.lit "1 1AA") = false /\
   postcode_ok (JS.lit "k1 1AA") = true).
Proof.
  split; [|split; [|repeat split]].
  - intros postcode. apply CaseFacts.test_ignores_case. reflexivity.
  - intros postcode c Hc Hhigh.
    destruct (postcode_ok postcode) eqn:Hok; [|reflexivity]. exfalso.
    apply PostcodeFacts.postcode_ok_form,
      AlphabetFacts.postcode_form_alphabet in Hok.
    assert (Hchar : is_postcode_char c = true).
    { exact (proj1 (forallb_forall is_postcode_char postcode) Hok c Hc). }
    apply postcode_char_ascii in Hchar. lia.
Qed.

(** X20: an accepted postcode has five to eight code units, each an
    ASCII letter, a digit or the space, and neither starts nor ends with
    white space: trimming leaves it as it is, and the same postcode with
    a blank put before or after it is rejected (the schema does not
    trim). *)
Theorem accepted_postcode_is_short_and_unpadded (postcode : jsstring) :
  postcode_ok postcode = true ->
  5 <= length postcode <= 8 /\
  forallb is_postcode_char postcode = true /\
  JS.trim postcode = postcode /\
  forall blank,
    JS.is_whitespace blank = true ->
    postcode_ok (blank :: postcode) = false /\
    postcode_ok (postcode ++ [blank]) = false.
Proof.
  intros Hok. apply PostcodeFacts.postcode_ok_form in Hok.
  destruct (CaseFacts.postcode_form_ends _ Hok)
    as (Hlen & (first & rest & Hfirst & Hf) & (front & last & Hlast & Hl)).
  split; [exact Hlen|].
  split; [now apply AlphabetFacts.postcode_form_alphabet|]. split.
  - apply (CaseFacts.trim_unpadded _ front rest first last); auto;
      now apply CaseFacts.letter_not_whitespace.
  - intros blank Hblank. split.
    + destruct (postcode_ok (blank :: postcode)) eqn:Hpad; [|reflexivity].
      apply PostcodeFacts.postcode_ok_form in Hpad.
      destruct (CaseFacts.postcode_form_ends _ Hpad)
        as (_ & (c & r & Hc & Hletter) & _).
      injection Hc as <- _.
      apply CaseFacts.letter_not_whitespace in Hletter. congruence.
    + destruct (postcode_ok (postcode ++ [blank])) eqn:Hpad; [|reflexivity].
      apply PostcodeFacts.postcode_ok_form in Hpad.
      destruct (CaseFacts.postcode_form_ends _ Hpad)
        as (_ & _ & (f & c & Hc & Hletter)).
      apply app_inj_tail in Hc as [_ <-].
      apply CaseFacts.letter_not_whitespace in Hletter. congruence.
Qed.

Lemma accepted_postcode_witness :
  5 <= length (JS.lit "SW1A 1AA") <= 8 /\
  forallb is_postcode_char (JS.lit "SW1A 1AA") = true /\
  JS.trim (JS.lit "SW1A 1AA") = JS.lit "SW1A 1AA" /\
  forall blank,
    JS.is_whitespace blank = true ->
    postcode_ok (blank :: JS.lit "SW1A 1AA") = false /\
    postcode_ok (JS.lit "SW1A 1AA" ++ [blank]) = false.
Proof.
  apply (accepted_postcode_is_short_and_unpadded (JS.lit "SW1A 1AA")).
  reflexivity.
Defined.

(* ================================================================== *)
(** ** The CSV export *)
(* ================================================================== *)

(** A name with a quote, a comma and a line feed in it is read back as
    it was. *)
Example csv_example :
  Petition.read_csv
    (Petition.csvContent (fun _ => JS.lit "01/02/2024")
       [tricky_signature])
  = Some [ Petition.headers;
           [ JS.lit "7"; [65; 34; 44; 10; 66]%N; JS.lit "a@b.org";
             JS.lit "M1 1AA"; []; JS.lit "01/02/2024" ] ].
Proof. reflexivity. Qed.

Module CsvFacts.
Import Petition.

Lemma bare_cons c s :
  bare (c :: s) = true ->
  N.eqb c comma = false /\ N.eqb c quote = false /\
  N.eqb c newline = false /\ bare s = true.
Proof.
  unfold bare. cbn [forallb]. intros H.
  apply andb_true_iff in H as [Hc Hs]. apply negb_true_iff in Hc.
  apply orb_false_iff in Hc as [Hc Hn]. apply orb_false_iff in Hc as [Hc Hq].
  auto.
Qed.

(** Reading a bare cell: the reader is still outside quotes, with the
    cell's code units collected. *)
Lemma read_bare (p : jsstring) : forall st cell row rows t,
  bare p = true ->
  st = CellStart \/ st = Bare ->
  exists st',
    (st' = CellStart \/ st' = Bare) /\
    read st cell row rows (p ++ t) = read st' (rev p ++ cell) row rows t.
Proof.
  induction p as [|c p IH]; intros st cell row rows t Hp Hst.
  - exists st. split; [exact Hst|reflexivity].
  - apply bare_cons in Hp as (Hc & Hq & Hn & Hp).
    destruct (IH Bare (c :: cell) row rows t Hp (or_intror eq_refl))
      as (st' & Hst' & Hread).
    exists st'. split; [exact Hst'|].
    cbn [app rev]. rewrite <- app_assoc. cbn [app]. rewrite <- Hread.
    destruct Hst as [-> | ->]; cbn [read]; now rewrite Hc, Hn, Hq.
Qed.

(** Reading the inside of a quoted cell up to its closing quote. *)
Lemma read_quoted (s : jsstring) : forall cell row rows t,
  read Quoted cell row rows (replace_quotes s ++ quote :: t)
  = read QuoteSeen (rev s ++ cell) row rows t.
Proof.
  induction s as [|c s IH]; intros cell row rows t.
  - reflexivity.
  - cbn [replace_quotes rev]. rewrite <- app_assoc. cbn [app].
    destruct (N.eqb c quote) eqn:Hc.
    + apply N.eqb_eq in Hc. subst c. cbn [app read].
      rewrite N.eqb_refl. apply IH.
    + cbn [app read]. rewrite Hc. apply IH.
Qed.

Lemma read_cell (text value : jsstring) row rows t :
  writes text value ->
  (match t with
   | [] => True
   | c :: _ => N.eqb c comma = true \/ N.eqb c newline = true
   end) ->
  read CellStart [] row rows (text ++ t) = after_cell value row rows t.
Proof.
  intros [[-> Hbare]| ->] Ht.
  - destruct (read_bare value CellStart [] row rows t Hbare (or_introl eq_refl))
      as (st' & Hst' & ->).
    rewrite app_nil_r. unfold after_cell.
    destruct t as [|c t]; [|destruct Ht as [Hc|Hc]];
      destruct Hst' as [-> | ->]; cbn [read]; rewrite ?rev_involutive;
      try reflexivity.
    + now rewrite Hc.
    + now rewrite Hc.
    + rewrite Hc. destruct (N.eqb c comma); reflexivity.
    + rewrite Hc. destruct (N.eqb c comma); reflexivity.
  - unfold quoted. cbn [app read]. rewrite N.eqb_refl.
    assert (Hq : forall c, N.eqb c quote = true -> N.eqb c comma = false /\
                                                   N.eqb c newline = false).
    { intros c Hc. apply N.eqb_eq in Hc. now subst c. }
    change (N.eqb comma quote) with false. change (N.eqb newline quote) with false.
    cbv iota.
    rewrite <- app_assoc. cbn [app]. rewrite read_quoted, app_nil_r.
    unfold after_cell. destruct t as [|c t]; cbn [read]; rewrite rev_involutive;
      [reflexivity|].
    destruct (N.eqb c quote) eqn:Hc.
    + destruct (Hq c Hc) as [H1 H2]. destruct Ht; congruence.
    + reflexivity.
Qed.


Lemma read_line (texts values : list jsstring) :
  Forall2 writes texts values ->
  texts <> [] ->
  forall row rows t,
    (match t with [] => True | c :: _ => N.eqb c newline = true end) ->
    read CellStart [] row rows (join [comma] texts ++ t)
    = line_end (rev row ++ values) rows t.
Proof.
  induction 1 as [|text value texts values Hcell Hrest IH];
    [congruence|].
  intros _ row rows t Ht. destruct texts as [|text' texts].
  - inversion Hrest; subst.
    change (join [comma] [text]) with text.
    rewrite (read_cell text value row rows t Hcell).
    + unfold after_cell, line_end. cbn [rev].
      destruct t as [|c t]; [reflexivity|]. rewrite Ht.
      apply N.eqb_eq in Ht. subst c. reflexivity.
    + destruct t; auto.
  - change (join [comma] (text :: text' :: texts))
      with (text ++ [comma] ++ join [comma] (text' :: texts)).
    rewrite <- !app_assoc. cbn [app].
    rewrite (read_cell text value row rows _ Hcell);
      [|left; reflexivity].
    unfold after_cell. change (N.eqb comma comma) with true. cbv iota.
    rewrite IH; [|discriminate|exact Ht].
    cbn [rev]. now rewrite <- app_assoc.
Qed.

Lemma read_lines (lines : list jsstring) (table : list (list jsstring)) :
  Forall2 writes_line lines table ->
  lines <> [] ->
  forall rows,
    read CellStart [] [] rows (join [newline] lines)
    = Some (rev rows ++ table).
Proof.
  induction 1 as [|line values lines table Hline Hrest IH];
    [congruence|].
  intros _ rows. destruct Hline as (texts & -> & Hsome & Hcells).
  destruct lines as [|line' lines].
  - inversion Hrest; subst.
    change (join [newline] [join [comma] texts])
      with (join [comma] texts).
    rewrite <- (app_nil_r (join [comma] texts)).
    rewrite (read_line texts values Hcells Hsome [] rows (@nil JS.char16));
      [|exact I].
    reflexivity.
  - change (join [newline] (join [comma] texts :: line' :: lines))
      with (join [comma] texts ++ [newline] ++ join [newline] (line' :: lines)).
    cbn [app].
    rewrite (read_line texts values Hcells Hsome [] rows); [|reflexivity].
    unfold line_end. change (N.eqb newline newline) with true. cbv iota.
    rewrite IH; [|discriminate]. cbn [rev app]. now rewrite <- app_assoc.
Qed.

Lemma writes_bare s : bare s = true -> writes s s.
Proof. now left. Qed.

Lemma writes_quoted s : writes (quoted s) s.
Proof. now right. Qed.

Lemma headers_line : writes_line (join [comma] headers) headers.
Proof.
  exists headers. split; [reflexivity|]. split; [discriminate|].
  unfold headers. repeat constructor.
Qed.

Lemma signature_line date_signed sig :
  bare_cells date_signed sig ->
  writes_line (csv_line date_signed sig) (cells date_signed sig).
Proof.
  intros (Hid & Hemail & Hpostcode & Hdate). eexists.
  split; [reflexivity|]. split; [discriminate|].
  unfold cells.
  repeat first [ apply Forall2_nil
               | apply Forall2_cons;
                 [first [apply writes_quoted | now apply writes_bare]|] ].
Qed.

End CsvFacts.

(** X21: the text [exportToCSV] builds reads back, by the rules of RFC
    4180, as the header row followed by one row of six cells per
    signature, in order, with every name and comment exactly as stored
    (whatever commas, quotes or line feeds they hold), provided the
    cells written without quotes (id, email, postcode and the rendered
    date) hold no comma, quote or line feed. *)
Theorem csv_export_reads_back
  (date_signed : jsstring -> jsstring)
  (signatures : list Petition.PetitionSignatureModel) :
  Forall (Petition.bare_cells date_signed) signatures ->
  Petition.read_csv (Petition.csvContent date_signed signatures)
  = Some (Petition.headers :: map (Petition.cells date_signed) signatures).
Proof.
  intros Hbare. unfold Petition.read_csv, Petition.csvContent.
  rewrite (CsvFacts.read_lines _
             (Petition.headers :: map (Petition.cells date_signed) signatures));
    [reflexivity| |discriminate].
  constructor; [apply CsvFacts.headers_line|].
  induction Hbare as [|sig signatures Hsig _ IH]; cbn [map]; constructor;
    [now apply CsvFacts.signature_line|exact IH].
Qed.

Lemma csv_export_witness :
  Petition.read_csv
    (Petition.csvContent (fun _ => JS.lit "01/02/2024") [tricky_signature])
  = Some (Petition.headers ::
          map (Petition.cells (fun _ => JS.lit "01/02/2024"))
              [tricky_signature]).
Proof.
  apply (csv_export_reads_back (fun _ => JS.lit "01/02/2024")
           [tricky_signature]).
  repeat constructor.
Defined.

(** *** From the form to the export *)

Lemma postcode_char_bare (s : jsstring) :
  forallb is_postcode_char s = true -> Petition.bare s = true.
Proof.
  unfold Petition.bare. apply AlphabetFacts.forallb_weaken. intros c.
  unfold is_postcode_char, is_alnum, is_letter, is_digit, RegExp.in_range,
    Petition.comma, Petition.quote, Petition.newline.
  intros H.
  destruct (N.eqb_spec c 44), (N.eqb_spec c 34), (N.eqb_spec c 10);
    subst; try discriminate H; reflexivity.
Qed.

(** X22: a postcode the form accepts holds no comma, quote or line feed,
    and neither does its upper-case form, the one [onSubmit] stores: the
    export can write both without quotes. *)
Theorem accepted_postcode_exports_bare (postcode : jsstring) :
  postcode_ok postcode = true ->
  Petition.bare postcode = true /\
  Petition.bare (map RegExp.to_upper postcode) = true.
Proof.
  intros Hok. split; apply postcode_char_bare,
    AlphabetFacts.postcode_form_alphabet, PostcodeFacts.postcode_ok_form.
  - exact Hok.
  - unfold postcode_ok in *.
    now rewrite (proj1 (CaseFacts.test_ignores_case UK_POSTCODE_REGEX postcode
                          eq_refl)).
Qed.

Lemma bare_postcode_witness :
  Petition.bare (JS.lit "sw1a 1aa") = true /\
  Petition.bare (map RegExp.to_upper (JS.lit "sw1a 1aa")) = true.
Proof.
  apply (accepted_postcode_exports_bare (JS.lit "sw1a 1aa")). reflexivity.
Defined.
